(** * AMPL front end: hash table, symbol table and scanner

    A shallow embedding of [hashtable.c], [symboltable.c] and [scanner.c],
    and the properties of the specification stated and proved on it, with
    further properties of the three files (numbered X1, X2, ...).

    Conventions of the embedding.
    - A C integer is a [Z]; every operation that can leave the range of its
      C type is followed by [wrap_uint] (unsigned int) or [wrap_int] (int,
      two's complement as on the usual targets).
    - A C [float] is an IEEE 754 binary32 value, [spec_float] at precision 24
      and maximal exponent 128.
    - A pointer that may be [NULL] is an [option]; [None] is [NULL].
    - The [Boolean] of boolean.h is [bool].
    - [malloc] is taken to succeed, so the branches taken on a [NULL] result
      of [malloc] are not part of the model.
    - A function whose C counterpart may have no defined result (a loop
      that does not exit, an object used after it was released) returns an
      [option]; [None] stands for "no result".
    - The buffer of [process_string] is a block of the heap with as many
      bytes as the allocator gives for the size asked for, a parameter of
      the scanner; a write outside the block, and the use of a byte or of a
      variable that was given no value, are an outcome of their own,
      [Undefined].
    - The functions that only print ([ht_print], [keyval2str],
      [print_symbol_table], [valstr]) are left out. *)

From Stdlib Require Import ZArith Lia Bool Ascii String.
From Stdlib Require Import Floats.SpecFloat.
From stdpp Require Import base option list gmap strings.

Local Open Scope Z_scope.

(** ** C integers *)

Definition wrap_uint (z : Z) : Z := z mod 2 ^ 32.
Definition wrap_int (z : Z) : Z := (z + 2 ^ 31) mod 2 ^ 32 - 2 ^ 31.
Definition INT_MAX : Z := 2 ^ 31 - 1.

Definition EXIT_SUCCESS : Z := 0.
Definition EXIT_FAILURE : Z := 1.

(** ** C floats (binary32) *)

Definition float : Type := spec_float.

(** [(float) n] for an unsigned [n]: rounding to nearest, ties to even. *)
Definition float_of_uint (n : Z) : float := binary_normalize 24 128 n 0 false.

Definition float_div (x y : float) : float := SFdiv 24 128 x y.

(** [x > y] on floats; false when either side is a NaN. *)
Definition float_gt (x y : float) : bool := SFltb y x.



(** The literal [0.75f] = 12582912 * 2^-24. *)
Definition float_0_75 : float := S754_finite false 12582912 (-24).

(** ** hashtable.c *)

Module HashTable.

Definition INITIAL_DELTA_INDEX : Z := 4.

(** The array of differences between a power of two and the largest prime
    less than that power of two. *)
Definition delta : list Z :=
  [0; 0; 1; 1; 3; 1; 3; 1; 5; 3; 3; 9; 3; 1; 3;
   19; 15; 1; 5; 1; 3; 9; 3; 15; 3; 39; 5; 39; 57; 3; 35; 1].

Definition MAX_IDX : Z := Z.of_nat (length delta).

(** [delta[i]]; the C array has no element outside [0 .. MAX_IDX - 1], the
    model reads 0 there. *)
Definition delta_at (i : Z) : Z := nth (Z.to_nat i) delta 0.

(** The test of [ht_insert], [(float) n / (float) size > max_loadfactor]. *)
Definition loadfactor_exceeded (n size : Z) (max_loadfactor : float) : bool :=
  float_gt (float_div (float_of_uint n) (float_of_uint size)) max_loadfactor.


(** The loop of [getsize]: [number] doubles while it is below [size_now].
    [number] is 0 from the 32nd doubling on, so a loop that has not exited
    after [fuel = 32] rounds never does. *)
Fixpoint getsize_loop (fuel : nat) (size_now number pow : Z) : option (Z * Z) :=
  if number <? size_now then
    match fuel with
    | O => None
    | S fuel' =>
        getsize_loop fuel' size_now (wrap_int (number * 2)) (wrap_int (pow + 1))
    end
  else Some (number, pow).

Definition getsize_of (size : Z) : option Z :=
  let size_now := wrap_int size in
  match getsize_loop 32 size_now 2 1 with
  | None => None
  | Some (number, pow) =>
      let pow := wrap_int (pow + 1) in
      Some (wrap_int (wrap_int (number * 2) - delta_at pow))
  end.

Section Table.

Context {K V : Type}.

(** Modelled from the spec: [HASH_TABLE_KEY_VALUE_PAIR_EXISTS] is declared in
    hashtable.h, which is not among the sources.  The spec calls it a
    distinguished "already exists" result; it is a parameter here, and the
    statements that need it to differ from [EXIT_SUCCESS] and [EXIT_FAILURE]
    say so. *)
Variable HASH_TABLE_KEY_VALUE_PAIR_EXISTS : Z.

(** The two function pointers given to [ht_init] and kept in the table for
    its whole life: [ht->hash] and [ht->cmp]. *)
Variable hash : K → Z → Z.
Variable cmp : K → K → Z.

(** An entry of the table; [next_ptr] is the tail of the list that holds the
    entry. *)
Record HTentry : Type := { key : K; value : V }.

Record HashTab : Type := {
  table : list (list HTentry);
  size : Z;
  num_entries : Z;
  max_loadfactor : float;
  idx : Z
}.

(** [ht->table[i]]; a read outside the array is undefined in C and gives the
    empty chain here, a write outside it changes nothing. *)
Definition bucket (t : list (list HTentry)) (i : Z) : list HTentry :=
  default [] (t !! Z.to_nat i).

Definition set_bucket (t : list (list HTentry)) (i : Z) (chain : list HTentry)
  : list (list HTentry) :=
  <[Z.to_nat i := chain]> t.

Definition talloc (tsize : Z) : list (list HTentry) :=
  replicate (Z.to_nat tsize) [].

Definition ht_init (loadfactor : float) : HashTab :=
  {| size := 13;
     num_entries := 0;
     idx := INITIAL_DELTA_INDEX;
     max_loadfactor := loadfactor;
     table := talloc (Z.shiftl 1 INITIAL_DELTA_INDEX) |}.

Definition getsize (ht : HashTab) : option Z := getsize_of (size ht).

(** The body of the inner loop of [rehash]: a copy of the entry is pushed on
    the front of its chain in the new array. *)
Definition rehash_entry (updated_size : Z) (future_table : list (list HTentry))
    (current_ent : HTentry) : list (list HTentry) :=
  let new_hash_val := hash (key current_ent) (wrap_uint updated_size) in
  let newest_ent := {| key := key current_ent; value := value current_ent |} in
  set_bucket future_table new_hash_val (newest_ent :: bucket future_table new_hash_val).

Definition rehash (ht : HashTab) : option HashTab :=
  match getsize ht with
  | None => None
  | Some updated_size =>
      let future_table := replicate (Z.to_nat updated_size) [] in
      let future_table :=
        fold_left (λ future_table chain,
                     fold_left (rehash_entry updated_size) chain future_table)
                  (take (Z.to_nat (size ht)) (table ht)) future_table in
      Some {| table := future_table;
              size := wrap_uint updated_size;
              num_entries := num_entries ht;
              max_loadfactor := max_loadfactor ht;
              idx := idx ht |}
  end.

(** The [while] loop of [ht_insert]: is a key equal to [k] in the chain? *)
Fixpoint chain_has_key (k : K) (present_entry : list HTentry) : bool :=
  match present_entry with
  | [] => false
  | e :: next_ptr =>
      if cmp k (key e) =? 0 then true else chain_has_key k next_ptr
  end.

Definition ht_insert (ht : option HashTab) (k : option K) (v : option V)
  : option (Z * option HashTab) :=
  match ht, k, v with
  | Some ht, Some k, Some v =>
      let hash_val := wrap_int (hash k (size ht)) in
      let entering_entry := {| key := k; value := v |} in
      let grown :=
        if loadfactor_exceeded (wrap_uint (num_entries ht + 1)) (size ht)
                               (max_loadfactor ht)
        then match rehash ht with
             | None => None
             | Some ht' => Some (ht', wrap_int (hash k (size ht')))
             end
        else Some (ht, hash_val) in
      match grown with
      | None => None
      | Some (ht, hash_val) =>
          if chain_has_key k (bucket (table ht) hash_val)
          then Some (HASH_TABLE_KEY_VALUE_PAIR_EXISTS, Some ht)
          else
            Some (EXIT_SUCCESS,
                  Some {| table := set_bucket (table ht) hash_val
                                     (entering_entry :: bucket (table ht) hash_val);
                          size := size ht;
                          num_entries := wrap_uint (num_entries ht + 1);
                          max_loadfactor := max_loadfactor ht;
                          idx := idx ht |})
      end
  | _, _, _ => Some (EXIT_FAILURE, ht)
  end.

(** The [for] loop of [ht_search]. *)
Fixpoint chain_search (k : K) (p : list HTentry) : option V :=
  match p with
  | [] => None
  | e :: next_ptr =>
      if cmp k (key e) =? 0 then Some (value e) else chain_search k next_ptr
  end.

Definition ht_search (ht : option HashTab) (k : option K) : option V :=
  match ht, k with
  | Some ht, Some k =>
      chain_search k (bucket (table ht) (wrap_int (hash k (size ht))))
  | _, _ => None
  end.

(** [ht_free]: the destructors act on a state [S] of the caller (for the
    symbol table, the store of identifier properties) and are called on
    every entry, bucket by bucket and along each chain. *)
Definition ht_free {S : Type} (ht : option HashTab)
    (freekey : option (K → S → option S)) (freeval : option (V → S → option S))
    (s : S) : option (Z * S) :=
  match ht, freekey, freeval with
  | Some ht, Some freekey, Some freeval =>
      let free_entry (acc : option S) (p : HTentry) : option S :=
        match acc with
        | None => None
        | Some s =>
            match freekey (key p) s with
            | None => None
            | Some s => freeval (value p) s
            end
        end in
      match fold_left (λ acc chain, fold_left free_entry chain acc)
                      (take (Z.to_nat (size ht)) (table ht)) (Some s) with
      | None => None
      | Some s => Some (EXIT_SUCCESS, s)
      end
  | _, _, _ => Some (EXIT_FAILURE, s)
  end.

(** *** Well-formed tables *)

Definition ht_entries (ht : HashTab) : list HTentry := concat (table ht).

(** What [ht_init] asks of the two functions: [hash] gives an index below
    the capacity, [cmp] gives 0 on an equivalence of keys, and equal keys
    hash alike. *)
Record hash_cmp_ok : Prop := {
  hash_range : ∀ k s, 0 < s → 0 ≤ hash k s < s;
  cmp_refl : ∀ k, cmp k k = 0;
  cmp_sym : ∀ a b, cmp a b = 0 → cmp b a = 0;
  cmp_trans : ∀ a b c, cmp a b = 0 → cmp b c = 0 → cmp a c = 0;
  hash_cmp : ∀ a b s, cmp a b = 0 → hash a s = hash b s
}.

(** No two entries of the list have equal keys. *)
Fixpoint distinct_keys (l : list HTentry) : Prop :=
  match l with
  | [] => True
  | e :: l' => (∀ e', e' ∈ l' → cmp (key e) (key e') ≠ 0) ∧ distinct_keys l'
  end.

(** Every entry of the array [t] sits in the bucket its key hashes to at
    capacity [s]. *)
Definition placed (s : Z) (t : list (list HTentry)) : Prop :=
  ∀ (j : nat) chain e,
    t !! j = Some chain → e ∈ chain → hash (key e) s = Z.of_nat j.

(** The representation invariant: the capacity is positive, fits an [int]
    and does not exceed the array; every entry sits in the bucket its key
    hashes to; no key is stored twice. *)
Record ht_wf (ht : HashTab) : Prop := {
  wf_size : 0 < size ht < 2 ^ 31;
  wf_length : size ht ≤ Z.of_nat (length (table ht));
  wf_place : placed (size ht) (table ht);
  wf_distinct : distinct_keys (ht_entries ht)
}.

(** The table as [ht_insert] has it after its test of the load factor:
    grown by [rehash] when the test fires, as it was otherwise. *)
Definition after_growth (ht : HashTab) : option HashTab :=
  if loadfactor_exceeded (wrap_uint (num_entries ht + 1)) (size ht)
                         (max_loadfactor ht)
  then rehash ht else Some ht.

(** The entry [ht_insert] makes of a key and a value. *)
Definition entry_of (kv : K * V) : HTentry :=
  {| key := kv.1; value := kv.2 |}.

(** Calls of [ht_insert] one after the other, whatever each returns; [None]
    when one of them has no result. *)
Fixpoint ht_insert_all (kvs : list (K * V)) (ht : HashTab) : option HashTab :=
  match kvs with
  | [] => Some ht
  | (k, v) :: kvs =>
      match ht_insert (Some ht) (Some k) (Some v) with
      | Some (_, Some ht') => ht_insert_all kvs ht'
      | _ => None
      end
  end.

(** No two pairs of the list have equal keys. *)
Fixpoint distinct_pairs (kvs : list (K * V)) : Prop :=
  match kvs with
  | [] => True
  | (k, _) :: kvs' =>
      (∀ k' v', (k', v') ∈ kvs' → cmp k k' ≠ 0) ∧ distinct_pairs kvs'
  end.

(** The value of the first pair of the list whose key is equal to [k]
    under the compare function. *)
Fixpoint first_with_key (k : K) (kvs : list (K * V)) : option V :=
  match kvs with
  | [] => None
  | (k', v) :: kvs' =>
      if cmp k k' =? 0 then Some v else first_with_key k kvs'
  end.

End Table.

Arguments HTentry : clear implicits.
Arguments HashTab : clear implicits.

(** A table keyed by integers, for the examples: a key is hashed to its
    remainder and two keys are compared by their difference. *)
Definition mod_hash (k size : Z) : Z := k mod size.
Definition diff_cmp (k1 k2 : Z) : Z := k1 - k2.


(** The pairs [(1, 1) ... (n, n)], and the table of threshold 0.75 they
    give when inserted into a new table; -1 stands for
    [HASH_TABLE_KEY_VALUE_PAIR_EXISTS]. *)
Definition pairs_upto (n : Z) : list (Z * Z) := (λ i, (i, i)) <$> seqZ 1 n.

Definition table_upto (n : Z) : HashTab Z Z :=
  default (ht_init float_0_75)
          (ht_insert_all (-1) mod_hash diff_cmp (pairs_upto n)
                         (ht_init float_0_75)).

(** The capacities a table takes: the initial 13 and what [getsize] makes
    of a capacity already taken. *)
Inductive capacity_reached : Z → Prop :=
| capacity_initial : capacity_reached 13
| capacity_grown c c' :
    capacity_reached c → getsize_of c = Some c' → capacity_reached c'.

(** [2^k - delta[k]]. *)
Definition near_prime (k : Z) : Z := 2 ^ k - delta_at k.

(** [c'] is the least value above [c] among those [form] takes on the
    indices of [delta]. *)
Definition least_of_form_above (form : Z → Z) (c c' : Z) : Prop :=
  (∃ k, 0 ≤ k < MAX_IDX ∧ c' = form k) ∧ c < c' ∧
  ∀ k, 0 ≤ k < MAX_IDX → c < form k → c' ≤ form k.

End HashTable.

(** ** symboltable.c *)

Module SymbolTable.

Import HashTable.

(** The characters of a C string: those before the terminating NUL, each as
    the value of an [unsigned char]. *)
Definition byte_of (c : ascii) : Z := Z.of_N (N_of_ascii c).

Fixpoint c_str (s : string) : list Z :=
  match s with
  | EmptyString => []
  | String c r => if byte_of c =? 0 then [] else byte_of c :: c_str r
  end.

(** The value of a plain [char], signed as on the usual targets. *)
Definition char_value (b : Z) : Z := if b <? 128 then b else b - 256.

(** [strcmp] on the characters of two strings: the difference of the first
    two bytes that differ, taken as [unsigned char], 0 when there is none. *)
Fixpoint strcmp (s1 s2 : list Z) : Z :=
  match s1, s2 with
  | [], [] => 0
  | [], c2 :: _ => 0 - c2
  | c1 :: _, [] => c1
  | c1 :: r1, c2 :: r2 => if c1 =? c2 then strcmp r1 r2 else c1 - c2
  end.

(** [shift_hash], as compiled without [DEBUG_SYMBOL_TABLE]. *)
Definition shift_hash (key : string) (size : Z) : Z :=
  let hash :=
    fold_left
      (λ hash c,
         let hash := Z.lor (wrap_uint (Z.shiftl hash 5)) (Z.shiftr hash 27) in
         wrap_uint (hash + char_value c))
      (c_str key) 0 in
  hash mod size.

(** [shift_hash], as compiled with [DEBUG_SYMBOL_TABLE]: the sum of the
    characters. *)
Definition shift_hash_debug (key : string) (size : Z) : Z :=
  let hash :=
    fold_left (λ hash c, wrap_uint (hash + char_value c)) (c_str key) 0 in
  hash mod size.

Definition key_strcmp (val1 val2 : string) : Z := strcmp (c_str val1) (c_str val2).

(** The address of an [IDPropt] object. *)
Definition loc : Type := positive.

Section SymTab.

Variable HASH_TABLE_KEY_VALUE_PAIR_EXISTS : Z.

(** Modelled from the spec: [ValType] and the macros [IS_CALLABLE_TYPE] and
    [IS_VARIABLE] come from valtypes.h, which is not among the sources.  The
    spec speaks of properties that denote a callable and of properties that
    denote a variable; the two tests are parameters. *)
Variable ValType : Type.
Variable IS_CALLABLE_TYPE : ValType → bool.
Variable IS_VARIABLE : ValType → bool.

(** Modelled from the spec: [IDPropt] is declared in symboltable.h, which is
    not among the sources; the record has the two fields symboltable.c
    reads and writes. *)
Record IDPropt : Type := { type : ValType; offset : Z }.

(** The static variables of symboltable.c, and the store that holds the
    [IDPropt] objects the tables point to. *)
Record symtab : Type := {
  table : option (HashTab string loc);
  saved_table : option (HashTab string loc);
  curr_offset : Z;
  store : gmap loc IDPropt
}.

Definition with_table (st : symtab) (t : option (HashTab string loc)) : symtab :=
  {| table := t; saved_table := saved_table st;
     curr_offset := curr_offset st; store := store st |}.

Definition sym_insert := ht_insert HASH_TABLE_KEY_VALUE_PAIR_EXISTS shift_hash key_strcmp
                           (V := loc).
Definition sym_search := ht_search shift_hash key_strcmp (V := loc).

Definition init_symbol_table (st : symtab) : symtab :=
  {| saved_table := None;
     table := Some (ht_init float_0_75);
     curr_offset := 1;
     store := store st |}.

Definition open_subroutine (id : option string) (prop : option loc) (st : symtab)
  : option (bool * symtab) :=
  match table st with
  | None => Some (false, st)
  | Some _ =>
      match sym_insert (table st) id prop with
      | None => None
      | Some (rc, t) =>
          if negb (rc =? EXIT_SUCCESS) then Some (false, with_table st t)
          else
            Some (true,
                  {| saved_table := t;
                     table := Some (ht_init float_0_75);
                     curr_offset := 1;
                     store := store st |})
      end
  end.

(** The destructors handed to [ht_free]: [free] for a key (the keys own no
    object of the store) and [freeprop] for a value; releasing an address
    that holds no object has no defined result. *)
Definition free_key (k : string) (m : gmap loc IDPropt) : option (gmap loc IDPropt) :=
  Some m.

Definition freeprop (p : loc) (m : gmap loc IDPropt) : option (gmap loc IDPropt) :=
  match m !! p with
  | Some _ => Some (delete p m)
  | None => None
  end.

(** [release_symbol_table]: the effect on the store.  The static pointer
    [table] is left as it is, pointing to the released table; its one
    caller here, [close_subroutine], overwrites it at once. *)
Definition release_symbol_table (st : symtab) : option (gmap loc IDPropt) :=
  match table st with
  | Some _ =>
      match ht_free (table st) (Some free_key) (Some freeprop) (store st) with
      | None => None
      | Some (_, m) => Some m
      end
  | None => Some (store st)
  end.

Definition close_subroutine (st : symtab) : option symtab :=
  match table st with
  | Some _ =>
      match release_symbol_table st with
      | None => None
      | Some m =>
          Some {| table := saved_table st; saved_table := None;
                  curr_offset := 0; store := m |}
      end
  | None =>
      Some {| table := table st; saved_table := saved_table st;
              curr_offset := 0; store := store st |}
  end.

Definition insert_name (id : option string) (prop : option loc) (st : symtab)
  : option (bool * symtab) :=
  match table st with
  | None => Some (false, st)
  | Some _ =>
      match sym_insert (table st) id prop with
      | None => None
      | Some (rc, t) =>
          if negb (rc =? EXIT_SUCCESS) then Some (false, with_table st t)
          else
            match prop with
            | None => None
            | Some p =>
                match store st !! p with
                | None => None
                | Some r =>
                    if IS_VARIABLE (type r) then
                      Some (true,
                            {| table := t; saved_table := saved_table st;
                               curr_offset := wrap_uint (curr_offset st + 1);
                               store := <[p := {| type := type r;
                                                  offset := curr_offset st |}]>
                                          (store st) |})
                    else Some (true, with_table st t)
                end
            end
      end
  end.

(** [find_name]: the Boolean result and the pointer left in [*prop]. *)
Definition find_name (id : option string) (st : symtab)
  : option (bool * option loc) :=
  match sym_search (table st) id, saved_table st with
  | None, Some _ =>
      match sym_search (saved_table st) id with
      | None => Some (false, None)
      | Some p =>
          match store st !! p with
          | None => None
          | Some r =>
              if negb (IS_CALLABLE_TYPE (type r)) then Some (false, None)
              else Some (true, Some p)
          end
      end
  | prop, _ => Some (bool_decide (is_Some prop), prop)
  end.

Definition get_variables_width (st : symtab) : Z := wrap_int (curr_offset st).

(** The values of the table are objects of the store, each stored once:
    what [release_symbol_table] needs to release them. *)
Definition owns_values (t : HashTab string loc) (m : gmap loc IDPropt) : Prop :=
  NoDup (value <$> ht_entries t) ∧
  ∀ e, e ∈ ht_entries t → is_Some (m !! value e).

(** Is the object at [p] a variable?  And the number of the items whose
    object is one. *)
Definition is_variable_at (m : gmap loc IDPropt) (p : loc) : bool :=
  match m !! p with
  | Some r => IS_VARIABLE (type r)
  | None => false
  end.

Definition count_variables (m : gmap loc IDPropt) (items : list (string * loc)) : Z :=
  Z.of_nat (length (filter (λ item, is_variable_at m item.2 = true) items)).

(** Calls of [insert_name] one after the other, with the result of each. *)
Fixpoint insert_names (items : list (string * loc)) (st : symtab)
  : option (list bool * symtab) :=
  match items with
  | [] => Some ([], st)
  | (id, p) :: items =>
      match insert_name (Some id) (Some p) st with
      | None => None
      | Some (b, st) =>
          match insert_names items st with
          | None => None
          | Some (bs, st) => Some (b :: bs, st)
          end
      end
  end.

End SymTab.

Arguments type {ValType} _.
Arguments offset {ValType} _.
Arguments table {ValType} _.
Arguments saved_table {ValType} _.
Arguments curr_offset {ValType} _.
Arguments store {ValType} _.
Arguments with_table {ValType} _ _.
Arguments init_symbol_table {ValType} _.
Arguments open_subroutine _ {ValType} _ _ _.
Arguments free_key {ValType} _ _.
Arguments freeprop {ValType} _ _.
Arguments release_symbol_table {ValType} _.
Arguments close_subroutine {ValType} _.
Arguments insert_name _ {ValType} _ _ _ _.
Arguments find_name {ValType} _ _ _.
Arguments get_variables_width {ValType} _.
Arguments owns_values {ValType} _ _.
Arguments is_variable_at {ValType} _ _ _.
Arguments count_variables {ValType} _ _ _.
Arguments insert_names _ {ValType} _ _ _.

(** For the examples: the value type is a Boolean that tells a callable
    from a variable, -1 stands for [HASH_TABLE_KEY_VALUE_PAIR_EXISTS], and
    the store holds a variable at 1, a callable at 2 and a variable at 3. *)
Definition example_store : gmap loc (IDPropt bool) :=
  <[1%positive := {| type := false; offset := 0 |}]>
    (<[2%positive := {| type := true; offset := 0 |}]>
       (<[3%positive := {| type := false; offset := 0 |}]> ∅)).

Definition example_start : symtab bool :=
  {| table := None; saved_table := None; curr_offset := 0;
     store := example_store |}.

Definition example_items : list (string * loc) :=
  [("x", 1%positive); ("f", 2%positive); ("y", 3%positive)].

(** The global scope with the variable "g", and the scope of the subroutine
    "f" opened in it, with the variable "y". *)
Definition example_global : symtab bool :=
  default example_start
    (snd <$> insert_name (-1) negb (Some "g") (Some 1%positive)
                         (init_symbol_table example_start)).

Definition example_nested : symtab bool :=
  default example_start
    (st ← snd <$> open_subroutine (-1) (Some "f") (Some 2%positive) example_global;
     snd <$> insert_name (-1) negb (Some "y") (Some 3%positive) st).

End SymbolTable.

(** ** scanner.c *)

Module Scanner.

Definition EOF : Z := -1.

(** <ctype.h> in the "C" locale, on the [int] that [getc] returns. *)
Definition isspace (c : Z) : bool := (c =? 32) || ((9 <=? c) && (c <=? 13)).
Definition isdigit (c : Z) : bool := (48 <=? c) && (c <=? 57).
Definition isalpha (c : Z) : bool :=
  ((65 <=? c) && (c <=? 90)) || ((97 <=? c) && (c <=? 122)).
Definition isascii (c : Z) : bool := (0 <=? c) && (c <=? 127).

(** The characters of a string literal of the C source. *)
Definition chars (s : string) : list Z := SymbolTable.c_str s.

Record SourcePos : Type := { line : Z; col : Z }.

(** Modelled from the spec: the token types are declared in token.h, which
    is not among the sources; these are the ones scanner.c names. *)
Inductive TokenType : Type :=
| TOK_EOF | TOK_ID | TOK_NUM | TOK_STR
| TOK_AND | TOK_ARRAY | TOK_BOOL | TOK_CHILLAX | TOK_ELIF | TOK_ELSE | TOK_END
| TOK_FALSE | TOK_IF | TOK_INPUT | TOK_INT | TOK_LET | TOK_MAIN | TOK_NOT
| TOK_OR | TOK_OUTPUT | TOK_PROGRAM | TOK_REM | TOK_RETURN | TOK_TRUE | TOK_WHILE
| TOK_EQ | TOK_PLUS | TOK_MUL | TOK_COLON | TOK_COMMA | TOK_DOTDOT
| TOK_LBRACK | TOK_RBRACK | TOK_LPAREN | TOK_RPAREN | TOK_SEMICOLON
| TOK_GE | TOK_GT | TOK_LE | TOK_LT | TOK_NE | TOK_DIV | TOK_ARROW | TOK_MINUS.

Definition reserved : list (list Z * TokenType) :=
  [ (chars "and", TOK_AND); (chars "array", TOK_ARRAY); (chars "bool", TOK_BOOL);
    (chars "chillax", TOK_CHILLAX); (chars "elif", TOK_ELIF);
    (chars "else", TOK_ELSE); (chars "end", TOK_END); (chars "false", TOK_FALSE);
    (chars "if", TOK_IF); (chars "input", TOK_INPUT); (chars "int", TOK_INT);
    (chars "let", TOK_LET); (chars "main", TOK_MAIN); (chars "not", TOK_NOT);
    (chars "or", TOK_OR); (chars "output", TOK_OUTPUT);
    (chars "program", TOK_PROGRAM); (chars "rem", TOK_REM);
    (chars "return", TOK_RETURN); (chars "true", TOK_TRUE);
    (chars "while", TOK_WHILE) ].

Definition NUM_RESERVED_WORDS : Z := Z.of_nat (length reserved).
Definition MAX_INIT_STR_LEN : Z := 1024.

(** Modelled from the spec: [Token] is declared in token.h, which is not
    among the sources: a type, and a payload that is the value of a number,
    the text of a string or the lexeme of a word. *)
Record Token : Type := {
  type : TokenType;
  value : Z;
  string : list Z;
  lexeme : list Z
}.

(** Modelled from the spec: [leprintf] comes from error.h, which is not
    among the sources; it prints the message for the current [position] and
    ends the compilation.  The messages of scanner.c: *)
Inductive lexical_error : Type :=
| illegal_character (c : Z)
| number_too_large
| non_printable_character (c : Z)
| illegal_escape_code (c : Z)
| string_not_closed
| identifier_too_long
| comment_not_closed.

(** What a scanner function comes to: a result; a fatal error reported for a
    position; a step that C leaves undefined (a write outside the block of a
    buffer, the use of a variable or of a byte that has no value); or no
    result within the rounds granted to its loops. *)
Inductive outcome (A : Type) : Type :=
| Done (a : A)
| Fatal (e : lexical_error) (pos : SourcePos)
| Undefined
| Unfinished.

Arguments Done {A} a.
Arguments Fatal {A} e pos.
Arguments Undefined {A}.
Arguments Unfinished {A}.

(** The static variables of scanner.c, with the bytes of [src_file] not yet
    read and the global [position] of error.h. *)
Record scanner : Type := {
  src_file : list ascii;
  ch : Z;
  cn : Z;
  ln : Z;
  posit : SourcePos;
  position : SourcePos
}.

Definition with_position (s : scanner) (p : SourcePos) : scanner :=
  {| src_file := src_file s; ch := ch s; cn := cn s; ln := ln s;
     posit := posit s; position := p |}.

Definition with_ch (s : scanner) (c : Z) : scanner :=
  {| src_file := src_file s; ch := c; cn := cn s; ln := ln s;
     posit := posit s; position := position s |}.

Definition set_type (t : Token) (ty : TokenType) : Token :=
  {| type := ty; value := value t; string := string t; lexeme := lexeme t |}.

Definition set_string (t : Token) (str : list Z) : Token :=
  {| type := type t; value := value t; string := str; lexeme := lexeme t |}.

Definition next_char (s : scanner) : scanner :=
  let '(c, rest) :=
    match src_file s with
    | [] => (EOF, [])
    | c :: rest => (SymbolTable.byte_of c, rest)
    end in
  if c =? 10 then
    {| src_file := rest; ch := c;
       posit := {| line := ln s; col := cn s |};
       ln := wrap_int (ln s + 1); cn := 0;
       position := position s |}
  else
    {| src_file := rest; ch := c;
       posit := posit s;
       ln := ln s; cn := wrap_int (cn s + 1);
       position := position s |}.

(** [init_scanner] on the bytes of the file; [s] holds the statics as they
    are at the call. *)
Definition init_scanner (in_file : list ascii) (s : scanner) : scanner :=
  next_char {| src_file := in_file; ch := ch s; cn := 0; ln := 1;
               posit := posit s; position := {| line := 1; col := 0 |} |}.

(** The statics before the first call, zero as C leaves them. *)
Definition scanner_start : scanner :=
  {| src_file := []; ch := 0; cn := 0; ln := 0;
     posit := {| line := 0; col := 0 |};
     position := {| line := 0; col := 0 |} |}.

(** The loop of [get_token] that removes whitespace; the second component
    is [is_it]. *)
Fixpoint skip_whitespace (rounds : nat) (s : scanner) (is_it : Z)
  : outcome (scanner * Z) :=
  if isspace (ch s) then
    match rounds with
    | O => Unfinished
    | S rounds =>
        if (ch s =? 32) || (ch s =? 13) || (ch s =? 11) || (ch s =? 10)
           || (ch s =? 12) then
          let s := next_char s in
          if ch s =? EOF then
            let s := with_position s (posit s) in
            let s := with_position s
                       {| line := line (position s);
                          col := wrap_int (col (position s) + 1) |} in
            skip_whitespace rounds s 1
          else skip_whitespace rounds s is_it
        else if ch s =? 9 then
          let s := next_char s in
          let s := with_position s
                     {| line := line (position s);
                        col := wrap_int (col (position s) + 3) |} in
          skip_whitespace rounds s is_it
        else skip_whitespace rounds s is_it
    end
  else Done (s, is_it).

(** The loop of [process_number]; [value] and [d] are its variables. *)
Fixpoint process_number_loop (rounds : nat) (s : scanner) (value d : Z)
  : outcome (scanner * Z) :=
  let v_updated := wrap_int (wrap_int (10 * value) + d) in
  if (v_updated <? 0) || (v_updated >? INT_MAX) then
    Fatal number_too_large (position s)
  else
    let value := v_updated in
    let s := next_char s in
    if negb (isdigit (ch s)) then Done (s, value)
    else
      match rounds with
      | O => Unfinished
      | S rounds => process_number_loop rounds s value (wrap_int (ch s - 48))
      end.

Definition process_number (token : Token) (s : scanner) : outcome (Token * scanner) :=
  match process_number_loop (length (src_file s)) s 0 (wrap_int (ch s - 48)) with
  | Done (s, v) =>
      Done ({| type := TOK_NUM; value := v;
               string := string token; lexeme := lexeme token |}, s)
  | Fatal e pos => Fatal e pos
  | Undefined => Undefined
  | Unfinished => Unfinished
  end.

(** *** The buffer of [process_string] *)

(** A block of the heap: the number of bytes asked for, and the bytes of the
    block, [None] for a byte that has no value yet. *)
Record block : Type := { asked : Z; bytes : list (option Z) }.

(** [b[i] = c]; [None] when the byte is outside the block, which C leaves
    undefined. *)
Definition write_byte (b : block) (i c : Z) : option block :=
  if (0 <=? i) && (i <? Z.of_nat (length (bytes b)))
  then Some {| asked := asked b; bytes := <[Z.to_nat i := Some c]> (bytes b) |}
  else None.

(** The string that starts at the first byte of a block: the bytes before
    the first NUL; [None] when a byte that has no value, or the end of the
    block, comes before a NUL. *)
Fixpoint c_string (bytes : list (option Z)) : option (list Z) :=
  match bytes with
  | [] => None
  | None :: _ => None
  | Some c :: bytes => if c =? 0 then Some [] else cons c <$> c_string bytes
  end.

(** The variables of [process_string]; [temp_col_number] and
    [temp_line_number] have no value until the loop has given them one. *)
Record string_vars : Type := {
  i : Z;
  nstring : Z;
  updated_string : block;
  temp_col_number : option Z;
  temp_line_number : option Z
}.

Section Tokens.

(** Modelled from the spec: [MAX_ID_LEN], the maximum identifier length, is
    defined in token.h, which is not among the sources; it is a parameter. *)
Variable MAX_ID_LEN : Z.

(** The allocator of the C library is not among the sources: [usable_size n]
    is the number of bytes that can be written in the block [malloc] or
    [realloc] gives for a request of [n] bytes.  C promises the [n] bytes
    asked for and no more; the usual allocators round the request up. *)
Variable usable_size : Z → Z.

Definition malloc (n : Z) : block :=
  {| asked := n; bytes := replicate (Z.to_nat (usable_size n)) None |}.

(** [realloc] keeps the bytes below the lesser of the old and the new size;
    the others have no value. *)
Definition realloc (b : block) (n : Z) : block :=
  {| asked := n;
     bytes := resize (Z.to_nat (usable_size n)) None
                     (take (Z.to_nat (Z.min (asked b) n)) (bytes b)) |}.

(** The loop of [process_string]; [ip] is the position saved on entry. *)
Fixpoint process_string_loop (rounds : nat) (ip : SourcePos) (s : scanner)
    (v : string_vars) : outcome (scanner * string_vars) :=
  if negb (ch s =? 34) then
    match rounds with
    | O => Unfinished
    | S rounds =>
        if (negb (isascii (ch s)) || (ch s <? 32)) && negb (ch s =? 10)
           && negb (ch s =? -1) then
          Fatal (non_printable_character (ch s)) (position s)
        else if ch s =? 10 then
          match temp_line_number v, temp_col_number v with
          | Some temp_line, Some temp_col =>
              Fatal (non_printable_character 10)
                    {| line := temp_line; col := wrap_int (temp_col + 1) |}
          | _, _ => Undefined
          end
        else
          let escaped : outcome (scanner * string_vars) :=
            if ch s =? 92 then
              match write_byte (updated_string v) (i v) 92 with
              | None => Undefined
              | Some b =>
                  let v := {| i := i v + 1; nstring := nstring v;
                              updated_string := b;
                              temp_col_number := temp_col_number v;
                              temp_line_number := temp_line_number v |} in
                  let s := next_char s in
                  if (ch s =? 110) || (ch s =? 116) then Done (s, v)
                  else if ch s =? 34 then Done (with_ch s 34, v)
                  else if ch s =? 92 then Done (with_ch s 92, v)
                  else Fatal (illegal_escape_code (ch s))
                             {| line := ln s; col := wrap_int (cn s - 1) |}
              end
            else Done (s, v) in
          match escaped with
          | Done (s, v) =>
              let v := if i v =? nstring v
                       then {| i := i v; nstring := nstring v * 2;
                               updated_string :=
                                 realloc (updated_string v) (nstring v * 2);
                               temp_col_number := temp_col_number v;
                               temp_line_number := temp_line_number v |}
                       else v in
              match write_byte (updated_string v) (i v) (ch s mod 256) with
              | None => Undefined
              | Some b =>
                  let v := {| i := i v + 1; nstring := nstring v;
                              updated_string := b;
                              temp_col_number := Some (cn s);
                              temp_line_number := Some (ln s) |} in
                  let s := next_char s in
                  if ch s =? EOF then Fatal string_not_closed ip
                  else
                    let s := with_position s {| line := ln s; col := cn s |} in
                    process_string_loop rounds ip s v
              end
          | Fatal e pos => Fatal e pos
          | Undefined => Undefined
          | Unfinished => Unfinished
          end
    end
  else Done (s, v).

(** The block as [process_string] has it before its loop: [malloc], the
    [for] loop that clears the [MAX_INIT_STR_LEN] bytes asked for, and the
    write of a NUL at the index [MAX_INIT_STR_LEN], one byte after them. *)
Definition cleared_string : option block :=
  let current_string := malloc MAX_INIT_STR_LEN in
  let updated_string :=
    fold_left (λ b j, b ≫= λ b, write_byte b j 0) (seqZ 0 MAX_INIT_STR_LEN)
              (Some current_string) in
  updated_string ≫= λ b, write_byte b MAX_INIT_STR_LEN 0.

(** [process_string].  [token->string] is given the pointer to the block;
    the token of the model holds the string that is read through it, the
    bytes before the first NUL.  The code writes no NUL of its own after the
    characters, so a block that has none left among its bytes holds no
    string, and the model has no token to return. *)
Definition process_string (token : Token) (s : scanner) : outcome (Token * scanner) :=
  match cleared_string with
  | None => Undefined
  | Some b =>
      let v := {| i := 0; nstring := MAX_INIT_STR_LEN; updated_string := b;
                  temp_col_number := None; temp_line_number := None |} in
      match process_string_loop (S (length (src_file s))) (position s) s v with
      | Done (s, v) =>
          match c_string (bytes (updated_string v)) with
          | Some str =>
              Done ({| type := TOK_STR; value := value token;
                       string := str; lexeme := lexeme token |},
                    next_char s)
          | None => Undefined
          end
      | Fatal e pos => Fatal e pos
      | Undefined => Undefined
      | Unfinished => Unfinished
      end
  end.

(** The [do ... while] loop of [process_word]; [lexeme] holds the characters
    written so far, [x] is their number. *)
Fixpoint process_word_loop (rounds : nat) (s : scanner) (lexeme : list Z) (x : Z)
  : outcome (scanner * list Z) :=
  if x >=? MAX_ID_LEN then Fatal identifier_too_long (position s)
  else
    let lexeme := lexeme ++ [ch s mod 256] in
    let s := next_char s in
    let x := wrap_int (x + 1) in
    if ((48 <=? ch s) && (ch s <=? 57)) || isalpha (ch s) || (ch s =? 95) then
      match rounds with
      | O => Unfinished
      | S rounds => process_word_loop rounds s lexeme x
      end
    else Done (s, lexeme).

(** The binary search of [process_word] through [reserved]. *)
Fixpoint reserved_search (rounds : nat) (lexeme : list Z) (lowest highest : Z)
  : option TokenType :=
  if lowest <? highest then
    match rounds with
    | O => None
    | S rounds =>
        let middle := wrap_int (lowest + (highest - lowest) `quot` 2) in
        match reserved !! Z.to_nat middle with
        | None => None
        | Some (word, ty) =>
            let cmp := SymbolTable.strcmp lexeme word in
            if cmp =? 0 then Some ty
            else if cmp <? 0 then reserved_search rounds lexeme lowest middle
            else reserved_search rounds lexeme (wrap_int (middle + 1)) highest
        end
    end
  else None.

Definition process_word (token : Token) (s : scanner) : outcome (Token * scanner) :=
  let s := with_position s {| line := line (position s); col := cn s |} in
  match process_word_loop (length (src_file s)) s [] 0 with
  | Done (s, lex) =>
      match reserved_search (length reserved) lex 0 NUM_RESERVED_WORDS with
      | Some ty =>
          Done ({| type := ty; value := value token;
                   string := string token; lexeme := lex |}, s)
      | None =>
          Done ({| type := TOK_ID; value := value token;
                   string := string token; lexeme := lex |}, s)
      end
  | Fatal e pos => Fatal e pos
  | Undefined => Undefined
  | Unfinished => Unfinished
  end.

(** [skip_comment]: [depth] bounds the nesting of the calls; the loop of a
    call is granted a round for each character left in the file, and one
    more to meet the end of the file. *)
Fixpoint skip_comment (depth : nat) (s : scanner) : outcome scanner :=
  match depth with
  | O => Unfinished
  | S depth =>
      let start_pos := {| line := ln s; col := cn s |} in
      let s := next_char s in
      (fix loop (rounds : nat) (s : scanner) : outcome scanner :=
         match rounds with
         | O => Unfinished
         | S rounds =>
             if ch s =? EOF then Fatal comment_not_closed start_pos
             else if ch s =? 123 then
               match skip_comment depth s with
               | Done s => loop rounds (next_char s)
               | other => other
               end
             else if ch s =? 125 then Done s
             else loop rounds (next_char s)
         end) (S (S (length (src_file s)))) s
  end.

Definition punctuation (token : Token) (ty : TokenType) (str : String.string)
    (s : scanner)
  : outcome (Token * scanner) :=
  Done (set_string (set_type token ty) (chars str), s).

(** [get_token]; [depth] bounds the calls it makes to itself after a
    comment. *)
Fixpoint get_token_rec (depth : nat) (token : Token) (s : scanner)
  : outcome (Token * scanner) :=
  match skip_whitespace (S (length (src_file s))) s 0 with
  | Done (s, is_it) =>
      let s := if is_it =? 0
               then with_position s {| line := ln s; col := cn s |}
               else s in
      if negb (ch s =? EOF) then
        if isalpha (ch s) || (ch s =? 95) then process_word token s
        else if isdigit (ch s) then process_number token s
        else if ch s =? 34 then
          let s := with_position s {| line := line (position s); col := cn s |} in
          let oldpos := position s in
          let s := next_char s in
          match process_string token s with
          | Done (token, s) => Done (token, with_position s oldpos)
          | other => other
          end
        else if ch s =? 123 then
          match depth with
          | O => Unfinished
          | S depth =>
              match skip_comment (S (length (src_file s))) s with
              | Done s => get_token_rec depth token (next_char s)
              | Fatal e pos => Fatal e pos
              | Undefined => Undefined
              | Unfinished => Unfinished
              end
          end
        else if ch s =? 61 then punctuation token TOK_EQ "=" (next_char s)
        else if ch s =? 43 then punctuation token TOK_PLUS "+" (next_char s)
        else if ch s =? 42 then punctuation token TOK_MUL "+" (next_char s)
        else if ch s =? 58 then punctuation token TOK_COLON ":" (next_char s)
        else if ch s =? 44 then punctuation token TOK_COMMA "," (next_char s)
        else if ch s =? 46 then
          let s := next_char s in
          if ch s =? 46 then punctuation token TOK_DOTDOT ".." (next_char s)
          else Fatal (illegal_character 46) (position s)
        else if ch s =? 91 then punctuation token TOK_LBRACK "[" (next_char s)
        else if ch s =? 93 then punctuation token TOK_RBRACK "]" (next_char s)
        else if ch s =? 40 then punctuation token TOK_LPAREN "(" (next_char s)
        else if ch s =? 41 then punctuation token TOK_RPAREN ")" (next_char s)
        else if ch s =? 59 then punctuation token TOK_SEMICOLON ";" (next_char s)
        else if ch s =? 62 then
          let s := next_char s in
          if ch s =? 61 then punctuation token TOK_GE ">=" (next_char s)
          else punctuation token TOK_GT ">" s
        else if ch s =? 60 then
          let s := next_char s in
          if ch s =? 61 then punctuation token TOK_LE "<=" (next_char s)
          else punctuation token TOK_LT "<" s
        else if ch s =? 47 then
          let s := next_char s in
          if ch s =? 61 then punctuation token TOK_NE "/=" (next_char s)
          else punctuation token TOK_DIV "/" s
        else if ch s =? 45 then
          let s := next_char s in
          if ch s =? 62 then punctuation token TOK_ARROW "->" (next_char s)
          else punctuation token TOK_MINUS "-" s
        else Fatal (illegal_character (ch s)) (position s)
      else Done (set_type token TOK_EOF, s)
  | Fatal e pos => Fatal e pos
  | Undefined => Undefined
  | Unfinished => Unfinished
  end.

Definition get_token (token : Token) (s : scanner) : outcome (Token * scanner) :=
  get_token_rec (S (length (src_file s))) token s.

End Tokens.

Arguments write_byte : simpl never.
Arguments realloc : simpl never.
Arguments cleared_string : simpl never.

(** The scanner has [input] before it: the first character of [input] is
    the lookahead [ch], the others are still to be read. *)
Definition reads (s : scanner) (input : list ascii) : Prop :=
  match input with
  | [] => ch s = EOF ∧ src_file s = []
  | c :: rest => ch s = SymbolTable.byte_of c ∧ src_file s = rest
  end.

(** For the examples: a token as the caller may hand it in, the double
    quote, and the seven characters of the input of the scenario: a double
    quote, a, b, a backslash, a double quote, c, a double quote. *)
Definition empty_token : Token :=
  {| type := TOK_EOF; value := 0; string := []; lexeme := [] |}.

Definition double_quote : ascii := ascii_of_nat 34.

(** For the examples: the usable size of the blocks of the allocator of the
    GNU C library on a 64-bit target; the request and the 8 bytes of the
    header are rounded up to a multiple of 16, so that a request of 1024
    bytes gives 1032. *)
Definition glibc_usable_size (n : Z) : Z := Z.max 24 ((n + 23) / 16 * 16 - 8).

Definition example_string_input : list ascii :=
  [double_quote; "a"%char; "b"%char; ascii_of_nat 92; double_quote; "c"%char;
   double_quote].

(** The value of a sequence of decimal digits. *)
Definition decimal_value (digits : list ascii) : Z :=
  fold_left (λ v c, 10 * v + (SymbolTable.byte_of c - 48)) digits 0.

(** The bodies of string literals that [process_string] takes without an
    error: characters from the space on, other than the double quote and
    the backslash, and the four escapes. *)
Inductive string_body : list ascii → Prop :=
| body_end : string_body []
| body_char c rest :
    32 ≤ SymbolTable.byte_of c ≤ 127 →
    SymbolTable.byte_of c ≠ 34 → SymbolTable.byte_of c ≠ 92 →
    string_body rest → string_body (c :: rest)
| body_escape c rest :
    SymbolTable.byte_of c ∈ [110; 116; 34; 92] →
    string_body rest →
    string_body (ascii_of_nat 92 :: c :: rest).

(** The buffer of [process_string] while the bytes first asked for
    suffice: the characters [written] so far, then what is left of the
    [MAX_INIT_STR_LEN + 1] NUL bytes written before the loop, then the
    other bytes of the block. *)
Definition string_buffer (v : string_vars) (written : list Z) : Prop :=
  i v = Z.of_nat (length written) ∧ nstring v = MAX_INIT_STR_LEN ∧
  ∃ (zeros : nat) (others : list (option Z)),
    bytes (updated_string v)
    = (Some <$> written) ++ replicate zeros (Some 0) ++ others ∧
    Z.of_nat (length written + zeros) = MAX_INIT_STR_LEN + 1.

(** [k] calls of [next_char]. *)
Fixpoint next_chars (k : nat) (s : scanner) : scanner :=
  match k with
  | O => s
  | S k => next_chars k (next_char s)
  end.

(** Two states of the scanner that differ at most in [position]. *)
Definition same_reading (s s' : scanner) : Prop :=
  src_file s = src_file s' ∧ ch s = ch s' ∧ cn s = cn s' ∧ ln s = ln s' ∧
  posit s = posit s'.

(** The lines and the columns of a text: the number of the newlines among
    the characters [l], and the number of the characters of [l] after its
    last newline, counted on from [cn]. *)
Definition newlines (l : list ascii) : Z :=
  Z.of_nat (length (filter (λ c, SymbolTable.byte_of c = 10) l)).

Fixpoint column (l : list ascii) (cn : Z) : Z :=
  match l with
  | [] => cn
  | c :: l => column l (if SymbolTable.byte_of c =? 10 then 0 else cn + 1)
  end.

(** The line and the column of the last character of [l], as an editor
    counts them from line 1 and column 1; a newline is at column 0 of the
    line it opens. *)
Definition read_position (l : list ascii) : SourcePos :=
  {| line := 1 + newlines l; col := column l 0 |}.

(** The scanner is in the file [before ++ ahead], short enough for the
    counters not to wrap: the characters [before] are behind it, the first
    character of [ahead] is the lookahead, and [ln] and [cn] are its line
    and its column. *)
Definition scans (s : scanner) (before ahead : list ascii) : Prop :=
  reads s ahead ∧ Z.of_nat (length (before ++ ahead)) < 2 ^ 31 - 1 ∧
  match ahead with
  | [] => True
  | c :: _ =>
      ln s = line (read_position (before ++ [c])) ∧
      cn s = col (read_position (before ++ [c]))
  end.

(** The characters of a word: the test of [get_token] for its first
    character and the test of the loop of [process_word] for the others. *)
Definition word_start (c : Z) : bool := isalpha c || (c =? 95).

Definition word_char (c : Z) : bool :=
  ((48 <=? c) && (c <=? 57)) || isalpha c || (c =? 95).

(** The punctuation and the operators of [get_token]: the characters, the
    type of the token and the string the code gives it. *)
Definition operators : list (String.string * TokenType * String.string) :=
  [ ("=", TOK_EQ, "="); ("+", TOK_PLUS, "+"); ("*", TOK_MUL, "+");
    (":", TOK_COLON, ":"); (",", TOK_COMMA, ","); ("..", TOK_DOTDOT, "..");
    ("[", TOK_LBRACK, "["); ("]", TOK_RBRACK, "]"); ("(", TOK_LPAREN, "(");
    (")", TOK_RPAREN, ")"); (";", TOK_SEMICOLON, ";");
    (">=", TOK_GE, ">="); (">", TOK_GT, ">");
    ("<=", TOK_LE, "<="); ("<", TOK_LT, "<");
    ("/=", TOK_NE, "/="); ("/", TOK_DIV, "/");
    ("->", TOK_ARROW, "->"); ("-", TOK_MINUS, "-") ]%string.

(** The characters with which [get_token] begins a token or a comment,
    letters, digits and the underscore apart. *)
Definition punctuation_start : list Z :=
  [34; 123; 61; 43; 42; 58; 44; 46; 91; 93; 40; 41; 59; 62; 60; 47; 45].

(** The text of a comment between its braces: characters other than braces,
    and comments. *)
Inductive comment_body : list ascii → Prop :=
| comment_end : comment_body []
| comment_char c rest :
    SymbolTable.byte_of c ≠ 123 → SymbolTable.byte_of c ≠ 125 →
    comment_body rest → comment_body (c :: rest)
| comment_nested inner rest :
    comment_body inner → comment_body rest →
    comment_body (ascii_of_nat 123 :: inner ++ ascii_of_nat 125 :: rest).

End Scanner.

(** * Properties *)

(** ** C integers *)

Lemma wrap_uint_small z : 0 ≤ z < 2 ^ 32 → wrap_uint z = z.
Proof. intros H. unfold wrap_uint. apply Z.mod_small. lia. Qed.

Lemma wrap_int_small z : - 2 ^ 31 ≤ z < 2 ^ 31 → wrap_int z = z.
Proof. intros H. unfold wrap_int. rewrite Z.mod_small; lia. Qed.

Lemma wrap_uint_range z : 0 ≤ wrap_uint z < 2 ^ 32.
Proof. unfold wrap_uint. apply Z.mod_pos_bound. lia. Qed.

(** A property checked on every integer of a range holds on the range. *)
Lemma forallb_seqZ (f : Z → bool) (lo len k : Z) :
  forallb f (seqZ lo len) = true → lo ≤ k < lo + len → f k = true.
Proof.
  intros Hall Hk. rewrite forallb_forall in Hall. apply Hall.
  apply list_elem_of_In, elem_of_seqZ. lia.
Qed.

(** ** The capacities of the hash table *)

Module HashTableCapacity.

Import HashTable.

Lemma near_prime_between k :
  4 ≤ k ≤ 31 → 2 ^ (k - 1) < near_prime k < 2 ^ k ∧ Z.odd (near_prime k) = true.
Proof.
  intros Hk.
  pose (f := λ k, (2 ^ (k - 1) <? near_prime k) && (near_prime k <? 2 ^ k)
                  && Z.odd (near_prime k)).
  assert (Hf : f k = true).
  { apply (forallb_seqZ f 4 28); [vm_compute; reflexivity | lia]. }
  unfold f in Hf. rewrite !andb_true_iff, !Z.ltb_lt in Hf.
  destruct Hf as [[H1 H2] H3]. auto.
Qed.

Lemma getsize_of_near_prime k :
  4 ≤ k ≤ 30 → getsize_of (near_prime k) = Some (near_prime (k + 1)).
Proof.
  intros Hk.
  pose (f := λ k, match getsize_of (near_prime k) with
                  | Some c => c =? near_prime (k + 1)
                  | None => false
                  end).
  assert (Hf : f k = true).
  { apply (forallb_seqZ f 4 27); [vm_compute; reflexivity | lia]. }
  unfold f in Hf. destruct (getsize_of (near_prime k)); [|done].
  f_equal. lia.
Qed.

Lemma getsize_of_last : getsize_of (near_prime 31) = None.
Proof. vm_compute. reflexivity. Qed.

Lemma near_prime_next_least k j :
  4 ≤ k ≤ 30 → 0 ≤ j < MAX_IDX →
  near_prime k < near_prime j → near_prime (k + 1) ≤ near_prime j.
Proof.
  intros Hk Hj Hlt.
  pose (g := λ k j, if near_prime k <? near_prime j
                    then near_prime (k + 1) <=? near_prime j else true).
  pose (f := λ k, forallb (g k) (seqZ 0 32)).
  assert (Hf : f k = true).
  { apply (forallb_seqZ f 4 27); [vm_compute; reflexivity | lia]. }
  assert (Hg : g k j = true).
  { apply (forallb_seqZ (g k) 0 32); [exact Hf | unfold MAX_IDX in Hj; simpl in Hj; lia]. }
  unfold g in Hg. destruct (Z.ltb_spec (near_prime k) (near_prime j)); lia.
Qed.


Lemma capacity_reached_near_prime c :
  capacity_reached c → ∃ k, 4 ≤ k ≤ 31 ∧ c = near_prime k.
Proof.
  induction 1 as [|c c' _ [k [Hk ->]] Hget].
  - exists 4. split; [lia | reflexivity].
  - destruct (decide (k = 31)) as [->|Hne].
    + rewrite getsize_of_last in Hget. discriminate.
    + rewrite getsize_of_near_prime in Hget by lia.
      exists (k + 1). split; [lia | congruence].
Qed.

Lemma not_power_of_two_between k c m :
  0 < k → 2 ^ (k - 1) < c < 2 ^ k → 0 ≤ m → c ≠ 2 ^ m.
Proof.
  intros Hk [Hlo Hhi] Hm ->.
  apply Z.pow_lt_mono_r_iff in Hlo; [|lia|lia].
  apply Z.pow_lt_mono_r_iff in Hhi; [|lia|lia].
  lia.
Qed.

(** C7, as stated, fails at the initial capacity: [getsize] turns 13 into
    31, which is not of the form [2^(k+1) - delta[k]], and 15 = 2^4 -
    delta[3] is a smaller value of that form above 13. *)
Lemma getsize_13_not_spec_form :
  getsize_of 13 = Some 31 ∧
  ¬ least_of_form_above (λ k, 2 ^ (k + 1) - delta_at k) 13 31.
Proof.
  split; [vm_compute; reflexivity|].
  intros (_ & _ & Hleast).
  assert (H : 31 ≤ 2 ^ (3 + 1) - delta_at 3).
  { apply Hleast; [unfold MAX_IDX; simpl; lia | vm_compute; reflexivity]. }
  change (2 ^ (3 + 1) - delta_at 3) with 15 in H. lia.
Qed.

Lemma getsize_loop_near_prime k :
  4 ≤ k ≤ 30 → getsize_loop 32 (wrap_int (near_prime k)) 2 1 = Some (2 ^ k, k).
Proof.
  intros Hk.
  pose (f := λ k, match getsize_loop 32 (wrap_int (near_prime k)) 2 1 with
                  | Some (number, pow) => (number =? 2 ^ k) && (pow =? k)
                  | None => false
                  end).
  assert (Hf : f k = true).
  { apply (forallb_seqZ f 4 27); [vm_compute; reflexivity | lia]. }
  unfold f in Hf.
  destruct (getsize_loop 32 (wrap_int (near_prime k)) 2 1) as [[number pow]|];
    [|done].
  f_equal. f_equal; lia.
Qed.

(** A capacity reached is [2^k - delta[k]] for some [k] from 4 to 31, is
    odd and is not a power of two; up to [k = 30] [getsize] returns on it,
    and turns it into [2^(k+1) - delta[k+1]], the least value of that form
    above it. *)
Lemma capacity_reached_next c :
  capacity_reached c →
  Z.odd c = true ∧ (∀ m, 0 ≤ m → c ≠ 2 ^ m) ∧
  ∃ k, 4 ≤ k ≤ 31 ∧ c = near_prime k ∧
       (k ≤ 30 →
        getsize_loop 32 (wrap_int c) 2 1 = Some (2 ^ k, k) ∧
        getsize_of c = Some (near_prime (k + 1)) ∧
        least_of_form_above near_prime c (near_prime (k + 1))).
Proof.
  intros Hc. destruct (capacity_reached_near_prime c Hc) as [k [Hk ->]].
  destruct (near_prime_between k Hk) as [Hbetween Hodd].
  split; [exact Hodd|]. split.
  { intros m Hm. apply (not_power_of_two_between k); [lia | exact Hbetween | exact Hm]. }
  exists k. split; [exact Hk|]. split; [reflexivity|].
  intros Hk30.
  split; [apply getsize_loop_near_prime; lia|].
  split; [apply getsize_of_near_prime; lia|].
  split; [|split].
  - exists (k + 1). split; [unfold MAX_IDX; simpl; lia | reflexivity].
  - destruct (near_prime_between (k + 1)) as [[H1 _] _]; [lia|].
    replace (k + 1 - 1) with k in H1 by lia. lia.
  - intros j Hj Hlt. apply near_prime_next_least; [lia | exact Hj | exact Hlt].
Qed.

End HashTableCapacity.

(** ** The load factor in binary32 *)

Module LoadFactor.

Import HashTable.

Lemma digits2_pos_size p : digits2_pos p = Pos.size p.
Proof. induction p; simpl; congruence. Qed.

Lemma digits2_pos_le p k : 0 ≤ k → Z.pos p < 2 ^ k → Z.pos (digits2_pos p) ≤ k.
Proof.
  intros Hk Hp. rewrite digits2_pos_size.
  pose proof (Pos.size_le p) as Hle.
  assert (H : 2 ^ Z.pos (Pos.size p) ≤ Z.pos p~0).
  { rewrite <- Pos2Z.inj_pow. apply Pos2Z.pos_le_pos. exact Hle. }
  rewrite Pos2Z.inj_xO in H.
  assert (H2 : 2 ^ Z.pos (Pos.size p) < 2 ^ (k + 1)).
  { rewrite Z.pow_add_r by lia. lia. }
  apply Z.pow_lt_mono_r_iff in H2; lia.
Qed.

Lemma digits2_pos_iter_xO p d :
  Z.pos (digits2_pos (Pos.iter xO p d)) = Z.pos (digits2_pos p) + Z.pos d.
Proof.
  induction d as [|d IH] using Pos.peano_ind.
  - simpl. lia.
  - rewrite Pos.iter_succ. simpl. lia.
Qed.

(** Rounding leaves a mantissa of 24 digits as it is. *)
Lemma binary_round_aux_canonical s m e :
  Z.pos (digits2_pos m) = 24 → -149 ≤ e ≤ 104 →
  binary_round_aux 24 128 s (Z.pos m) e loc_Exact = S754_finite s m e.
Proof.
  intros Hd He. unfold binary_round_aux, shr_fexp. simpl Zdigits2. rewrite Hd.
  assert (Hf : fexp 24 128 (24 + e) - e = 0).
  { unfold fexp, emin. lia. }
  rewrite Hf. simpl. rewrite Hd, Hf. simpl.
  match goal with
  | |- context [?x <=? ?y] => destruct (Z.leb_spec x y); [reflexivity|lia]
  end.
Qed.

(** [(float) a] for [a] below [2^24]: exact, with a mantissa of 24 digits. *)
Lemma float_of_uint_small a :
  0 < a < 2 ^ 24 →
  ∃ m e, float_of_uint a = S754_finite false m e ∧
         Z.pos (digits2_pos m) = 24 ∧ -23 ≤ e ≤ 0.
Proof.
  intros Ha. destruct a as [|p|p]; try lia.
  unfold float_of_uint, binary_normalize, binary_round, shl_align.
  pose proof (digits2_pos_le p 24 ltac:(lia) ltac:(lia)) as Hd.
  assert (Hf : fexp 24 128 (Z.pos (digits2_pos p) + 0) = Z.pos (digits2_pos p) - 24).
  { unfold fexp, emin. lia. }
  rewrite Hf.
  destruct (Z.pos (digits2_pos p) - 24 - 0) as [|d|d] eqn:Hdiff; try lia.
  - exists p, 0. rewrite binary_round_aux_canonical by lia. split; [done|]. lia.
  - exists (Pos.iter xO p d), (Z.pos (digits2_pos p) - 24).
    rewrite binary_round_aux_canonical.
    + split; [done|]. rewrite digits2_pos_iter_xO. lia.
    + rewrite digits2_pos_iter_xO. lia.
    + lia.
Qed.

(** [(float) INT_MAX] is [2^31]; dividing by it lowers the exponent by 31. *)
Lemma div_last_capacity m e :
  Z.pos (digits2_pos m) = 24 → -23 ≤ e ≤ 0 →
  float_div (S754_finite false m e) (float_of_uint INT_MAX)
  = S754_finite false m (e - 31).
Proof.
  intros Hd He.
  change (float_of_uint INT_MAX) with (S754_finite false 8388608 8).
  unfold float_div, SFdiv, SFdiv_core_binary.
  change (Zdigits2 8388608) with 24. simpl Zdigits2. rewrite Hd.
  assert (Hmin : fexp 24 128 (24 + e - (24 + 8)) `min` (e - 8) = e - 32).
  { unfold fexp, emin. lia. }
  rewrite Hmin. replace (e - 8 - (e - 32)) with 24 by lia.
  change (IntDef.Z.div_eucl (Z.pos m ≪ 24) 8388608)
    with (Z.div_eucl (Z.pos m ≪ 24) 8388608).
  destruct (Z.div_eucl (Z.pos m ≪ 24) 8388608) as [q r] eqn:Hqr.
  assert (Hq : q = Z.pos m~0).
  { transitivity ((Z.pos m ≪ 24) / 8388608).
    - unfold Z.div. by rewrite Hqr.
    - rewrite Z.shiftl_mul_pow2 by lia.
      replace (Z.pos m * 2 ^ 24) with (Z.pos m~0 * 8388608) by lia.
      apply Z.div_mul. lia. }
  assert (Hr : r = 0).
  { transitivity ((Z.pos m ≪ 24) mod 8388608).
    - unfold Z.modulo. by rewrite Hqr.
    - rewrite Z.shiftl_mul_pow2 by lia.
      replace (Z.pos m * 2 ^ 24) with (Z.pos m~0 * 8388608) by lia.
      apply Z.mod_mul. lia. }
  subst q r. simpl xorb. change (new_location 8388608 0) with loc_Exact.
  unfold binary_round_aux, shr_fexp.
  assert (Hd1 : Zdigits2 (Z.pos m~0) = 25).
  { simpl. rewrite Pos2Z.inj_succ, Hd. reflexivity. }
  rewrite Hd1.
  assert (Hf1 : fexp 24 128 (25 + (e - 32)) - (e - 32) = 1).
  { unfold fexp, emin. lia. }
  rewrite Hf1. simpl. rewrite Hd.
  assert (Hf2 : fexp 24 128 (24 + (e - 32 + 1)) - (e - 32 + 1) = 0).
  { unfold fexp, emin. lia. }
  rewrite Hf2. simpl.
  match goal with
  | |- context [?x <=? ?y] => destruct (Z.leb_spec x y); [|lia]
  end.
  f_equal. lia.
Qed.

(** *** The quotient of two counts *)





(** *** Rounding to nearest, ties to even *)



(** The mantissa that rounding to nearest, ties to even, makes of
    [m0 + rem / P]. *)













(** *** The last capacity *)

(** With fewer than [2^24] entries the test of [ht_insert] does not fire at
    the capacity [INT_MAX], so a table of threshold 0.75 never has to grow
    beyond it. *)
Lemma few_entries_at_last_capacity a :
  0 ≤ a < 2 ^ 24 → loadfactor_exceeded a INT_MAX float_0_75 = false.
Proof.
  intros Ha. destruct (decide (a = 0)) as [->|Hne]; [reflexivity|].
  destruct (float_of_uint_small a) as (m & e & Hm & Hd & He); [lia|].
  unfold loadfactor_exceeded. rewrite Hm, div_last_capacity by done.
  unfold float_gt, float_0_75, SFltb, SFcompare.
  rewrite (proj2 (Z.compare_gt_iff (-24) (e - 31))) by lia. reflexivity.
Qed.

End LoadFactor.

(** ** The hash table *)

Module HashTableFacts.

Import HashTable.

Lemma near_prime_range k :
  2 ≤ k ≤ 31 → 2 ^ (k - 1) < near_prime k < 2 ^ k.
Proof.
  intros Hk.
  pose (f := λ k, (2 ^ (k - 1) <? near_prime k) && (near_prime k <? 2 ^ k)).
  assert (Hf : f k = true).
  { apply (forallb_seqZ f 2 30); [vm_compute; reflexivity | lia]. }
  unfold f in Hf. rewrite andb_true_iff, !Z.ltb_lt in Hf. exact Hf.
Qed.

Lemma getsize_loop_run fuel s i :
  1 ≤ i ≤ 30 → s ≤ 2 ^ 30 → 30 - i < Z.of_nat fuel →
  i = 1 ∨ 2 ^ (i - 1) < s →
  ∃ j, i ≤ j ≤ 30 ∧ getsize_loop fuel s (2 ^ i) i = Some (2 ^ j, j) ∧
       s ≤ 2 ^ j ∧ (j = 1 ∨ 2 ^ (j - 1) < s).
Proof.
  revert i. induction fuel as [|fuel IH]; intros i Hi Hs Hfuel Hlow.
  - simpl. destruct (Z.ltb_spec (2 ^ i) s) as [Hlt|Hge].
    + assert (2 ^ i < 2 ^ 30) by lia.
      apply Z.pow_lt_mono_r_iff in H; lia.
    + exists i. repeat split; first [lia | done].
  - simpl. destruct (Z.ltb_spec (2 ^ i) s) as [Hlt|Hge].
    + assert (Hi30 : i < 30).
      { assert (H : 2 ^ i < 2 ^ 30) by lia.
        apply Z.pow_lt_mono_r_iff in H; lia. }
      assert (Hpow : 2 ^ i * 2 = 2 ^ (i + 1)).
      { rewrite Z.pow_add_r by lia. lia. }
      assert (Hle : 2 ^ (i + 1) ≤ 2 ^ 30).
      { apply Z.pow_le_mono_r; lia. }
      rewrite Hpow, !wrap_int_small by lia.
      destruct (IH (i + 1)) as (j & Hj & Hrun & Hup & Hdown); try lia.
      { right. replace (i + 1 - 1) with i by lia. exact Hlt. }
      exists j. repeat split; first [lia | done].
    + exists i. repeat split; first [lia | done].
Qed.

(** [getsize] on a capacity of at most [2^30]: its loop exits, with
    [number = 2^j] and [pow = j], and what it returns. *)
Lemma getsize_of_loop s :
  0 < s ≤ 2 ^ 30 →
  ∃ j, 1 ≤ j ≤ 30 ∧ s ≤ 2 ^ j ∧ (j = 1 ∨ 2 ^ (j - 1) < s) ∧
       getsize_loop 32 (wrap_int s) 2 1 = Some (2 ^ j, j) ∧
       getsize_of s = Some (near_prime (j + 1)).
Proof.
  intros Hs. unfold getsize_of. rewrite wrap_int_small by lia.
  destruct (getsize_loop_run 32 s 1) as (j & Hj & Hrun & Hup & Hdown);
    [lia | lia | lia | by left |].
  change (2 ^ 1) with 2 in Hrun. rewrite Hrun.
  exists j. split; [lia|]. split; [done|]. split; [done|]. split; [done|]. f_equal.
  pose (f := λ j, wrap_int (wrap_int (2 ^ j * 2) - delta_at (wrap_int (j + 1)))
                  =? near_prime (j + 1)).
  assert (Hf : f j = true).
  { apply (forallb_seqZ f 1 30); [vm_compute; reflexivity | lia]. }
  unfold f in Hf. lia.
Qed.

Lemma getsize_of_spec s :
  0 < s ≤ 2 ^ 30 →
  ∃ j, 1 ≤ j ≤ 30 ∧ s ≤ 2 ^ j ∧ (j = 1 ∨ 2 ^ (j - 1) < s) ∧
       getsize_of s = Some (near_prime (j + 1)).
Proof.
  intros Hs. destruct (getsize_of_loop s Hs) as (j & ? & ? & ? & _ & ?).
  by exists j.
Qed.

(** The doubling [number * 2] that follows the loop fits an [int] up to
    [number = 2^29]. *)
Lemma doubling_fits j : 0 ≤ j → 2 ^ j * 2 ≤ INT_MAX ↔ j ≤ 29.
Proof.
  intros Hj. unfold INT_MAX.
  replace (2 ^ j * 2) with (2 ^ (j + 1)) by (rewrite Z.pow_add_r by lia; lia).
  split.
  - intros H. assert (H' : 2 ^ (j + 1) < 2 ^ 31) by lia.
    apply Z.pow_lt_mono_r_iff in H'; lia.
  - intros H. assert (2 ^ (j + 1) ≤ 2 ^ 30) by (apply Z.pow_le_mono_r; lia). lia.
Qed.

Lemma getsize_of_grows s s' :
  0 < s ≤ 2 ^ 30 → getsize_of s = Some s' →
  s < s' < 2 ^ 31 ∧ (s ≤ 2 ^ 29 → s' < 2 ^ 30) ∧ (s' ≤ 2 ^ 30 ∨ s' = INT_MAX).
Proof.
  intros Hs Hget.
  destruct (getsize_of_spec s Hs) as (j & Hj & Hup & Hdown & Hget').
  rewrite Hget in Hget'. injection Hget' as ->.
  destruct (near_prime_range (j + 1)) as [Hlo Hhi]; [lia|].
  replace (j + 1 - 1) with j in Hlo by lia.
  assert (Hmono : 2 ^ (j + 1) ≤ 2 ^ 31) by (apply Z.pow_le_mono_r; lia).
  split; [lia|]. split.
  - intros Hs29. assert (Hj29 : j ≤ 29).
    { destruct Hdown as [->|Hdown]; [lia|].
      assert (H : 2 ^ (j - 1) < 2 ^ 29) by lia.
      apply Z.pow_lt_mono_r_iff in H; lia. }
    assert (2 ^ (j + 1) ≤ 2 ^ 30) by (apply Z.pow_le_mono_r; lia). lia.
  - destruct (decide (j = 30)) as [->|Hne].
    + right. vm_compute. reflexivity.
    + left. assert (2 ^ (j + 1) ≤ 2 ^ 30) by (apply Z.pow_le_mono_r; lia). lia.
Qed.

(** [getsize] on a capacity above [2^30]: the loop does not exit, whatever
    the number of rounds. *)
Lemma getsize_loop_diverges fuel s number pow :
  2 ^ 30 < s →
  number = 0 ∨ number = - 2 ^ 31 ∨ (∃ i, 0 ≤ i ≤ 30 ∧ number = 2 ^ i) →
  getsize_loop fuel s number pow = None.
Proof.
  intros Hs. revert number pow.
  induction fuel as [|fuel IH]; intros number pow Hnum; simpl.
  - destruct (Z.ltb_spec number s) as [Hlt|Hge]; [done|].
    destruct Hnum as [->|[->|(i & Hi & ->)]]; [lia|lia|].
    assert (2 ^ i ≤ 2 ^ 30) by (apply Z.pow_le_mono_r; lia). lia.
  - destruct (Z.ltb_spec number s) as [Hlt|Hge].
    + apply IH. destruct Hnum as [->|[->|(i & Hi & ->)]].
      * by left.
      * by left.
      * destruct (decide (i = 30)) as [->|Hne]; [right; by left|].
        right. right. exists (i + 1). split; [lia|].
        assert (2 ^ (i + 1) ≤ 2 ^ 30) by (apply Z.pow_le_mono_r; lia).
        assert (Hpow : 2 ^ i * 2 = 2 ^ (i + 1))
          by (rewrite Z.pow_add_r by lia; lia).
        rewrite Hpow. apply wrap_int_small. lia.
    + destruct Hnum as [->|[->|(i & Hi & ->)]]; [lia|lia|].
      assert (2 ^ i ≤ 2 ^ 30) by (apply Z.pow_le_mono_r; lia). lia.
Qed.

Lemma getsize_of_None s : 2 ^ 30 < s < 2 ^ 31 → getsize_of s = None.
Proof.
  intros Hs. unfold getsize_of. rewrite wrap_int_small by lia.
  rewrite getsize_loop_diverges; [done|lia|].
  right. right. exists 1. split; [lia|done].
Qed.

Section Facts.

Context {K V : Type}.
Variable EXISTS : Z.
Variable hash : K → Z → Z.
Variable cmp : K → K → Z.
Hypothesis Hok : hash_cmp_ok hash cmp.

Implicit Types (e : HTentry K V) (l chain : list (HTentry K V)).
Implicit Types (t : list (list (HTentry K V))) (ht : HashTab K V).

(** *** Chains *)

Lemma distinct_keys_perm l l' :
  l ≡ₚ l' → distinct_keys cmp l → distinct_keys cmp l'.
Proof.
  induction 1 as [|x l l' Hp IH|x y l|l l' l'' _ IH1 _ IH2]; simpl.
  - done.
  - intros [Hx Hl]. split; [|auto].
    intros e' He'. apply Hx. by rewrite Hp.
  - intros (Hy & Hx & Hl). repeat split; [| |done].
    + intros e' He'. apply elem_of_cons in He' as [->|He'].
      * intros H. apply (Hy x); [left|by apply (cmp_sym _ _ Hok)].
      * by apply Hx.
    + intros e' He'. apply Hy. by right.
  - auto.
Qed.

Lemma distinct_keys_unique l e e' :
  distinct_keys cmp l → e ∈ l → e' ∈ l → cmp (key e) (key e') = 0 → e = e'.
Proof.
  induction l as [|x l IH]; simpl; intros Hd He He' Hcmp.
  - by apply elem_of_nil in He.
  - destruct Hd as [Hx Hl].
    apply elem_of_cons in He as [->|He]; apply elem_of_cons in He' as [->|He'].
    + done.
    + by destruct (Hx e' He').
    + destruct (Hx e He). by apply (cmp_sym _ _ Hok).
    + by apply IH.
Qed.

Lemma chain_search_Some k chain v :
  chain_search cmp k chain = Some v →
  ∃ e, e ∈ chain ∧ cmp k (key e) = 0 ∧ value e = v.
Proof.
  induction chain as [|x chain IH]; simpl; [done|].
  destruct (Z.eqb_spec (cmp k (key x)) 0) as [Heq|Hne].
  - intros [= <-]. exists x. split; [left|done].
  - intros H. destruct (IH H) as (e & He & Hcmp & Hv).
    exists e. split; [by right|done].
Qed.

Lemma chain_search_None k chain :
  chain_search cmp k chain = None ↔ ∀ e, e ∈ chain → cmp k (key e) ≠ 0.
Proof.
  induction chain as [|x chain IH]; simpl.
  - split; [|done]. intros _ e He. by apply elem_of_nil in He.
  - destruct (Z.eqb_spec (cmp k (key x)) 0) as [Heq|Hne].
    + split; [done|]. intros H. destruct (H x); [left|done].
    + rewrite IH. split.
      * intros H e He. apply elem_of_cons in He as [->|He]; auto.
      * intros H e He. apply H. by right.
Qed.

Lemma chain_has_key_search k chain :
  chain_has_key cmp k chain = bool_decide (is_Some (chain_search cmp k chain)).
Proof.
  induction chain as [|x chain IH]; simpl; [done|].
  destruct (cmp k (key x) =? 0); [|done].
  symmetry. apply bool_decide_eq_true. eauto.
Qed.

(** *** Buckets *)

Lemma elem_of_concat {A} (x : A) (xss : list (list A)) :
  x ∈ concat xss ↔ ∃ xs, xs ∈ xss ∧ x ∈ xs.
Proof.
  rewrite list_elem_of_In, in_concat.
  by setoid_rewrite list_elem_of_In.
Qed.

Lemma bucket_lookup t (j : nat) chain :
  t !! j = Some chain → bucket t (Z.of_nat j) = chain.
Proof. intros H. unfold bucket. by rewrite Nat2Z.id, H. Qed.

Lemma bucket_elem_of t i e : e ∈ bucket t i → e ∈ concat t.
Proof.
  unfold bucket. destruct (t !! Z.to_nat i) as [chain|] eqn:Hi; simpl.
  - intros He. apply elem_of_concat. exists chain.
    split; [|done]. by eapply list_elem_of_lookup_2.
  - intros He. by apply elem_of_nil in He.
Qed.

Lemma concat_set_bucket t i x :
  0 ≤ i < Z.of_nat (length t) →
  concat (set_bucket t i (x :: bucket t i)) ≡ₚ x :: concat t.
Proof.
  intros Hi. unfold set_bucket, bucket.
  assert (Hlt : (Z.to_nat i < length t)%nat) by lia.
  destruct (lookup_lt_is_Some_2 t _ Hlt) as [chain Hchain].
  rewrite Hchain. simpl.
  rewrite <- (take_drop_middle t _ chain Hchain) at 2.
  rewrite insert_take_drop by done.
  rewrite !concat_app. simpl.
  symmetry. apply Permutation_middle.
Qed.

Lemma concat_nil_Forall {A} (xss : list (list A)) :
  Forall (λ xs, xs = []) xss → concat xss = [].
Proof. induction 1 as [|xs xss -> _ IH]; simpl; done. Qed.

Lemma hash_index ht k :
  ht_wf hash cmp ht →
  wrap_int (hash k (size ht)) = hash k (size ht) ∧
  0 ≤ hash k (size ht) < Z.of_nat (length (table ht)).
Proof.
  intros [Hsize Hlen _ _].
  pose proof (hash_range _ _ Hok k (size ht) ltac:(lia)) as Hr.
  split; [apply wrap_int_small|]; lia.
Qed.

Lemma concat_take_size ht :
  ht_wf hash cmp ht →
  concat (take (Z.to_nat (size ht)) (table ht)) = concat (table ht).
Proof.
  intros [Hsize Hlen Hplace _].
  rewrite <- (take_drop (Z.to_nat (size ht)) (table ht)) at 2.
  rewrite concat_app, (concat_nil_Forall (drop _ _)); [by rewrite app_nil_r|].
  apply Forall_lookup. intros j chain Hj. rewrite lookup_drop in Hj.
  destruct chain as [|e chain]; [done|].
  pose proof (Hplace _ _ e Hj ltac:(left)) as Hh.
  pose proof (hash_range _ _ Hok (key e) (size ht) ltac:(lia)). lia.
Qed.

Lemma entry_in_bucket ht e :
  ht_wf hash cmp ht → e ∈ ht_entries ht →
  e ∈ bucket (table ht) (hash (key e) (size ht)).
Proof.
  intros Hwf He. apply elem_of_concat in He as (chain & Hchain & He).
  apply list_elem_of_lookup in Hchain as [j Hj].
  rewrite (wf_place _ _ _ Hwf j chain e Hj He).
  by rewrite (bucket_lookup _ _ _ Hj).
Qed.

(** *** Search *)

Lemma search_found ht k e :
  ht_wf hash cmp ht → e ∈ ht_entries ht → cmp k (key e) = 0 →
  ht_search hash cmp (Some ht) (Some k) = Some (value e).
Proof.
  intros Hwf He Hcmp. simpl.
  destruct (hash_index ht k Hwf) as [-> _].
  rewrite (hash_cmp _ _ Hok k (key e) _ Hcmp).
  pose proof (entry_in_bucket ht e Hwf He) as Hb.
  destruct (chain_search cmp k _) as [v|] eqn:Hs.
  - apply chain_search_Some in Hs as (e' & He' & Hcmp' & <-).
    f_equal. f_equal. symmetry.
    apply (distinct_keys_unique (ht_entries ht)); [apply Hwf|done| |].
    + by eapply bucket_elem_of.
    + eapply (cmp_trans _ _ Hok); [|exact Hcmp'].
      by apply (cmp_sym _ _ Hok).
  - rewrite chain_search_None in Hs. by destruct (Hs e Hb).
Qed.

Lemma search_Some_inv ht k v :
  ht_search hash cmp (Some ht) (Some k) = Some v →
  ∃ e, e ∈ ht_entries ht ∧ cmp k (key e) = 0 ∧ value e = v.
Proof.
  simpl. intros Hs. apply chain_search_Some in Hs as (e & He & Hcmp & Hv).
  exists e. split; [by eapply bucket_elem_of|done].
Qed.

Lemma search_None_inv ht k :
  ht_wf hash cmp ht →
  ht_search hash cmp (Some ht) (Some k) = None →
  ∀ e, e ∈ ht_entries ht → cmp k (key e) ≠ 0.
Proof.
  intros Hwf Hs e He Hcmp.
  by rewrite (search_found ht k e Hwf He Hcmp) in Hs.
Qed.

Lemma search_absent ht k :
  (∀ e, e ∈ ht_entries ht → cmp k (key e) ≠ 0) →
  ht_search hash cmp (Some ht) (Some k) = None.
Proof.
  intros Hno. simpl. apply chain_search_None.
  intros e He. apply Hno. by eapply bucket_elem_of.
Qed.

(** Two well-formed tables with the same entries answer alike. *)
Lemma search_perm ht ht' k :
  ht_wf hash cmp ht → ht_wf hash cmp ht' →
  ht_entries ht' ≡ₚ ht_entries ht →
  ht_search hash cmp (Some ht') (Some k) = ht_search hash cmp (Some ht) (Some k).
Proof.
  intros Hwf Hwf' Hperm.
  destruct (ht_search hash cmp (Some ht) (Some k)) as [v|] eqn:Hs.
  - apply search_Some_inv in Hs as (e & He & Hcmp & <-).
    apply search_found; [done| |done]. by rewrite Hperm.
  - apply search_absent. intros e He.
    apply (search_None_inv ht k Hwf Hs). by rewrite <- Hperm.
Qed.

(** *** Growth *)

Lemma rehash_entry_spec s t e :
  0 < s < 2 ^ 32 → s ≤ Z.of_nat (length t) → placed hash s t →
  length (rehash_entry hash s t e) = length t ∧
  concat (rehash_entry hash s t e) ≡ₚ e :: concat t ∧
  placed hash s (rehash_entry hash s t e).
Proof.
  intros Hs Hlen Hplaced. unfold rehash_entry.
  rewrite wrap_uint_small by lia.
  pose proof (hash_range _ _ Hok (key e) s ltac:(lia)) as Hh.
  replace {| key := key e; value := value e |} with e by (by destruct e).
  split; [apply length_insert|]. split; [apply concat_set_bucket; lia|].
  intros j chain e' Hj He'. unfold set_bucket in Hj.
  destruct (decide (j = Z.to_nat (hash (key e) s))) as [->|Hne].
  - rewrite list_lookup_insert_eq in Hj by lia. injection Hj as <-.
    apply elem_of_cons in He' as [->|He']; [lia|].
    unfold bucket in He'.
    destruct (t !! Z.to_nat (hash (key e) s)) as [old|] eqn:Hold; simpl in He'.
    + exact (Hplaced _ _ _ Hold He').
    + by apply elem_of_nil in He'.
  - rewrite list_lookup_insert_ne in Hj by done.
    exact (Hplaced _ _ _ Hj He').
Qed.

Lemma rehash_chain_spec s chain t :
  0 < s < 2 ^ 32 → s ≤ Z.of_nat (length t) → placed hash s t →
  length (fold_left (rehash_entry hash s) chain t) = length t ∧
  concat (fold_left (rehash_entry hash s) chain t) ≡ₚ chain ++ concat t ∧
  placed hash s (fold_left (rehash_entry hash s) chain t).
Proof.
  intros Hs. revert t. induction chain as [|e chain IH]; intros t Hlen Hplaced.
  - done.
  - simpl.
    destruct (rehash_entry_spec s t e Hs Hlen Hplaced) as (Hl1 & Hp1 & Hpl1).
    destruct (IH (rehash_entry hash s t e)) as (Hl2 & Hp2 & Hpl2); [lia|done|].
    split; [lia|]. split; [|done].
    rewrite Hp2, Hp1. symmetry. apply Permutation_middle.
Qed.

Lemma rehash_chains_spec s chains t :
  0 < s < 2 ^ 32 → s ≤ Z.of_nat (length t) → placed hash s t →
  let t' := fold_left (λ t chain, fold_left (rehash_entry hash s) chain t)
                      chains t in
  length t' = length t ∧ concat t' ≡ₚ concat chains ++ concat t ∧
  placed hash s t'.
Proof.
  intros Hs. revert t. induction chains as [|chain chains IH]; intros t Hlen Hplaced.
  - done.
  - simpl.
    destruct (rehash_chain_spec s chain t Hs Hlen Hplaced) as (Hl1 & Hp1 & Hpl1).
    destruct (IH (fold_left (rehash_entry hash s) chain t))
      as (Hl2 & Hp2 & Hpl2); [lia|done|].
    split; [lia|]. split; [|done].
    rewrite Hp2, Hp1, <- !app_assoc.
    apply Permutation_app_swap_app.
Qed.

(** [rehash] on a well-formed table of capacity at most [2^30]: it returns
    a well-formed table with the capacity [getsize] gave, the same entries
    and the same count. *)
Lemma rehash_spec ht :
  ht_wf hash cmp ht → size ht ≤ 2 ^ 30 →
  ∃ ht', rehash hash ht = Some ht' ∧
         ht_wf hash cmp ht' ∧
         ht_entries ht' ≡ₚ ht_entries ht ∧
         num_entries ht' = num_entries ht ∧
         max_loadfactor ht' = max_loadfactor ht ∧
         getsize ht = Some (size ht') ∧
         size ht < size ht'.
Proof.
  intros Hwf Hsize. pose proof (wf_size _ _ _ Hwf) as Hpos.
  destruct (getsize_of_spec (size ht)) as (j & Hj & _ & _ & Hget); [lia|].
  destruct (getsize_of_grows (size ht) _ ltac:(lia) Hget) as (Hgrow & _ & _).
  set (s' := near_prime (j + 1)) in *.
  unfold rehash, getsize. rewrite Hget.
  eexists. split; [reflexivity|].
  destruct (rehash_chains_spec s' (take (Z.to_nat (size ht)) (table ht))
              (replicate (Z.to_nat s') [])) as (Hlen & Hperm & Hplaced).
  { lia. }
  { rewrite length_replicate. lia. }
  { intros i chain e Hi He. apply lookup_replicate in Hi as [-> _].
    by apply elem_of_nil in He. }
  rewrite concat_take_size in Hperm by done.
  rewrite (concat_nil_Forall (replicate _ _)), app_nil_r in Hperm
    by (apply Forall_replicate; done).
  rewrite length_replicate in Hlen.
  repeat split; simpl; rewrite ?wrap_uint_small by lia; try lia; try done.
  eapply distinct_keys_perm; [symmetry; exact Hperm|apply Hwf].
Qed.

(** *** Insertion *)

Lemma after_growth_defined ht :
  ht_wf hash cmp ht → size ht ≤ 2 ^ 30 → is_Some (after_growth hash ht).
Proof.
  intros Hwf Hsize. unfold after_growth.
  destruct (loadfactor_exceeded _ _ _); [|by eexists].
  destruct (rehash_spec ht Hwf Hsize) as (ht' & -> & _). by eexists.
Qed.

Lemma after_growth_spec ht ht1 :
  ht_wf hash cmp ht → after_growth hash ht = Some ht1 →
  ht_wf hash cmp ht1 ∧
  ht_entries ht1 ≡ₚ ht_entries ht ∧
  num_entries ht1 = num_entries ht ∧
  max_loadfactor ht1 = max_loadfactor ht ∧
  (ht1 = ht ∨
   loadfactor_exceeded (wrap_uint (num_entries ht + 1)) (size ht)
     (max_loadfactor ht) = true ∧
   getsize ht = Some (size ht1) ∧ size ht < size ht1).
Proof.
  intros Hwf. unfold after_growth.
  destruct (loadfactor_exceeded _ _ _) eqn:Hex.
  - destruct (decide (size ht ≤ 2 ^ 30)) as [Hsize|Hsize].
    + destruct (rehash_spec ht Hwf Hsize) as (ht' & -> & ? & ? & ? & ? & ? & ?).
      intros [= <-]. split_and!; try done. by right.
    + pose proof (wf_size _ _ _ Hwf). unfold rehash, getsize.
      by rewrite getsize_of_None by lia.
  - intros [= <-]. split_and!; try done. by left.
Qed.

Lemma ht_insert_unfold ht k v :
  ht_insert EXISTS hash cmp (Some ht) (Some k) (Some v) =
  match after_growth hash ht with
  | None => None
  | Some ht1 =>
      let hash_val := wrap_int (hash k (size ht1)) in
      if chain_has_key cmp k (bucket (table ht1) hash_val)
      then Some (EXISTS, Some ht1)
      else Some (EXIT_SUCCESS,
                 Some {| table := set_bucket (table ht1) hash_val
                                    ({| key := k; value := v |}
                                       :: bucket (table ht1) hash_val);
                         size := size ht1;
                         num_entries := wrap_uint (num_entries ht1 + 1);
                         max_loadfactor := max_loadfactor ht1;
                         idx := idx ht1 |})
  end.
Proof.
  unfold ht_insert, after_growth.
  destruct (loadfactor_exceeded _ _ _); [|done].
  by destruct (rehash hash ht).
Qed.

(** The two ways a call of [ht_insert] on a well-formed table ends. *)
Lemma ht_insert_cases ht ht1 k v :
  ht_wf hash cmp ht → after_growth hash ht = Some ht1 →
    ((∃ e, e ∈ ht_entries ht ∧ cmp k (key e) = 0 ∧
           ht_insert EXISTS hash cmp (Some ht) (Some k) (Some v)
           = Some (EXISTS, Some ht1))
     ∨
     ((∀ e, e ∈ ht_entries ht → cmp k (key e) ≠ 0) ∧
      ∃ ht2, ht_insert EXISTS hash cmp (Some ht) (Some k) (Some v)
             = Some (EXIT_SUCCESS, Some ht2) ∧
             ht_wf hash cmp ht2 ∧
             ht_entries ht2 ≡ₚ {| key := k; value := v |} :: ht_entries ht ∧
             num_entries ht2 = wrap_uint (num_entries ht + 1) ∧
             max_loadfactor ht2 = max_loadfactor ht ∧
             size ht2 = size ht1 ∧
             ∃ rest, bucket (table ht2) (hash k (size ht2))
                     = {| key := k; value := v |} :: rest)).
Proof.
  intros Hwf Hgrow.
  destruct (after_growth_spec ht ht1 Hwf Hgrow) as (Hwf1 & Hperm & Hnum & Hlf & _).
  rewrite ht_insert_unfold, Hgrow. cbv zeta.
  destruct (hash_index ht1 k Hwf1) as [-> Hidx].
  rewrite chain_has_key_search.
  destruct (chain_search cmp k _) as [v'|] eqn:Hs.
  - left. apply chain_search_Some in Hs as (e & He & Hcmp & _).
    exists e. rewrite <- Hperm. split; [by eapply bucket_elem_of|].
    split; [done|]. rewrite bool_decide_eq_true_2; eauto.
  - right.
    assert (Hfresh : ∀ e, e ∈ ht_entries ht1 → cmp k (key e) ≠ 0).
    { apply (search_None_inv ht1 k Hwf1). simpl.
      by destruct (hash_index ht1 k Hwf1) as [-> _]. }
    split; [intros e He; apply Hfresh; by rewrite Hperm|].
    rewrite bool_decide_eq_false_2 by (by intros [? ?]).
    eexists. split; [reflexivity|].
    pose proof (wf_size _ _ _ Hwf1) as Hpos.
    pose proof (wf_length _ _ _ Hwf1) as Hlen.
    assert (Hcat : concat (set_bucket (table ht1) (hash k (size ht1))
                     ({| key := k; value := v |}
                        :: bucket (table ht1) (hash k (size ht1))))
                   ≡ₚ {| key := k; value := v |} :: ht_entries ht1).
    { apply concat_set_bucket. lia. }
    split; [|split; [|split; [|split; [|split]]]]; simpl.
    + split; simpl.
      * done.
      * unfold set_bucket. rewrite length_insert. done.
      * intros j chain e Hj He. unfold set_bucket in Hj.
        destruct (decide (j = Z.to_nat (hash k (size ht1)))) as [->|Hne].
        -- rewrite list_lookup_insert_eq in Hj by lia. injection Hj as <-.
           apply elem_of_cons in He as [->|He]; [simpl; lia|].
           unfold bucket in He.
           destruct (table ht1 !! Z.to_nat (hash k (size ht1)))
             as [old|] eqn:Hold; simpl in He.
           ++ exact (wf_place _ _ _ Hwf1 _ _ _ Hold He).
           ++ by apply elem_of_nil in He.
        -- rewrite list_lookup_insert_ne in Hj by done.
           exact (wf_place _ _ _ Hwf1 _ _ _ Hj He).
      * unfold ht_entries. simpl.
        eapply distinct_keys_perm; [symmetry; exact Hcat|].
        simpl. split; [exact Hfresh|apply Hwf1].
    + unfold ht_entries at 1. simpl. by rewrite Hcat, Hperm.
    + by rewrite Hnum.
    + done.
    + done.
    + eexists. unfold set_bucket, bucket at 1.
      rewrite list_lookup_insert_eq by lia. reflexivity.
Qed.


Lemma ht_insert_exists_inv ht k v ht' :
  EXISTS ≠ EXIT_SUCCESS → ht_wf hash cmp ht →
  ht_insert EXISTS hash cmp (Some ht) (Some k) (Some v)
  = Some (EXISTS, Some ht') →
  after_growth hash ht = Some ht' ∧
  ∃ e, e ∈ ht_entries ht ∧ cmp k (key e) = 0.
Proof.
  intros Hne Hwf Hins.
  destruct (after_growth hash ht) as [ht1|] eqn:Hgrow;
    [|by rewrite ht_insert_unfold, Hgrow in Hins].
  destruct (ht_insert_cases ht ht1 k v Hwf Hgrow)
    as [(e & He & Hcmp & Heq)|(Hfresh & ht2 & Heq & H)].
  - rewrite Heq in Hins. injection Hins as <-. eauto.
  - rewrite Heq in Hins. congruence.
Qed.

Lemma ht_init_wf lf : ht_wf hash cmp (ht_init (K := K) (V := V) lf).
Proof.
  split; simpl; [lia|lia| |done].
  intros j chain e Hj He. apply lookup_replicate in Hj as [-> _].
  by apply elem_of_nil in He.
Qed.

Lemma ht_insert_wf ht k v rc ht' :
  ht_wf hash cmp ht →
  ht_insert EXISTS hash cmp (Some ht) (Some k) (Some v) = Some (rc, Some ht') →
  ht_wf hash cmp ht'.
Proof.
  intros Hwf Hins.
  destruct (after_growth hash ht) as [ht1|] eqn:Hgrow;
    [|by rewrite ht_insert_unfold, Hgrow in Hins].
  destruct (ht_insert_cases ht ht1 k v Hwf Hgrow)
    as [(e & He & Hcmp & Heq)|(Hfresh & ht2 & Heq & H)];
    rewrite Heq in Hins; injection Hins as <- <-.
  - by apply (after_growth_spec ht ht1).
  - apply H.
Qed.

Lemma ht_insert_Some_table ht k v rc oht :
  ht_insert EXISTS hash cmp (Some ht) (Some k) (Some v) = Some (rc, oht) →
  is_Some oht.
Proof.
  rewrite ht_insert_unfold. destruct (after_growth hash ht); [|done].
  cbv zeta. destruct (chain_has_key _ _ _); intros [= <- <-]; by eexists.
Qed.

Lemma ht_insert_all_wf kvs ht ht' :
  ht_wf hash cmp ht → ht_insert_all EXISTS hash cmp kvs ht = Some ht' →
  ht_wf hash cmp ht'.
Proof.
  revert ht. induction kvs as [|[k v] kvs IH]; cbn [ht_insert_all];
    intros ht Hwf Hall.
  - by injection Hall as <-.
  - destruct (ht_insert EXISTS hash cmp (Some ht) (Some k) (Some v))
      as [[rc [ht1|]]|] eqn:Hins; try done.
    eapply IH; [|done]. by eapply ht_insert_wf.
Qed.

(** [ht_insert] with a key that is present, on a table that can grow. *)
Lemma ht_insert_present ht k v e :
  ht_wf hash cmp ht → size ht ≤ 2 ^ 30 →
  e ∈ ht_entries ht → cmp k (key e) = 0 →
  ∃ ht1, after_growth hash ht = Some ht1 ∧
         ht_insert EXISTS hash cmp (Some ht) (Some k) (Some v)
         = Some (EXISTS, Some ht1).
Proof.
  intros Hwf Hsize He Hcmp.
  destruct (after_growth_defined ht Hwf Hsize) as [ht1 Hgrow].
  exists ht1. split; [done|].
  by destruct (ht_insert_cases ht ht1 k v Hwf Hgrow)
    as [(e' & _ & _ & Heq)|(Hfresh & _)]; [|destruct (Hfresh e He)].
Qed.

(** *** The capacities of a table *)

Lemma ht_insert_capacity ht k v rc ht' :
  capacity_reached (size ht) →
  ht_insert EXISTS hash cmp (Some ht) (Some k) (Some v) = Some (rc, Some ht') →
  capacity_reached (size ht').
Proof.
  intros Hcap. rewrite ht_insert_unfold.
  assert (Hgrow : ∀ ht1, after_growth hash ht = Some ht1 →
                         capacity_reached (size ht1)).
  { intros ht1. unfold after_growth, rehash, getsize.
    destruct (loadfactor_exceeded _ _ _); [|by intros [= <-]].
    destruct (getsize_of (size ht)) as [s'|] eqn:Hget; [|done].
    intros [= <-]. simpl.
    destruct (HashTableCapacity.capacity_reached_near_prime _ Hcap)
      as (j & Hj & Heq).
    assert (Hs' : s' = near_prime (j + 1) ∧ j ≤ 30).
    { rewrite Heq in Hget. destruct (decide (j = 31)) as [->|].
      - by rewrite HashTableCapacity.getsize_of_last in Hget.
      - rewrite HashTableCapacity.getsize_of_near_prime in Hget by lia.
        split; [congruence|lia]. }
    destruct Hs' as [Hs' Hj'].
    destruct (near_prime_range (j + 1)) as [? ?]; [lia|].
    assert (2 ^ (j + 1) ≤ 2 ^ 31) by (apply Z.pow_le_mono_r; lia).
    assert (0 < 2 ^ (j + 1 - 1)) by (apply Z.pow_pos_nonneg; lia).
    rewrite wrap_uint_small by lia.
    by eapply capacity_grown. }
  destruct (after_growth hash ht) as [ht1|]; [|done]. cbv zeta.
  destruct (chain_has_key _ _ _); intros [= _ <-]; simpl; by apply Hgrow.
Qed.

Lemma ht_insert_all_capacity kvs ht ht' :
  capacity_reached (size ht) →
  ht_insert_all EXISTS hash cmp kvs ht = Some ht' →
  capacity_reached (size ht').
Proof.
  revert ht. induction kvs as [|[k v] kvs IH]; cbn [ht_insert_all];
    intros ht Hcap Hall.
  - by injection Hall as <-.
  - destruct (ht_insert EXISTS hash cmp (Some ht) (Some k) (Some v))
      as [[rc [ht1|]]|] eqn:Hins; try done.
    eapply IH; [|done]. by eapply ht_insert_capacity.
Qed.

(** C7 (amended): the capacity of a table, after any calls of [ht_insert]
    on a new table, is [2^k - delta[k]] for some [k] from 4 to 31, is odd
    and is not a power of two.  Up to [k = 30], [getsize] returns on it: its
    loop exits with [number = 2^k] and [pow = k], and it returns
    [2^(k+1) - delta[k+1]], the least value of the form [2^j - delta[j]]
    above the capacity.  The doubling [number * 2] fits an [int] up to
    [k = 29]; at [k = 30] it gives [2^31], and the last capacity,
    [2^31 - 1], is the one [int] arithmetic that wraps around makes of it.
    On the last capacity, [k = 31], the loop of [getsize] does not exit,
    however many rounds it is given. *)
Theorem getsize_next_capacity lf kvs ht :
  ht_insert_all EXISTS hash cmp kvs (ht_init lf) = Some ht →
  Z.odd (size ht) = true ∧ (∀ m, 0 ≤ m → size ht ≠ 2 ^ m) ∧
  ∃ k, 4 ≤ k ≤ 31 ∧ size ht = near_prime k ∧
       (k ≤ 30 →
        getsize_loop 32 (wrap_int (size ht)) 2 1 = Some (2 ^ k, k) ∧
        getsize ht = Some (near_prime (k + 1)) ∧
        least_of_form_above near_prime (size ht) (near_prime (k + 1))) ∧
       (2 ^ k * 2 ≤ INT_MAX ↔ k ≤ 29) ∧
       (k = 31 →
        (∀ fuel, getsize_loop fuel (wrap_int (size ht)) 2 1 = None) ∧
        getsize ht = None).
Proof.
  intros Hall.
  destruct (HashTableCapacity.capacity_reached_next (size ht))
    as (Hodd & Hpow & k & Hk & Hsize & Hnext).
  { eapply ht_insert_all_capacity; [|exact Hall]. apply capacity_initial. }
  split; [done|]. split; [done|].
  exists k. split; [done|]. split; [done|]. split; [done|].
  split; [apply doubling_fits; lia|].
  intros ->.
  assert (Hlast : 2 ^ 30 < size ht < 2 ^ 31) by (by rewrite Hsize).
  split; [|by apply getsize_of_None].
  intros fuel. rewrite wrap_int_small by lia.
  apply getsize_loop_diverges; [lia|].
  right. right. exists 1. split; [lia|done].
Qed.

(** *** The claims on [ht_insert], [rehash] and [ht_search] *)

(** C6: [ht_insert] with a key equal, under the compare function, to the key
    of a stored entry returns [HASH_TABLE_KEY_VALUE_PAIR_EXISTS], which is
    neither [EXIT_SUCCESS] nor the [EXIT_FAILURE] returned for a null
    table, key or value; the stored entries are the same, the new value is
    not among them, and [ht_search] for the key returns the value of the
    stored entry. *)
Theorem ht_insert_existing_key ht k v e :
  EXISTS ≠ EXIT_SUCCESS → EXISTS ≠ EXIT_FAILURE →
  ht_wf hash cmp ht → size ht ≤ 2 ^ 30 →
  e ∈ ht_entries ht → cmp k (key e) = 0 →
  ∃ rc ht',
    ht_insert EXISTS hash cmp (Some ht) (Some k) (Some v) = Some (rc, Some ht') ∧
    rc = EXISTS ∧ rc ≠ EXIT_SUCCESS ∧ rc ≠ EXIT_FAILURE ∧
    ht_insert EXISTS hash cmp None (Some k) (Some v) = Some (EXIT_FAILURE, None) ∧
    ht_insert EXISTS hash cmp (Some ht) None (Some v)
    = Some (EXIT_FAILURE, Some ht) ∧
    ht_insert EXISTS hash cmp (Some ht) (Some k) None
    = Some (EXIT_FAILURE, Some ht) ∧
    ht_entries ht' ≡ₚ ht_entries ht ∧
    ht_search hash cmp (Some ht') (Some k) = Some (value e).
Proof.
  intros Hne1 Hne2 Hwf Hsize He Hcmp.
  destruct (after_growth_defined ht Hwf Hsize) as [ht1 Hgrow].
  destruct (after_growth_spec ht ht1 Hwf Hgrow) as (Hwf1 & Hperm & _).
  destruct (ht_insert_cases ht ht1 k v Hwf Hgrow)
    as [(e' & _ & _ & Heq)|(Hfresh & _)]; [|by destruct (Hfresh e He)].
  exists EXISTS, ht1. split_and!; try done.
  apply search_found; [done| |done]. by rewrite Hperm.
Qed.

(** C10: a call of [ht_insert] with a key already present leaves
    [num_entries] and the stored entries as they were; the capacity is
    left as it was when the test of the load factor does not fire, and is
    the larger one given by [getsize] when it fires, the key being
    looked for only after that. *)
Theorem ht_insert_duplicate_frame ht k v e :
  ht_wf hash cmp ht → size ht ≤ 2 ^ 30 →
  e ∈ ht_entries ht → cmp k (key e) = 0 →
  ∃ ht',
    ht_insert EXISTS hash cmp (Some ht) (Some k) (Some v)
    = Some (EXISTS, Some ht') ∧
    num_entries ht' = num_entries ht ∧
    ht_entries ht' ≡ₚ ht_entries ht ∧
    if loadfactor_exceeded (wrap_uint (num_entries ht + 1)) (size ht)
                           (max_loadfactor ht)
    then getsize ht = Some (size ht') ∧ size ht < size ht'
    else ht' = ht.
Proof.
  intros Hwf Hsize He Hcmp.
  destruct (after_growth_defined ht Hwf Hsize) as [ht1 Hgrow].
  destruct (after_growth_spec ht ht1 Hwf Hgrow)
    as (Hwf1 & Hperm & Hnum & _ & Hcap).
  destruct (ht_insert_cases ht ht1 k v Hwf Hgrow)
    as [(e' & _ & _ & Heq)|(Hfresh & _)]; [|by destruct (Hfresh e He)].
  exists ht1. split_and!; try done.
  unfold after_growth in Hgrow.
  destruct (loadfactor_exceeded _ _ _) eqn:Hex.
  - destruct Hcap as [->|(_ & ? & ?)]; [|done].
    destruct (rehash_spec ht Hwf Hsize) as (ht' & Hre & _ & _ & _ & _ & ? & ?).
    rewrite Hre in Hgrow. by injection Hgrow as <-.
  - by injection Hgrow as <-.
Qed.

(** *** Sequences of insertions *)

Lemma after_growth_capped ht :
  ht_wf hash cmp ht → size ht ≤ 2 ^ 30 ∨ size ht = INT_MAX →
  loadfactor_exceeded (wrap_uint (num_entries ht + 1)) INT_MAX
                      (max_loadfactor ht) = false →
  ∃ ht1, after_growth hash ht = Some ht1 ∧
         (size ht1 ≤ 2 ^ 30 ∨ size ht1 = INT_MAX).
Proof.
  intros Hwf [Hsize|Hsize] Hcap.
  - destruct (after_growth_defined ht Hwf Hsize) as [ht1 Hgrow].
    exists ht1. split; [done|].
    destruct (after_growth_spec ht ht1 Hwf Hgrow)
      as (_ & _ & _ & _ & [->|(_ & Hget & _)]); [by left|].
    pose proof (wf_size _ _ _ Hwf).
    by destruct (getsize_of_grows (size ht) _ ltac:(lia) Hget) as (_ & _ & ?).
  - exists ht. unfold after_growth. rewrite Hsize, Hcap. split; [done|by right].
Qed.

Lemma ht_insert_all_spec kvs ht :
  ht_wf hash cmp ht → size ht ≤ 2 ^ 30 ∨ size ht = INT_MAX →
  distinct_pairs cmp kvs →
  (∀ k v e, (k, v) ∈ kvs → e ∈ ht_entries ht → cmp k (key e) ≠ 0) →
  0 ≤ num_entries ht → num_entries ht + Z.of_nat (length kvs) < 2 ^ 32 →
  (∀ a, num_entries ht < a ≤ num_entries ht + Z.of_nat (length kvs) →
        loadfactor_exceeded a INT_MAX (max_loadfactor ht) = false) →
  ∃ ht', ht_insert_all EXISTS hash cmp kvs ht = Some ht' ∧
         ht_wf hash cmp ht' ∧
         (size ht' ≤ 2 ^ 30 ∨ size ht' = INT_MAX) ∧
         num_entries ht' = num_entries ht + Z.of_nat (length kvs) ∧
         max_loadfactor ht' = max_loadfactor ht ∧
         ht_entries ht' ≡ₚ (entry_of <$> kvs) ++ ht_entries ht.
Proof.
  revert ht. induction kvs as [|[k v] kvs IH];
    intros ht Hwf Hsize Hd Hfresh Hn0 Hn Hcap.
  - exists ht. simpl. split_and!; try done. lia.
  - cbn [ht_insert_all]. destruct Hd as [Hk Hd].
    rewrite length_cons, Nat2Z.inj_succ in Hn, Hcap.
    assert (Hw : wrap_uint (num_entries ht + 1) = num_entries ht + 1)
      by (apply wrap_uint_small; lia).
    destruct (after_growth_capped ht Hwf Hsize) as (ht1 & Hgrow & Hsize1).
    { rewrite Hw. apply Hcap. lia. }
    destruct (ht_insert_cases ht ht1 k v Hwf Hgrow)
      as [(e & He & Hcmp & _)|(_ & ht2 & -> & Hwf2 & Hperm2 & Hnum2 & Hlf2 & Hsz2 & _)].
    { destruct (Hfresh k v e); [left|done|done]. }
    destruct (IH ht2) as (ht' & Hall & Hwf' & Hsize' & Hnum' & Hlf' & Hperm');
      try done.
    + by rewrite Hsz2.
    + intros k' v' e' Hk' He'. rewrite Hperm2 in He'.
      apply elem_of_cons in He' as [->|He'].
      * simpl. intros Hc. apply (Hk k' v' Hk'). by apply (cmp_sym _ _ Hok).
      * apply (Hfresh k' v' e'); [by right|done].
    + rewrite Hnum2, Hw. lia.
    + rewrite Hnum2, Hw. lia.
    + intros a Ha. rewrite Hlf2. apply Hcap. rewrite Hnum2, Hw in Ha. lia.
    + exists ht'. split_and!; try done.
      * rewrite Hnum', Hnum2, Hw, length_cons. lia.
      * congruence.
      * rewrite Hperm', Hperm2. rewrite fmap_cons. simpl.
        symmetry. apply Permutation_middle.
Qed.

(** C5: [rehash] leaves the number of entries and the entries as they
    were, with a larger capacity, and [ht_search] answers as before for
    every key; and after the insertion of pairs with distinct keys into a
    new table, however many growths that took, [num_entries] is their
    number and [ht_search] returns for each key its value.  The pairs are
    few enough for the count to fit and for the table not to have to grow
    beyond the last capacity, [INT_MAX]. *)
Theorem growth_preserves_entries lf kvs :
  distinct_pairs cmp kvs →
  Z.of_nat (length kvs) < 2 ^ 32 →
  (∀ a, 0 < a ≤ Z.of_nat (length kvs) →
        loadfactor_exceeded a INT_MAX lf = false) →
  (∀ ht, ht_wf hash cmp ht → size ht ≤ 2 ^ 30 →
     ∃ ht', rehash hash ht = Some ht' ∧
            num_entries ht' = num_entries ht ∧
            ht_entries ht' ≡ₚ ht_entries ht ∧
            size ht < size ht' ∧
            ∀ k, ht_search hash cmp (Some ht') (Some k)
                 = ht_search hash cmp (Some ht) (Some k)) ∧
  ∃ ht', ht_insert_all EXISTS hash cmp kvs (ht_init lf) = Some ht' ∧
         num_entries ht' = Z.of_nat (length kvs) ∧
         ∀ k v, (k, v) ∈ kvs →
                ht_search hash cmp (Some ht') (Some k) = Some v.
Proof.
  intros Hd Hlen Hcap. split.
  - intros ht Hwf Hsize.
    destruct (rehash_spec ht Hwf Hsize) as (ht' & Hre & Hwf' & Hperm & Hnum & _ & _ & Hlt).
    exists ht'. split_and!; try done.
    intros k. by apply search_perm.
  - destruct (ht_insert_all_spec kvs (ht_init lf))
      as (ht' & Hall & Hwf' & _ & Hnum & _ & Hperm); try done.
    + apply ht_init_wf.
    + left. simpl. lia.
    + intros k v e _ He. by apply elem_of_nil in He.
    + exists ht'. split; [done|]. split; [simpl in Hnum; lia|].
      intros k v Hkv.
      apply (search_found ht' k (entry_of (k, v))); [done| |apply Hok].
      rewrite Hperm. apply elem_of_app. left.
      apply list_elem_of_fmap. by exists (k, v).
Qed.

(** *** The load factor along a run of insertions *)





(** *** Further properties of the table *)

(** [ht_insert] of a key that is not in the table, on a table that can
    grow: the new table, and what [ht_search] finds in it. *)
Lemma ht_insert_absent ht ht1 k v :
  ht_wf hash cmp ht → after_growth hash ht = Some ht1 →
  (∀ e, e ∈ ht_entries ht → cmp k (key e) ≠ 0) →
  ∃ ht', ht_insert EXISTS hash cmp (Some ht) (Some k) (Some v)
         = Some (EXIT_SUCCESS, Some ht') ∧
         ht_wf hash cmp ht' ∧
         ht_entries ht' ≡ₚ {| key := k; value := v |} :: ht_entries ht ∧
         num_entries ht' = wrap_uint (num_entries ht + 1) ∧
         max_loadfactor ht' = max_loadfactor ht ∧
         size ht' = size ht1 ∧
         ht_search hash cmp (Some ht') (Some k) = Some v ∧
         ∀ k', cmp k' k ≠ 0 →
               ht_search hash cmp (Some ht') (Some k')
               = ht_search hash cmp (Some ht) (Some k').
Proof.
  intros Hwf Hgrow Hno.
  destruct (ht_insert_cases ht ht1 k v Hwf Hgrow)
    as [(e & He & Hcmp & _)
       |(_ & ht2 & Hins & Hwf2 & Hperm2 & Hnum2 & Hlf2 & Hsz2 & _)].
  { by destruct (Hno e He). }
  exists ht2. split_and!; try done.
  - apply (search_found ht2 k {| key := k; value := v |}); [done| |apply Hok].
    rewrite Hperm2. left.
  - intros k' Hk'.
    destruct (ht_search hash cmp (Some ht) (Some k')) as [v'|] eqn:Hs.
    + apply search_Some_inv in Hs as (e & He & Hcmp & <-).
      apply search_found; [done| |done]. rewrite Hperm2. by right.
    + apply search_absent. intros e He. rewrite Hperm2 in He.
      apply elem_of_cons in He as [->|He]; [done|].
      by apply (search_None_inv ht k' Hwf Hs).
Qed.

(** X1: on a well-formed table [ht_search] returns a value exactly when an
    entry with a key equal to the one looked for is stored, and the value
    is that of the entry; it returns [NULL] exactly when no stored key is
    equal to it, and for a null table or a null key. *)
Theorem ht_search_stored ht k v :
  ht_wf hash cmp ht →
  (ht_search hash cmp (Some ht) (Some k) = Some v ↔
   ∃ e, e ∈ ht_entries ht ∧ cmp k (key e) = 0 ∧ value e = v) ∧
  (ht_search hash cmp (Some ht) (Some k) = None ↔
   ∀ e, e ∈ ht_entries ht → cmp k (key e) ≠ 0) ∧
  ht_search (V := V) hash cmp None (Some k) = None ∧
  ht_search hash cmp (Some ht) None = None.
Proof.
  intros Hwf. split_and!; try done.
  - split; [apply search_Some_inv|].
    intros (e & He & Hcmp & <-). by apply search_found.
  - split; [by apply search_None_inv|apply search_absent].
Qed.

(** X2: [ht_insert] of a key that [ht_search] does not find, on a
    well-formed table of capacity at most [2^30], returns [EXIT_SUCCESS]
    and counts one entry more; [ht_search] then returns the new value for
    the key and what it returned before for every key not equal to it. *)
Theorem ht_insert_then_search ht k v :
  ht_wf hash cmp ht → size ht ≤ 2 ^ 30 →
  ht_search hash cmp (Some ht) (Some k) = None →
  ∃ ht', ht_insert EXISTS hash cmp (Some ht) (Some k) (Some v)
         = Some (EXIT_SUCCESS, Some ht') ∧
         ht_wf hash cmp ht' ∧
         num_entries ht' = wrap_uint (num_entries ht + 1) ∧
         ht_search hash cmp (Some ht') (Some k) = Some v ∧
         ∀ k', cmp k' k ≠ 0 →
               ht_search hash cmp (Some ht') (Some k')
               = ht_search hash cmp (Some ht) (Some k').
Proof.
  intros Hwf Hsize Hs.
  destruct (after_growth_defined ht Hwf Hsize) as [ht1 Hgrow].
  destruct (ht_insert_absent ht ht1 k v Hwf Hgrow)
    as (ht' & Hins & Hwf' & _ & Hnum & _ & _ & Hk & Hother).
  { by apply search_None_inv. }
  by exists ht'.
Qed.

(** A run of [ht_insert] calls with any keys, equal ones among them. *)
Lemma ht_insert_all_first kvs ht :
  ht_wf hash cmp ht → size ht ≤ 2 ^ 30 ∨ size ht = INT_MAX →
  num_entries ht = Z.of_nat (length (ht_entries ht)) →
  num_entries ht + Z.of_nat (length kvs) < 2 ^ 32 →
  (∀ a, num_entries ht < a ≤ num_entries ht + Z.of_nat (length kvs) →
        loadfactor_exceeded a INT_MAX (max_loadfactor ht) = false) →
  ∃ ht', ht_insert_all EXISTS hash cmp kvs ht = Some ht' ∧
         ht_wf hash cmp ht' ∧
         num_entries ht' = Z.of_nat (length (ht_entries ht')) ∧
         num_entries ht' ≤ num_entries ht + Z.of_nat (length kvs) ∧
         ∀ k, ht_search hash cmp (Some ht') (Some k)
              = match ht_search hash cmp (Some ht) (Some k) with
                | Some v => Some v
                | None => first_with_key cmp k kvs
                end.
Proof.
  revert ht. induction kvs as [|[k v] kvs IH]; intros ht Hwf Hsize Hnum Hn Hcap.
  - exists ht. simpl. split_and!; try done; [lia|].
    intros k. by destruct (chain_search _ _ _).
  - cbn [ht_insert_all].
    rewrite length_cons, Nat2Z.inj_succ in Hn, Hcap.
    assert (Hw : wrap_uint (num_entries ht + 1) = num_entries ht + 1)
      by (apply wrap_uint_small; lia).
    destruct (after_growth_capped ht Hwf Hsize) as (ht1 & Hgrow & Hsize1).
    { rewrite Hw. apply Hcap. lia. }
    destruct (after_growth_spec ht ht1 Hwf Hgrow)
      as (Hwf1 & Hperm1 & Hnum1 & Hlf1 & _).
    destruct (ht_insert_cases ht ht1 k v Hwf Hgrow)
      as [(e & He & Hcmp & ->)|(Hno & _)].
    + destruct (IH ht1) as (ht' & Hall & Hwf' & Hnum' & Hle' & Hsearch');
        try done.
      * by rewrite Hnum1, Hperm1.
      * lia.
      * intros a Ha. rewrite Hlf1. apply Hcap. lia.
      * exists ht'. rewrite length_cons, Nat2Z.inj_succ.
        split_and!; try done; [lia|].
        intros q. rewrite Hsearch', (search_perm ht ht1 q Hwf Hwf1 Hperm1).
        destruct (ht_search hash cmp (Some ht) (Some q)) eqn:Hs; [done|].
        cbn [first_with_key].
        destruct (Z.eqb_spec (cmp q k) 0) as [Hqk|Hqk]; [|done].
        destruct (search_None_inv ht q Hwf Hs e He).
        by apply (cmp_trans _ _ Hok q k (key e)).
    + destruct (ht_insert_absent ht ht1 k v Hwf Hgrow Hno)
        as (ht2 & -> & Hwf2 & Hperm2 & Hnum2 & Hlf2 & Hsz2 & Hk & Hother).
      destruct (IH ht2) as (ht' & Hall & Hwf' & Hnum' & Hle' & Hsearch');
        try done.
      * by rewrite Hsz2.
      * rewrite Hnum2, Hw, Hperm2, length_cons. lia.
      * rewrite Hnum2, Hw. lia.
      * intros a Ha. rewrite Hlf2. apply Hcap. rewrite Hnum2, Hw in Ha. lia.
      * exists ht'. rewrite length_cons, Nat2Z.inj_succ.
        split_and!; try done; [rewrite Hnum2, Hw in Hle'; lia|].
        intros q. rewrite Hsearch'. cbn [first_with_key].
        destruct (Z.eqb_spec (cmp q k) 0) as [Hqk|Hqk].
        -- assert (Hq : ht_search hash cmp (Some ht2) (Some q) = Some v).
           { apply (search_found ht2 q {| key := k; value := v |}); [done| |done].
             rewrite Hperm2. left. }
           rewrite Hq.
           rewrite (search_absent ht q); [done|].
           intros e He Hc. apply (Hno e He).
           apply (cmp_trans _ _ Hok k q (key e)); [|done].
           by apply (cmp_sym _ _ Hok).
        -- by rewrite (Hother q Hqk).
Qed.

(** X3: calls of [ht_insert] on a new table, with any keys and values: the
    table that results is well formed, [num_entries] is the number of the
    stored entries, and [ht_search] returns for every key the value of the
    first pair inserted with a key equal to it, [NULL] when there is none.
    The pairs are few enough for the count to fit and for the table not to
    have to grow beyond the last capacity, [INT_MAX]. *)
Theorem ht_insert_first_wins lf kvs :
  Z.of_nat (length kvs) < 2 ^ 32 →
  (∀ a, 0 < a ≤ Z.of_nat (length kvs) →
        loadfactor_exceeded a INT_MAX lf = false) →
  ∃ ht, ht_insert_all EXISTS hash cmp kvs (ht_init lf) = Some ht ∧
        ht_wf hash cmp ht ∧
        num_entries ht = Z.of_nat (length (ht_entries ht)) ∧
        ∀ k, ht_search hash cmp (Some ht) (Some k) = first_with_key cmp k kvs.
Proof.
  intros Hlen Hcap.
  destruct (ht_insert_all_first kvs (ht_init lf))
    as (ht & Hall & Hwf & Hnum & _ & Hsearch); try done.
  - apply ht_init_wf.
  - left. simpl. lia.
  - exists ht. split_and!; try done.
    intros k. rewrite Hsearch, (search_absent (ht_init lf) k); [done|].
    intros e He. by apply elem_of_nil in He.
Qed.


(** X5: on a capacity above [2^30], with [int] arithmetic that wraps
    around, the loop of [getsize] does not exit, however many rounds it is
    given: [number] goes from [2^30] to [-2^31] and then stays 0. *)
Theorem getsize_loop_never_exits ht fuel :
  2 ^ 30 < size ht < 2 ^ 31 →
  getsize_loop fuel (wrap_int (size ht)) 2 1 = None ∧ getsize ht = None.
Proof.
  intros Hs. split.
  - rewrite wrap_int_small by lia.
    apply getsize_loop_diverges; [lia|].
    right. right. exists 1. split; [lia|done].
  - by apply getsize_of_None.
Qed.

(** The destructors reach the entries of every chain in turn. *)
Lemma fold_left_chains {A B} (f : A → B → A) (xss : list (list B)) (a : A) :
  fold_left (λ acc xs, fold_left f xs acc) xss a = fold_left f (concat xss) a.
Proof.
  revert a. induction xss as [|xs xss IH]; intros a; simpl; [done|].
  by rewrite IH, fold_left_app.
Qed.

(** X6: [ht_free] on a well-formed table calls [freekey] on the key and
    then [freeval] on the value of every stored entry, once each, bucket by
    bucket, and returns [EXIT_SUCCESS]; with a null table or a null
    destructor it returns [EXIT_FAILURE] and calls nothing. *)
Theorem ht_free_every_entry {S : Type} ht (freekey : K → S → S)
    (freeval : V → S → S) (s : S) :
  ht_wf hash cmp ht →
  ht_free (Some ht) (Some (λ k s, Some (freekey k s)))
          (Some (λ v s, Some (freeval v s))) s
  = Some (EXIT_SUCCESS,
          fold_left (λ s e, freeval (value e) (freekey (key e) s))
                    (ht_entries ht) s) ∧
  (∀ fk fv, ht_free (K := K) (V := V) None fk fv s = Some (EXIT_FAILURE, s)) ∧
  (∀ fv, ht_free (Some ht) None fv s = Some (EXIT_FAILURE, s)) ∧
  (∀ fk, ht_free (Some ht) fk None s = Some (EXIT_FAILURE, s)).
Proof.
  intros Hwf. split_and!; try done.
  - unfold ht_free. rewrite fold_left_chains, (concat_take_size ht Hwf).
    change (concat (table ht)) with (ht_entries ht).
    generalize (ht_entries ht). intros l. revert s.
    induction l as [|e l IH]; intros s; [done|]. simpl. apply IH.
  - intros fk. by destruct fk.
Qed.

End Facts.

(** *** The claims at concrete tables *)

Lemma mod_hash_ok : hash_cmp_ok mod_hash diff_cmp.
Proof.
  split; unfold mod_hash, diff_cmp.
  - intros k s Hs. apply Z.mod_pos_bound. lia.
  - intros. lia.
  - intros. lia.
  - intros. lia.
  - intros a b s Hab. f_equal. lia.
Qed.

Lemma pairs_upto_distinct n : distinct_pairs diff_cmp (pairs_upto n).
Proof.
  unfold pairs_upto. generalize 1.
  induction (Z.to_nat n) as [|m IH] eqn:Hm in n |- *; intros lo.
  - unfold seqZ. rewrite Hm. done.
  - replace n with (Z.succ (Z.of_nat m)) by lia.
    rewrite seqZ_cons by lia. rewrite Z.pred_succ. simpl. split.
    + intros k' v' Hin. apply list_elem_of_fmap in Hin as (i & [= -> ->] & Hi).
      apply elem_of_seqZ in Hi. unfold diff_cmp. lia.
    + apply IH. lia.
Qed.

Lemma table_upto_built n :
  0 ≤ n ≤ 30 →
  ht_insert_all (-1) mod_hash diff_cmp (pairs_upto n) (ht_init float_0_75)
  = Some (table_upto n).
Proof.
  intros Hn.
  pose (f := λ n, match ht_insert_all (-1) mod_hash diff_cmp (pairs_upto n)
                          (ht_init float_0_75) with
                  | Some _ => true
                  | None => false
                  end).
  assert (Hf : f n = true).
  { apply (forallb_seqZ f 0 31); [vm_compute; reflexivity | lia]. }
  unfold f, table_upto in *.
  by destruct (ht_insert_all _ _ _ _ _).
Qed.

Lemma table_upto_wf n : 0 ≤ n ≤ 30 → ht_wf mod_hash diff_cmp (table_upto n).
Proof.
  intros Hn.
  eapply (ht_insert_all_wf (-1) mod_hash diff_cmp mod_hash_ok);
    [apply (ht_init_wf mod_hash diff_cmp)|by apply table_upto_built].
Qed.

Lemma getsize_next_capacity_witness :
  size (table_upto 30) = 61 ∧
  Z.odd (size (table_upto 30)) = true ∧
  (∀ m, 0 ≤ m → size (table_upto 30) ≠ 2 ^ m) ∧
  ∃ k, 4 ≤ k ≤ 31 ∧ size (table_upto 30) = near_prime k ∧
       (k ≤ 30 →
        getsize_loop 32 (wrap_int (size (table_upto 30))) 2 1 = Some (2 ^ k, k) ∧
        getsize (table_upto 30) = Some (near_prime (k + 1)) ∧
        least_of_form_above near_prime (size (table_upto 30))
                            (near_prime (k + 1))) ∧
       (2 ^ k * 2 ≤ INT_MAX ↔ k ≤ 29) ∧
       (k = 31 →
        (∀ fuel, getsize_loop fuel (wrap_int (size (table_upto 30))) 2 1 = None) ∧
        getsize (table_upto 30) = None).
Proof.
  split; [reflexivity|].
  apply (getsize_next_capacity (-1) mod_hash diff_cmp float_0_75 (pairs_upto 30)).
  apply table_upto_built. lia.
Defined.

Lemma ht_insert_existing_key_witness :
  ∃ rc ht',
    ht_insert (-1) mod_hash diff_cmp (Some (table_upto 9)) (Some 5) (Some 50)
    = Some (rc, Some ht') ∧
    rc = -1 ∧ rc ≠ EXIT_SUCCESS ∧ rc ≠ EXIT_FAILURE ∧
    ht_insert (-1) mod_hash diff_cmp None (Some 5) (Some 50)
    = Some (EXIT_FAILURE, None) ∧
    ht_insert (-1) mod_hash diff_cmp (Some (table_upto 9)) None (Some 50)
    = Some (EXIT_FAILURE, Some (table_upto 9)) ∧
    ht_insert (-1) mod_hash diff_cmp (Some (table_upto 9)) (Some 5) None
    = Some (EXIT_FAILURE, Some (table_upto 9)) ∧
    ht_entries ht' ≡ₚ ht_entries (table_upto 9) ∧
    ht_search mod_hash diff_cmp (Some ht') (Some 5) = Some 5.
Proof.
  apply (ht_insert_existing_key (-1) mod_hash diff_cmp mod_hash_ok
           (table_upto 9) 5 50 {| key := 5; value := 5 |}).
  - unfold EXIT_SUCCESS. lia.
  - unfold EXIT_FAILURE. lia.
  - apply table_upto_wf. lia.
  - vm_compute. discriminate.
  - apply list_elem_of_In. vm_compute. tauto.
  - reflexivity.
Defined.

Lemma ht_insert_duplicate_frame_witness :
  size (table_upto 9) = 13 ∧
  ∃ ht',
    ht_insert (-1) mod_hash diff_cmp (Some (table_upto 9)) (Some 5) (Some 50)
    = Some (-1, Some ht') ∧
    num_entries ht' = num_entries (table_upto 9) ∧
    ht_entries ht' ≡ₚ ht_entries (table_upto 9) ∧
    getsize (table_upto 9) = Some (size ht') ∧ 13 < size ht'.
Proof.
  split; [reflexivity|].
  destruct (ht_insert_duplicate_frame (-1) mod_hash diff_cmp mod_hash_ok
              (table_upto 9) 5 50 {| key := 5; value := 5 |})
    as (ht' & Hins & Hnum & Hperm & Hcap).
  - apply table_upto_wf. lia.
  - vm_compute. discriminate.
  - apply list_elem_of_In. vm_compute. tauto.
  - reflexivity.
  - exists ht'. split; [exact Hins|]. split; [exact Hnum|]. split; [exact Hperm|].
    exact Hcap.
Defined.



Lemma growth_preserves_entries_witness :
  ∃ ht', ht_insert_all (-1) mod_hash diff_cmp (pairs_upto 30) (ht_init float_0_75)
         = Some ht' ∧
         num_entries ht' = 30 ∧
         ∀ k v, (k, v) ∈ pairs_upto 30 →
                ht_search mod_hash diff_cmp (Some ht') (Some k) = Some v.
Proof.
  apply (growth_preserves_entries (-1) mod_hash diff_cmp mod_hash_ok
           float_0_75 (pairs_upto 30)).
  - apply pairs_upto_distinct.
  - vm_compute. reflexivity.
  - intros a Ha. apply LoadFactor.few_entries_at_last_capacity.
    change (Z.of_nat (length (pairs_upto 30))) with 30 in Ha. lia.
Defined.

(** *** The further properties at concrete tables *)

Lemma ht_search_stored_witness :
  (ht_search mod_hash diff_cmp (Some (table_upto 9)) (Some 5) = Some 5 ↔
   ∃ e, e ∈ ht_entries (table_upto 9) ∧ diff_cmp 5 (key e) = 0 ∧ value e = 5) ∧
  (ht_search mod_hash diff_cmp (Some (table_upto 9)) (Some 5) = None ↔
   ∀ e, e ∈ ht_entries (table_upto 9) → diff_cmp 5 (key e) ≠ 0) ∧
  ht_search (V := Z) mod_hash diff_cmp None (Some 5) = None ∧
  ht_search mod_hash diff_cmp (Some (table_upto 9)) None = None.
Proof.
  apply (ht_search_stored mod_hash diff_cmp mod_hash_ok (table_upto 9) 5 5).
  apply table_upto_wf. lia.
Defined.

Lemma ht_insert_then_search_witness :
  ∃ ht', ht_insert (-1) mod_hash diff_cmp (Some (table_upto 9)) (Some 10) (Some 100)
         = Some (EXIT_SUCCESS, Some ht') ∧
         ht_wf mod_hash diff_cmp ht' ∧
         num_entries ht' = wrap_uint (num_entries (table_upto 9) + 1) ∧
         ht_search mod_hash diff_cmp (Some ht') (Some 10) = Some 100 ∧
         ∀ k', diff_cmp k' 10 ≠ 0 →
               ht_search mod_hash diff_cmp (Some ht') (Some k')
               = ht_search mod_hash diff_cmp (Some (table_upto 9)) (Some k').
Proof.
  apply (ht_insert_then_search (-1) mod_hash diff_cmp mod_hash_ok
           (table_upto 9) 10 100).
  - apply table_upto_wf. lia.
  - vm_compute. discriminate.
  - vm_compute. reflexivity.
Defined.

Lemma ht_insert_first_wins_witness :
  ∃ ht, ht_insert_all (-1) mod_hash diff_cmp [(1, 10); (2, 20); (1, 30)]
                      (ht_init float_0_75) = Some ht ∧
        ht_wf mod_hash diff_cmp ht ∧
        num_entries ht = Z.of_nat (length (ht_entries ht)) ∧
        ∀ k, ht_search mod_hash diff_cmp (Some ht) (Some k)
             = first_with_key diff_cmp k [(1, 10); (2, 20); (1, 30)].
Proof.
  apply (ht_insert_first_wins (-1) mod_hash diff_cmp mod_hash_ok float_0_75
           [(1, 10); (2, 20); (1, 30)]).
  - vm_compute. reflexivity.
  - intros a Ha. apply LoadFactor.few_entries_at_last_capacity.
    change (Z.of_nat (length [(1, 10); (2, 20); (1, 30)])) with 3 in Ha. lia.
Defined.


Lemma getsize_loop_never_exits_witness :
  getsize_loop 1000 (wrap_int INT_MAX) 2 1 = None ∧
  getsize {| table := @nil (list (HTentry Z Z)); size := INT_MAX;
             num_entries := 0; max_loadfactor := float_0_75; idx := 4 |} = None.
Proof.
  apply (getsize_loop_never_exits
           {| table := @nil (list (HTentry Z Z)); size := INT_MAX;
              num_entries := 0; max_loadfactor := float_0_75; idx := 4 |} 1000).
  simpl. unfold INT_MAX. lia.
Defined.

Lemma ht_free_every_entry_witness :
  ht_free (Some (table_upto 3)) (Some (λ k s, Some (s ++ [k])))
          (Some (λ v s, Some (s ++ [v]))) []
  = Some (EXIT_SUCCESS,
          fold_left (λ s e, (s ++ [key e]) ++ [value e])
                    (ht_entries (table_upto 3)) []) ∧
  (∀ fk fv, ht_free (K := Z) (V := Z) None fk fv (@nil Z)
            = Some (EXIT_FAILURE, [])) ∧
  (∀ fv, ht_free (Some (table_upto 3)) None fv (@nil Z)
         = Some (EXIT_FAILURE, [])) ∧
  (∀ fk, ht_free (Some (table_upto 3)) fk None (@nil Z)
         = Some (EXIT_FAILURE, [])).
Proof.
  apply (ht_free_every_entry mod_hash diff_cmp mod_hash_ok (table_upto 3)
           (λ k s, s ++ [k]) (λ v s, s ++ [v]) []).
  apply table_upto_wf. lia.
Defined.

End HashTableFacts.

(** ** The symbol table *)

Module SymbolTableFacts.

Import HashTable HashTableFacts SymbolTable.

Lemma byte_of_range c : 0 ≤ byte_of c < 256.
Proof.
  unfold byte_of. pose proof (N_ascii_bounded c) as H.
  split; [lia|]. apply N2Z.inj_lt in H. exact H.
Qed.

Lemma c_str_nonzero s : Forall (λ b, b ≠ 0) (c_str s).
Proof.
  induction s as [|c s IH]; simpl; [constructor|].
  destruct (Z.eqb_spec (byte_of c) 0); [constructor|].
  by constructor.
Qed.

Lemma strcmp_eq s1 s2 :
  Forall (λ b, b ≠ 0) s1 → Forall (λ b, b ≠ 0) s2 →
  strcmp s1 s2 = 0 ↔ s1 = s2.
Proof.
  intros H1. revert s2. induction H1 as [|c1 r1 Hc1 _ IH]; intros s2 H2.
  - destruct H2 as [|c2 r2 Hc2 _]; simpl; [done|]. split; [lia|done].
  - destruct H2 as [|c2 r2 Hc2 H2]; simpl; [split; [lia|done]|].
    destruct (Z.eqb_spec c1 c2) as [->|Hne].
    + rewrite (IH r2 H2). split; [by intros ->|by intros [= ->]].
    + split; [lia|]. by intros [= -> _].
Qed.

Lemma key_strcmp_eq k1 k2 : key_strcmp k1 k2 = 0 ↔ c_str k1 = c_str k2.
Proof. apply strcmp_eq; apply c_str_nonzero. Qed.

Lemma sym_ok : hash_cmp_ok shift_hash key_strcmp.
Proof.
  split.
  - intros k s Hs. unfold shift_hash. apply Z.mod_pos_bound. lia.
  - intros k. by apply key_strcmp_eq.
  - intros a b. rewrite !key_strcmp_eq. done.
  - intros a b c. rewrite !key_strcmp_eq. congruence.
  - intros a b s. rewrite key_strcmp_eq. unfold shift_hash. by intros ->.
Qed.

Lemma fold_left_concat {A B} (f : A → B → A) (xss : list (list B)) (a : A) :
  fold_left (λ acc xs, fold_left f xs acc) xss a = fold_left f (concat xss) a.
Proof.
  revert a. induction xss as [|xs xss IH]; intros a; simpl; [done|].
  by rewrite fold_left_app, IH.
Qed.

Section Facts.

Variable EXISTS : Z.
Variable ValType : Type.
Variable IS_CALLABLE_TYPE : ValType → bool.
Variable IS_VARIABLE : ValType → bool.

Local Abbreviation IDPropt := (IDPropt ValType).
Local Abbreviation symtab := (symtab ValType).
Local Abbreviation insert_name := (insert_name EXISTS IS_VARIABLE).
Local Abbreviation insert_names := (insert_names EXISTS IS_VARIABLE).
Local Abbreviation find_name := (find_name IS_CALLABLE_TYPE).
Local Abbreviation sym_wf := (ht_wf (V := loc) shift_hash key_strcmp).
Local Abbreviation sym_insert := (sym_insert EXISTS).

Implicit Types (st : symtab) (t : HashTab string loc) (m : gmap loc IDPropt).
Implicit Types (p q : loc) (id : string).

(** *** Releasing a table *)

Lemma free_entries_defined (l : list (HTentry string loc)) m :
  NoDup (value <$> l) → (∀ e, e ∈ l → is_Some (m !! value e)) →
  is_Some (fold_left
             (λ (acc : option (gmap loc IDPropt)) (p : HTentry string loc),
                match acc with
                | None => None
                | Some s =>
                    match free_key (key p) s with
                    | None => None
                    | Some s => freeprop (value p) s
                    end
                end) l (Some m)).
Proof.
  revert m. induction l as [|e l IH]; intros m Hnd Hlive; simpl; [by eexists|].
  apply NoDup_cons in Hnd as [Hnotin Hnd].
  unfold freeprop at 2.
  destruct (Hlive e) as [r Hr]; [left|]. rewrite Hr.
  apply IH; [done|]. intros e' He'.
  rewrite lookup_delete_ne.
  - apply Hlive. by right.
  - intros Heq. apply Hnotin. rewrite Heq. apply list_elem_of_fmap. by exists e'.
Qed.

Lemma close_subroutine_defined st t :
  table st = Some t → sym_wf t → owns_values t (store st) →
  ∃ st', close_subroutine st = Some st' ∧
         table st' = saved_table st ∧ saved_table st' = None ∧
         curr_offset st' = 0.
Proof.
  intros Ht Hwf [Hnd Hlive].
  unfold close_subroutine, release_symbol_table, ht_free. rewrite Ht.
  rewrite fold_left_concat, (concat_take_size _ _ sym_ok) by done.
  change (concat (HashTable.table t)) with (ht_entries t).
  destruct (free_entries_defined (ht_entries t) (store st) Hnd Hlive) as [m' ->].
  by eexists.
Qed.

(** *** Looking names up *)

(** C1: while a subroutine scope is active, a name absent from the active
    scope and present in the saved one is found exactly when the object it
    is bound to denotes a callable, and is reported absent otherwise; and a
    name bound in the subroutine scope only is found before
    [close_subroutine] and absent once it has made the saved scope the
    active one. *)
Theorem find_name_scopes st act sav id :
  table st = Some act → saved_table st = Some sav →
  (sym_search (Some act) (Some id) = None →
   ∀ p r, sym_search (Some sav) (Some id) = Some p → store st !! p = Some r →
          find_name (Some id) st
          = Some (IS_CALLABLE_TYPE (type r),
                  if IS_CALLABLE_TYPE (type r) then Some p else None)) ∧
  (∀ p, sym_search (Some act) (Some id) = Some p →
        sym_search (Some sav) (Some id) = None →
        sym_wf act → owns_values act (store st) →
        find_name (Some id) st = Some (true, Some p) ∧
        ∃ st', close_subroutine st = Some st' ∧
               table st' = Some sav ∧ saved_table st' = None ∧
               find_name (Some id) st' = Some (false, None)).
Proof.
  intros Hact Hsav. split.
  - intros Habs p r Hp Hr. unfold SymbolTable.find_name.
    rewrite Hact, Hsav, Habs, Hp, Hr.
    by destruct (IS_CALLABLE_TYPE (type r)).
  - intros p Hp Habs Hwf Hown. split.
    + unfold SymbolTable.find_name. rewrite Hact, Hp.
      rewrite bool_decide_eq_true_2 by eauto. by destruct (saved_table st).
    + destruct (close_subroutine_defined st act Hact Hwf Hown)
        as (st' & Hclose & Ht' & Hs' & _).
      exists st'. rewrite Ht', Hs', Hsav. split_and!; try done.
      unfold SymbolTable.find_name. by rewrite Ht', Hs', Hsav, Habs.
Qed.

(** *** Failed insertions *)

(** C9: when [insert_name] returns [FALSE] the offset counter and the
    objects of the store are as before, and either no table is active or
    [ht_insert] did not return [EXIT_SUCCESS]; both of these make it
    return [FALSE]; when it returns [TRUE] the counter has moved, by one,
    only if the property denotes a variable; and a name already in the
    active scope makes it return [FALSE], the result of [ht_insert] for a
    key that is present being other than [EXIT_SUCCESS]. *)
Theorem insert_name_failure st oid oprop :
  (∀ st', insert_name oid oprop st = Some (false, st') →
          curr_offset st' = curr_offset st ∧ store st' = store st ∧
          (table st = None ∨
           ∃ rc ot, sym_insert (table st) oid oprop = Some (rc, ot) ∧
                    rc ≠ EXIT_SUCCESS)) ∧
  (table st = None → insert_name oid oprop st = Some (false, st)) ∧
  (∀ rc ot, is_Some (table st) →
            sym_insert (table st) oid oprop = Some (rc, ot) →
            rc ≠ EXIT_SUCCESS →
            insert_name oid oprop st = Some (false, with_table st ot)) ∧
  (∀ st', insert_name oid oprop st = Some (true, st') →
          ∃ p r, oprop = Some p ∧ store st !! p = Some r ∧
                 curr_offset st' =
                 if IS_VARIABLE (type r) then wrap_uint (curr_offset st + 1)
                 else curr_offset st) ∧
  (EXISTS ≠ EXIT_SUCCESS →
   ∀ t id p q, table st = Some t → sym_wf t → size t ≤ 2 ^ 30 →
               sym_search (Some t) (Some id) = Some q →
               ∃ st', insert_name (Some id) (Some p) st = Some (false, st') ∧
                      curr_offset st' = curr_offset st ∧
                      store st' = store st).
Proof.
  unfold SymbolTable.insert_name. split_and!; cycle 4.
  { intros Hne t id p q Ht Hwf Hsize Hq.
    apply search_Some_inv in Hq as (e & He & Hcmp & _).
    destruct (ht_insert_present EXISTS shift_hash key_strcmp sym_ok t id p e
                Hwf Hsize He Hcmp) as (t1 & _ & Hins).
    unfold SymbolTable.sym_insert. rewrite Ht, Hins.
    destruct (Z.eqb_spec EXISTS EXIT_SUCCESS) as [|_]; [done|].
    simpl. by eexists. }
  - intros st'. destruct (table st) as [t|] eqn:Ht.
    + destruct (SymbolTable.sym_insert EXISTS (Some t) oid oprop)
        as [[rc ot]|] eqn:Hins; [|done].
      destruct (Z.eqb_spec rc EXIT_SUCCESS) as [->|Hne]; simpl.
      * destruct oprop as [p|]; [|done].
        destruct (store st !! p) as [r|]; [|done].
        by destruct (IS_VARIABLE (type r)).
      * intros [= <-]. split_and!; try done. right. eauto.
    + intros [= <-]. split_and!; try done. by left.
  - by intros ->.
  - intros rc ot [t Ht] Hins Hne. rewrite Ht in *. rewrite Hins.
    by destruct (Z.eqb_spec rc EXIT_SUCCESS).
  - intros st'. destruct (table st) as [t|] eqn:Ht; [|done].
    destruct (SymbolTable.sym_insert EXISTS (Some t) oid oprop)
      as [[rc ot]|] eqn:Hins; [|done].
    destruct (Z.eqb_spec rc EXIT_SUCCESS) as [->|Hne]; simpl; [|done].
    destruct oprop as [p|]; [|done].
    destruct (store st !! p) as [r|] eqn:Hr; [|done].
    destruct (IS_VARIABLE (type r)) eqn:Hv; intros [= <-];
      exists p, r; simpl; by rewrite Hv.
Qed.

(** *** Successful insertions *)

Lemma count_variables_cons m id p items :
  count_variables IS_VARIABLE m ((id, p) :: items)
  = (if is_variable_at IS_VARIABLE m p then 1 else 0)
    + count_variables IS_VARIABLE m items.
Proof.
  unfold count_variables. rewrite filter_cons. simpl.
  case_decide as Hv.
  - rewrite Hv, length_cons. lia.
  - apply not_true_is_false in Hv. rewrite Hv. lia.
Qed.

Lemma count_variables_ext m m' items :
  (∀ q, q ∈ items.*2 → m' !! q = m !! q) →
  count_variables IS_VARIABLE m' items = count_variables IS_VARIABLE m items.
Proof.
  induction items as [|[id p] items IH]; intros Hsame; [done|].
  rewrite !count_variables_cons. unfold is_variable_at.
  rewrite Hsame by (rewrite fmap_cons; left).
  rewrite IH; [done|]. intros q Hq. apply Hsame. rewrite fmap_cons. by right.
Qed.

Lemma count_variables_bounds m items :
  0 ≤ count_variables IS_VARIABLE m items ≤ Z.of_nat (length items).
Proof.
  unfold count_variables. split; [lia|].
  apply inj_le, length_filter.
Qed.

(** [insert_name] for a name that is not in the active scope. *)
Lemma insert_name_fresh st t id p r :
  table st = Some t → sym_wf t →
  size t ≤ 2 ^ 30 ∨ size t = INT_MAX →
  max_loadfactor t = float_0_75 →
  0 ≤ num_entries t < 2 ^ 24 - 1 →
  (∀ e, e ∈ ht_entries t → key_strcmp id (key e) ≠ 0) →
  store st !! p = Some r →
  ∃ t',
    insert_name (Some id) (Some p) st
    = Some (true,
            if IS_VARIABLE (type r)
            then {| table := Some t'; saved_table := saved_table st;
                    curr_offset := wrap_uint (curr_offset st + 1);
                    store := <[p := {| type := type r;
                                       offset := curr_offset st |}]> (store st) |}
            else with_table st (Some t')) ∧
    sym_wf t' ∧
    (size t' ≤ 2 ^ 30 ∨ size t' = INT_MAX) ∧
    max_loadfactor t' = float_0_75 ∧
    num_entries t' = num_entries t + 1 ∧
    ht_entries t' ≡ₚ entry_of (id, p) :: ht_entries t.
Proof.
  intros Ht Hwf Hsize Hlf Hn Hfresh Hr.
  assert (Hw : wrap_uint (num_entries t + 1) = num_entries t + 1)
    by (apply wrap_uint_small; lia).
  destruct (after_growth_capped shift_hash key_strcmp sym_ok t Hwf Hsize)
    as (t1 & Hgrow & Hsize1).
  { rewrite Hw, Hlf. apply LoadFactor.few_entries_at_last_capacity. lia. }
  destruct (ht_insert_cases EXISTS shift_hash key_strcmp sym_ok t t1 id p Hwf Hgrow)
    as [(e & He & Hcmp & _)|(_ & t2 & Hins & Hwf2 & Hperm2 & Hnum2 & Hlf2 & Hsz2 & _)].
  { by destruct (Hfresh e He). }
  exists t2. split_and!; try done.
  - unfold SymbolTable.insert_name, SymbolTable.sym_insert.
    rewrite Ht, Hins. simpl. rewrite Hr. by destruct (IS_VARIABLE (type r)).
  - by rewrite Hsz2.
  - congruence.
  - by rewrite Hnum2, Hw.
Qed.

Lemma insert_names_run items :
  ∀ st t,
    table st = Some t → sym_wf t →
    size t ≤ 2 ^ 30 ∨ size t = INT_MAX →
    max_loadfactor t = float_0_75 →
    0 ≤ num_entries t → num_entries t + Z.of_nat (length items) < 2 ^ 24 →
    0 ≤ curr_offset st → curr_offset st + Z.of_nat (length items) < 2 ^ 32 →
    distinct_pairs key_strcmp items →
    (∀ id p e, (id, p) ∈ items → e ∈ ht_entries t → key_strcmp id (key e) ≠ 0) →
    NoDup items.*2 →
    (∀ p, p ∈ items.*2 → is_Some (store st !! p)) →
    ∃ st' t',
      insert_names items st = Some (replicate (length items) true, st') ∧
      table st' = Some t' ∧ sym_wf t' ∧
      saved_table st' = saved_table st ∧
      ht_entries t' ≡ₚ (entry_of <$> items) ++ ht_entries t ∧
      curr_offset st' = curr_offset st + count_variables IS_VARIABLE (store st) items ∧
      (∀ q, q ∉ items.*2 → store st' !! q = store st !! q) ∧
      (∀ (i : nat) id p r,
         items !! i = Some (id, p) → store st !! p = Some r →
         store st' !! p
         = Some (if IS_VARIABLE (type r)
                 then {| type := type r;
                         offset := curr_offset st
                                   + count_variables IS_VARIABLE (store st)
                                       (take i items) |}
                 else r)).
Proof.
  induction items as [|[id p] items IH];
    intros st t Ht Hwf Hsize Hlf Hn0 Hn Hc0 Hc Hd Hfresh Hnd Hlive.
  - exists st, t. simpl. split_and!; try done.
    unfold count_variables. simpl. lia.
  - rewrite length_cons, Nat2Z.inj_succ in Hn, Hc.
    destruct Hd as [Hid Hd].
    rewrite fmap_cons in Hnd. apply NoDup_cons in Hnd as [Hp Hnd]. simpl in Hp.
    destruct (Hlive p) as [r Hr]; [rewrite fmap_cons; left|].
    destruct (insert_name_fresh st t id p r Ht Hwf Hsize Hlf) as
      (t1 & Hins & Hwf1 & Hsize1 & Hlf1 & Hnum1 & Hperm1); [lia| |done|].
    { intros e He. apply (Hfresh id p e); [left|done]. }
    set (st1 := if IS_VARIABLE (type r)
                then {| table := Some t1; saved_table := saved_table st;
                        curr_offset := wrap_uint (curr_offset st + 1);
                        store := <[p := {| type := type r;
                                           offset := curr_offset st |}]> (store st) |}
                else with_table st (Some t1)) in *.
    assert (Ht1 : table st1 = Some t1) by (subst st1; by destruct (IS_VARIABLE _)).
    assert (Hsav1 : saved_table st1 = saved_table st)
      by (subst st1; by destruct (IS_VARIABLE _)).
    assert (Hoff1 : curr_offset st1
                    = curr_offset st + if IS_VARIABLE (type r) then 1 else 0).
    { subst st1. destruct (IS_VARIABLE _); simpl; [|lia].
      apply wrap_uint_small. lia. }
    assert (Hstore1 : ∀ q, q ≠ p → store st1 !! q = store st !! q).
    { intros q Hq. subst st1. destruct (IS_VARIABLE _); simpl; [|done].
      by rewrite lookup_insert_ne. }
    assert (Hstorep : store st1 !! p
                      = Some (if IS_VARIABLE (type r)
                              then {| type := type r; offset := curr_offset st |}
                              else r)).
    { subst st1. destruct (IS_VARIABLE _); simpl; [|done].
      by rewrite lookup_insert_eq. }
    assert (Hrest : ∀ q, q ∈ items.*2 → store st1 !! q = store st !! q).
    { intros q Hq. apply Hstore1. by intros ->. }
    destruct (IH st1 t1 Ht1 Hwf1 Hsize1 Hlf1) as
      (st' & t' & Hrun & Ht' & Hwf' & Hsav' & Hperm' & Hoff' & Hother' & Hobj');
      try done.
    + lia.
    + lia.
    + destruct (IS_VARIABLE (type r)); lia.
    + destruct (IS_VARIABLE (type r)); lia.
    + intros id' p' e Hin He. rewrite Hperm1 in He.
      apply elem_of_cons in He as [->|He].
      * simpl. intros Hcmp. apply (Hid id' p' Hin).
        by apply (cmp_sym _ _ sym_ok).
      * apply (Hfresh id' p' e); [by right|done].
    + intros q Hq. rewrite (Hrest q Hq). apply Hlive. rewrite fmap_cons. by right.
    + exists st', t'. split_and!.
      * cbn [SymbolTable.insert_names]. fold st1 in Hins. by rewrite Hins, Hrun.
      * done.
      * done.
      * congruence.
      * rewrite Hperm', Hperm1, fmap_cons. symmetry. apply Permutation_middle.
      * rewrite Hoff', Hoff1, count_variables_cons.
        rewrite (count_variables_ext (store st) (store st1) items Hrest).
        unfold is_variable_at. rewrite Hr. lia.
      * intros q Hq. rewrite fmap_cons in Hq. apply not_elem_of_cons in Hq as [Hqp Hq].
        rewrite (Hother' q Hq). by apply Hstore1.
      * intros [|i] id' p' r' Hi Hr'.
        -- injection Hi as <- <-. rewrite Hr in Hr'. injection Hr' as <-.
           rewrite (Hother' p Hp), Hstorep. simpl.
           unfold count_variables. simpl.
           destruct (IS_VARIABLE (type r)); [|done].
           do 2 f_equal. lia.
        -- simpl in Hi.
           assert (Hp' : p' ∈ items.*2).
           { apply list_elem_of_fmap. exists (id', p'). split; [done|].
             by eapply list_elem_of_lookup_2. }
           rewrite (Hobj' i id' p' r' Hi) by (by rewrite Hrest).
           destruct (IS_VARIABLE (type r')); [|done].
           do 2 f_equal. rewrite Hoff1. cbn [take].
           rewrite count_variables_cons.
           rewrite (count_variables_ext (store st) (store st1) (take i items)).
           ++ unfold is_variable_at. rewrite Hr. lia.
           ++ intros q Hq. apply Hrest.
              apply list_elem_of_fmap in Hq as (x & -> & Hx).
              apply list_elem_of_fmap. exists x. split; [done|].
              by eapply subseteq_take.
Qed.

(** C3: in a scope just initialised, as [init_symbol_table] and
    [open_subroutine] leave it (an empty table, the offset counter at 1),
    the insertion of items with distinct names, each with an object of its
    own, succeeds for every item; the item at index [i] is found under its
    name, its object has the offset 1 plus the number of variables inserted
    before it when it denotes a variable and is left as it was when it does
    not, and [get_variables_width] returns 1 plus the number of variables.
    So [n] variables get the offsets 1 to [n] in the order of insertion,
    whatever callables are inserted between them. *)
Theorem insert_names_offsets st items :
  table st = Some (ht_init float_0_75) → curr_offset st = 1 →
  distinct_pairs key_strcmp items →
  NoDup items.*2 →
  (∀ p, p ∈ items.*2 → is_Some (store st !! p)) →
  Z.of_nat (length items) < 2 ^ 24 →
  ∃ st',
    insert_names items st = Some (replicate (length items) true, st') ∧
    get_variables_width st'
    = 1 + count_variables IS_VARIABLE (store st) items ∧
    ∀ (i : nat) id p r,
      items !! i = Some (id, p) → store st !! p = Some r →
      find_name (Some id) st' = Some (true, Some p) ∧
      store st' !! p
      = Some (if IS_VARIABLE (type r)
              then {| type := type r;
                      offset := 1 + count_variables IS_VARIABLE (store st)
                                      (take i items) |}
              else r).
Proof.
  intros Htable Hone Hd Hnd Hlive Hlen.
  destruct (insert_names_run items st (ht_init float_0_75))
    as (st' & t' & Hrun & Ht' & Hwf' & Hsav' & Hperm' & Hoff' & _ & Hobj');
    try done; simpl; try lia.
  - apply ht_init_wf.
  - intros id p e _ He. by apply elem_of_nil in He.
  - exists st'. split; [done|]. rewrite Hone in Hoff', Hobj'.
    pose proof (count_variables_bounds (store st) items) as Hb.
    split.
    + unfold get_variables_width. rewrite Hoff'. apply wrap_int_small. lia.
    + intros i id p r Hi Hr. split; [|exact (Hobj' i id p r Hi Hr)].
      assert (Hs : sym_search (Some t') (Some id) = Some p).
      { apply (search_found shift_hash key_strcmp sym_ok t' id (entry_of (id, p)));
          [done| |apply sym_ok].
        rewrite Hperm'. apply elem_of_app. left.
        apply list_elem_of_fmap. exists (id, p). split; [done|].
        by eapply list_elem_of_lookup_2. }
      unfold SymbolTable.find_name. rewrite Ht', Hs.
      rewrite bool_decide_eq_true_2 by eauto. by destruct (saved_table st').
Qed.

(** *** Further properties of the symbol table *)

Local Abbreviation free_entry :=
  (λ (acc : option (gmap loc IDPropt)) (p : HTentry string loc),
     match acc with
     | None => None
     | Some s =>
         match free_key (key p) s with
         | None => None
         | Some s => freeprop (value p) s
         end
     end).

Lemma free_entries_None (l : list (HTentry string loc)) :
  fold_left free_entry l None = None.
Proof. by induction l. Qed.

(** What the destructors leave of the store, when they have a result. *)
Lemma free_entries_inv (l : list (HTentry string loc)) m m' :
  fold_left free_entry l (Some m) = Some m' →
  NoDup (value <$> l) ∧ (∀ e, e ∈ l → is_Some (m !! value e)) ∧
  ∀ q, m' !! q = if decide (q ∈ value <$> l) then None else m !! q.
Proof.
  revert m. induction l as [|e l IH]; intros m; simpl.
  - intros [= <-]. split; [constructor|]. split.
    + intros e He. by apply elem_of_nil in He.
    + intros q.
      first [done | case_decide as Hq; [by apply elem_of_nil in Hq|done]].
  - unfold freeprop at 2. destruct (m !! value e) as [r|] eqn:Hr;
      [|by rewrite free_entries_None].
    intros Hfold. destruct (IH _ Hfold) as (Hnd & Hlive & Hm').
    assert (Hnotin : value e ∉ value <$> l).
    { intros Hin. apply list_elem_of_fmap in Hin as (e' & Heq & He').
      destruct (Hlive e' He') as [r' Hr']. rewrite <- Heq in Hr'.
      by rewrite lookup_delete_eq in Hr'. }
    split_and!.
    + by constructor.
    + intros e' He'. apply elem_of_cons in He' as [->|He']; [by eexists|].
      destruct (Hlive e' He') as [r' Hr'].
      apply lookup_delete_Some in Hr' as [_ Hr']. by eexists.
    + intros q. rewrite Hm'.
      case_decide as Hq; case_decide as Hq'; try done.
      * destruct Hq'. by right.
      * apply elem_of_cons in Hq' as [->|?]; [|done].
        by rewrite lookup_delete_eq.
      * rewrite lookup_delete_ne; [done|].
        intros <-. destruct Hq'. left.
Qed.

Lemma release_symbol_table_unfold st t :
  table st = Some t → sym_wf t →
  release_symbol_table st = fold_left free_entry (ht_entries t) (Some (store st)).
Proof.
  intros Ht Hwf. unfold release_symbol_table, ht_free. rewrite Ht.
  rewrite fold_left_concat, (concat_take_size _ _ sym_ok) by done.
  change (concat (HashTable.table t)) with (ht_entries t).
  by destruct (fold_left _ _ _).
Qed.

(** X7: [release_symbol_table] has a defined result exactly when the values
    of the active table are objects of the store, no two of them the same
    object: an object bound to two names, or already released, is released
    twice.  It then releases the objects of the table and leaves every other
    object of the store as it is; with no active table it does nothing. *)
Theorem release_symbol_table_owned st t :
  table st = Some t → sym_wf t →
  (is_Some (release_symbol_table st) ↔ owns_values t (store st)) ∧
  (∀ m', release_symbol_table st = Some m' →
         ∀ q, m' !! q = if decide (q ∈ value <$> ht_entries t) then None
                        else store st !! q) ∧
  release_symbol_table (with_table st None) = Some (store st).
Proof.
  intros Ht Hwf. rewrite (release_symbol_table_unfold st t Ht Hwf).
  split_and!; [split| |done].
  - intros [m' Hm']. by destruct (free_entries_inv _ _ _ Hm') as (? & ? & _).
  - intros [Hnd Hlive]. by apply free_entries_defined.
  - intros m' Hm'. by destruct (free_entries_inv _ _ _ Hm') as (_ & _ & ?).
Qed.

(** X8: [find_name] returns [TRUE] exactly when it leaves a pointer in
    [*prop]; the pointer is the value of an entry, of the active or of the
    saved table, whose key is equal to the name; and a name bound in the
    active table is found there, whatever the saved table holds. *)
Theorem find_name_result st oid b op :
  find_name oid st = Some (b, op) →
  b = bool_decide (is_Some op) ∧
  (∀ p, op = Some p →
        ∃ id t e, oid = Some id ∧
                  (table st = Some t ∨ saved_table st = Some t) ∧
                  e ∈ ht_entries t ∧ key_strcmp id (key e) = 0 ∧ value e = p) ∧
  (∀ p, sym_search (table st) oid = Some p → b = true ∧ op = Some p).
Proof.
  unfold SymbolTable.find_name.
  assert (Hin : ∀ ot p, sym_search ot oid = Some p →
            ∃ id t e, oid = Some id ∧ ot = Some t ∧
                      e ∈ ht_entries t ∧ key_strcmp id (key e) = 0 ∧ value e = p).
  { intros [t|] p; [|done]. destruct oid as [id|]; [|done]. intros Hs.
    apply search_Some_inv in Hs as (e & He & Hcmp & Hv).
    by exists id, t, e. }
  destruct (sym_search (table st) oid) as [p|] eqn:Hact.
  - intros Hres.
    assert (b = true ∧ op = Some p) as [-> ->].
    { by destruct (saved_table st); injection Hres as <- <-. }
    split_and!; [done| |by intros ? [= <-]].
    intros p' [= <-].
    destruct (Hin _ _ Hact) as (id & t & e & Hid & Ht & He & Hcmp & Hv).
    exists id, t, e. split_and!; try done. by left.
  - destruct (saved_table st) as [sav|] eqn:Hsav.
    + destruct (sym_search (Some sav) oid) as [p|] eqn:Hs.
      * destruct (store st !! p) as [r|]; [|done].
        destruct (IS_CALLABLE_TYPE (type r)); simpl; intros [= <- <-];
          (split_and!; [done| |done]); [|done].
        intros p' [= <-].
        destruct (Hin _ _ Hs) as (id & t & e & Hid & [= <-] & He & Hcmp & Hv).
        exists id, sav, e. split_and!; try done. by right.
      * intros [= <- <-]. by split_and!.
    + intros [= <- <-]. by split_and!.
Qed.

(** X9: [insert_name] of a name that the active table does not hold, with
    a live object, returns [TRUE]; [find_name] then finds the name with
    that object, and answers for every other name as it did before. *)
Theorem insert_name_then_find st t id p r :
  table st = Some t → sym_wf t → size t ≤ 2 ^ 30 →
  sym_search (Some t) (Some id) = None →
  store st !! p = Some r →
  ∃ st', insert_name (Some id) (Some p) st = Some (true, st') ∧
         find_name (Some id) st' = Some (true, Some p) ∧
         saved_table st' = saved_table st ∧
         ∀ id', key_strcmp id' id ≠ 0 →
                find_name (Some id') st' = find_name (Some id') st.
Proof.
  intros Ht Hwf Hsize Habs Hr.
  destruct (after_growth_defined shift_hash key_strcmp sym_ok t Hwf Hsize)
    as [t1 Hgrow].
  destruct (ht_insert_absent EXISTS shift_hash key_strcmp sym_ok t t1 id p
              Hwf Hgrow)
    as (t' & Hins & Hwf' & _ & _ & _ & _ & Hk & Hother).
  { by apply (search_None_inv shift_hash key_strcmp sym_ok). }
  assert (Hrun : ∃ st', insert_name (Some id) (Some p) st = Some (true, st') ∧
                        table st' = Some t' ∧ saved_table st' = saved_table st ∧
                        ∀ q r', store st !! q = Some r' →
                                ∃ r'', store st' !! q = Some r'' ∧
                                       type r'' = type r').
  { unfold SymbolTable.insert_name, SymbolTable.sym_insert.
    rewrite Ht, Hins. simpl. rewrite Hr.
    destruct (IS_VARIABLE (type r)); eexists; (split; [done|]);
      (split_and!; [done|done|]); simpl; [|by eauto].
    intros q r' Hq. destruct (decide (q = p)) as [->|Hne].
    - rewrite lookup_insert_eq. eexists. split; [done|]. simpl. congruence.
    - rewrite lookup_insert_ne by done. eauto. }
  destruct Hrun as (st' & Hrun & Ht' & Hsav' & Hstore').
  exists st'. split_and!; try done.
  - unfold SymbolTable.find_name. rewrite Ht'.
    unfold sym_search. rewrite Hk.
    rewrite bool_decide_eq_true_2 by eauto. by destruct (saved_table st').
  - intros id' Hid'. unfold SymbolTable.find_name.
    rewrite Ht', Hsav', Ht. unfold sym_search. rewrite (Hother id' Hid').
    destruct (ht_search shift_hash key_strcmp (Some t) (Some id')); [done|].
    destruct (saved_table st) as [sav|]; [|done].
    destruct (ht_search shift_hash key_strcmp (Some sav) (Some id')) as [q|];
      [|done].
    destruct (store st !! q) as [r'|] eqn:Hq.
    + destruct (Hstore' q r' Hq) as (r'' & -> & ->). done.
    + (* the object of the saved table is not in the store *)
      destruct (store st' !! q) as [r''|] eqn:Hq'; [|done].
      exfalso. revert Hrun Hq'.
      unfold SymbolTable.insert_name, SymbolTable.sym_insert.
      rewrite Ht, Hins. simpl. rewrite Hr.
      destruct (IS_VARIABLE (type r)); intros [= <-]; simpl.
      * destruct (decide (q = p)) as [->|Hne]; [congruence|].
        rewrite lookup_insert_ne by done. congruence.
      * congruence.
Qed.

(** *** Subroutine scopes *)

(** X10: [open_subroutine] with a name that the active table does not hold
    returns [TRUE]: the active table, with the name bound to the object, is
    the saved table, the new active table is empty and the offset counter
    is 1; from inside, [find_name] finds the name exactly when the object
    denotes a callable.  With a name that the active table holds it returns
    [FALSE] and opens no scope: the saved table, the counter and the
    bindings of the active table are as before.  With no active table it
    returns [FALSE] and changes nothing. *)
Theorem open_subroutine_scope st t id p :
  EXISTS ≠ EXIT_SUCCESS →
  table st = Some t → sym_wf t → size t ≤ 2 ^ 30 →
  (sym_search (Some t) (Some id) = None →
   ∃ t', open_subroutine EXISTS (Some id) (Some p) st
         = Some (true, {| table := Some (ht_init float_0_75);
                          saved_table := Some t';
                          curr_offset := 1;
                          store := store st |}) ∧
         sym_wf t' ∧
         sym_search (Some t') (Some id) = Some p ∧
         (∀ id', key_strcmp id' id ≠ 0 →
                 sym_search (Some t') (Some id') = sym_search (Some t) (Some id')) ∧
         ∀ r, store st !! p = Some r →
              find_name (Some id)
                {| table := Some (ht_init float_0_75); saved_table := Some t';
                   curr_offset := 1; store := store st |}
              = Some (IS_CALLABLE_TYPE (type r),
                      if IS_CALLABLE_TYPE (type r) then Some p else None)) ∧
  (∀ q, sym_search (Some t) (Some id) = Some q →
        ∃ st' t', open_subroutine EXISTS (Some id) (Some p) st = Some (false, st') ∧
                  table st' = Some t' ∧
                  saved_table st' = saved_table st ∧
                  curr_offset st' = curr_offset st ∧ store st' = store st ∧
                  ∀ id', sym_search (Some t') (Some id')
                         = sym_search (Some t) (Some id')) ∧
  open_subroutine EXISTS (Some id) (Some p) (with_table st None)
  = Some (false, with_table st None).
Proof.
  intros Hne Ht Hwf Hsize.
  destruct (after_growth_defined shift_hash key_strcmp sym_ok t Hwf Hsize)
    as [t1 Hgrow].
  split_and!; [| |done].
  - intros Habs.
    destruct (ht_insert_absent EXISTS shift_hash key_strcmp sym_ok t t1 id p
                Hwf Hgrow)
      as (t' & Hins & Hwf' & _ & _ & _ & _ & Hk & Hother).
    { by apply (search_None_inv shift_hash key_strcmp sym_ok). }
    exists t'. split_and!; try done.
    + unfold open_subroutine, SymbolTable.sym_insert. by rewrite Ht, Hins.
    + intros r Hr. unfold SymbolTable.find_name.
      cbn [SymbolTable.table SymbolTable.saved_table SymbolTable.store].
      unfold sym_search in *.
      rewrite (search_absent shift_hash key_strcmp (ht_init float_0_75) id).
      * unfold sym_search. rewrite Hk, Hr.
        by destruct (IS_CALLABLE_TYPE (type r)).
      * intros e He. by apply elem_of_nil in He.
  - intros q Hq.
    apply search_Some_inv in Hq as (e & He & Hcmp & _).
    destruct (ht_insert_present EXISTS shift_hash key_strcmp sym_ok t id p e
                Hwf Hsize He Hcmp) as (t1' & Hgrow' & Hins).
    destruct (after_growth_spec shift_hash key_strcmp sym_ok t t1' Hwf Hgrow')
      as (Hwf1 & Hperm1 & _).
    eexists _, t1'. split_and!.
    + unfold open_subroutine, SymbolTable.sym_insert. rewrite Ht, Hins.
      by destruct (Z.eqb_spec EXISTS EXIT_SUCCESS).
    + done.
    + done.
    + done.
    + done.
    + intros id'. by apply (search_perm shift_hash key_strcmp sym_ok).
Qed.

(** X11: a subroutine scope from [open_subroutine] to [close_subroutine],
    with items of distinct names and objects inserted in between:
    [close_subroutine] makes the saved table the active one, with the name
    of the subroutine bound in it beside the bindings it had; the objects
    of the items are released and every other object is left as it was;
    and the offset counter is 0, whatever it was before the subroutine was
    opened. *)
Theorem subroutine_scope_round_trip st t id p items :
  table st = Some t → sym_wf t → size t ≤ 2 ^ 30 →
  sym_search (Some t) (Some id) = None →
  distinct_pairs key_strcmp items → NoDup items.*2 →
  (∀ q, q ∈ items.*2 → is_Some (store st !! q)) →
  Z.of_nat (length items) < 2 ^ 24 →
  ∃ st1 st2 st3 t',
    open_subroutine EXISTS (Some id) (Some p) st = Some (true, st1) ∧
    insert_names items st1 = Some (replicate (length items) true, st2) ∧
    close_subroutine st2 = Some st3 ∧
    table st3 = Some t' ∧ saved_table st3 = None ∧
    sym_search (Some t') (Some id) = Some p ∧
    (∀ id', key_strcmp id' id ≠ 0 →
            sym_search (Some t') (Some id') = sym_search (Some t) (Some id')) ∧
    get_variables_width st3 = 0 ∧
    ∀ q, store st3 !! q = if decide (q ∈ items.*2) then None else store st !! q.
Proof.
  intros Ht Hwf Hsize Habs Hd Hnd Hlive Hlen.
  destruct (after_growth_defined shift_hash key_strcmp sym_ok t Hwf Hsize)
    as [t1 Hgrow].
  destruct (ht_insert_absent EXISTS shift_hash key_strcmp sym_ok t t1 id p
              Hwf Hgrow)
    as (t' & Hins & Hwf' & _ & _ & _ & _ & Hk & Hother).
  { by apply (search_None_inv shift_hash key_strcmp sym_ok). }
  set (st1 := {| table := Some (ht_init float_0_75); saved_table := Some t';
                 curr_offset := 1; store := store st |}).
  destruct (insert_names_run items st1 (ht_init float_0_75))
    as (st2 & t2 & Hrun & Ht2 & Hwf2 & Hsav2 & Hperm2 & _ & Hframe2 & Hobj2);
    try done; simpl; try lia.
  { apply ht_init_wf. }
  { intros id' p' e _ He. by apply elem_of_nil in He. }
  rewrite app_nil_r in Hperm2.
  assert (Hvals : value <$> ht_entries t2 ≡ₚ items.*2).
  { rewrite Hperm2, <- list_fmap_compose. done. }
  assert (Hown : owns_values t2 (store st2)).
  { split; [by rewrite Hvals|].
    intros e He. rewrite Hperm2 in He.
    apply list_elem_of_fmap in He as ([id' p'] & -> & Hin).
    apply list_elem_of_lookup in Hin as [i Hi].
    destruct (Hlive p') as [r' Hr'].
    { apply list_elem_of_fmap. exists (id', p'). split; [done|].
      by eapply list_elem_of_lookup_2. }
    change (value (entry_of (id', p'))) with p'.
    rewrite (Hobj2 i id' p' r' Hi Hr'). by eexists. }
  destruct (free_entries_defined (ht_entries t2) (store st2)) as [m3 Hm3];
    [apply Hown|apply Hown|].
  destruct (free_entries_inv _ _ _ Hm3) as (_ & _ & Hstore3).
  exists st1, st2,
    {| table := Some t'; saved_table := None; curr_offset := 0; store := m3 |}, t'.
  split_and!; try done.
  - unfold open_subroutine, SymbolTable.sym_insert. by rewrite Ht, Hins.
  - unfold close_subroutine. rewrite Ht2.
    rewrite (release_symbol_table_unfold st2 t2 Ht2 Hwf2), Hm3.
    by rewrite Hsav2.
  - intros q. simpl. rewrite Hstore3.
    case_decide as Hq; case_decide as Hq'; try done.
    + destruct Hq'. by rewrite <- Hvals.
    + destruct Hq. by rewrite Hvals.
    + by apply Hframe2.
Qed.

(** The two functions that leave a scope just initialised. *)
Lemma init_symbol_table_fresh st :
  table (init_symbol_table st) = Some (ht_init float_0_75) ∧
  curr_offset (init_symbol_table st) = 1 ∧
  store (init_symbol_table st) = store st.
Proof. done. Qed.

Lemma open_subroutine_fresh st oid oprop st' :
  open_subroutine EXISTS oid oprop st = Some (true, st') →
  table st' = Some (ht_init float_0_75) ∧ curr_offset st' = 1 ∧
  store st' = store st.
Proof.
  unfold open_subroutine. destruct (table st) as [t|]; [|done].
  destruct (SymbolTable.sym_insert EXISTS (Some t) oid oprop) as [[rc ot]|];
    [|done].
  destruct (negb (rc =? EXIT_SUCCESS)); [done|]. by intros [= <-].
Qed.

End Facts.


(** *** The claims at a concrete symbol table *)

Lemma find_name_scopes_witness :
  find_name (λ b, b) (Some "g") example_nested = Some (false, None) ∧
  find_name (λ b, b) (Some "f") example_nested = Some (true, Some 2%positive) ∧
  find_name (λ b, b) (Some "y") example_nested = Some (true, Some 3%positive) ∧
  ∃ st', close_subroutine example_nested = Some st' ∧
         table st' = saved_table example_nested ∧ saved_table st' = None ∧
         find_name (λ b, b) (Some "y") st' = Some (false, None).
Proof.
  pose (act := default (ht_init float_0_75) (table example_nested)).
  pose (sav := default (ht_init float_0_75) (saved_table example_nested)).
  assert (Hact : table example_nested = Some act) by (vm_compute; reflexivity).
  assert (Hsav : saved_table example_nested = Some sav) by (vm_compute; reflexivity).
  destruct (find_name_scopes bool (λ b, b) example_nested act sav "g" Hact Hsav)
    as [Hg _].
  destruct (find_name_scopes bool (λ b, b) example_nested act sav "f" Hact Hsav)
    as [Hf _].
  destruct (find_name_scopes bool (λ b, b) example_nested act sav "y" Hact Hsav)
    as [_ Hy].
  split; [|split].
  - apply (Hg eq_refl 1%positive {| type := false; offset := 1 |}); reflexivity.
  - apply (Hf eq_refl 2%positive {| type := true; offset := 0 |}); reflexivity.
  - destruct (Hy 3%positive) as [Hfound (st' & Hclose & Ht' & Hs' & Habsent)].
    + reflexivity.
    + reflexivity.
    + apply (ht_insert_all_wf (-1) shift_hash key_strcmp sym_ok
               [("y", 3%positive)] (ht_init float_0_75));
        [apply ht_init_wf|vm_compute; reflexivity].
    + split.
      * vm_compute. apply NoDup_singleton.
      * intros e He. apply list_elem_of_In in He. vm_compute in He.
        destruct He as [<-|[]]. by eexists.
    + split; [exact Hfound|]. exists st'. rewrite Hsav. by rewrite Ht'.
Defined.

Lemma insert_name_failure_witness :
  ∃ st', insert_name (-1) negb (Some "g") (Some 3%positive) example_global
         = Some (false, st') ∧
         curr_offset st' = curr_offset example_global ∧
         store st' = store example_global.
Proof.
  eexists. split; [vm_compute; reflexivity|].
  match goal with
  | |- curr_offset ?st' = _ ∧ _ =>
      destruct (insert_name_failure (-1) bool negb example_global
                  (Some "g") (Some 3%positive)) as [Hfail _];
      destruct (Hfail st') as (Hoff & Hstore & _);
      [vm_compute; reflexivity|]
  end.
  split; [exact Hoff|exact Hstore].
Defined.

Lemma insert_names_offsets_witness :
  ∃ st',
    insert_names (-1) negb example_items (init_symbol_table example_start)
    = Some ([true; true; true], st') ∧
    get_variables_width st' = 3 ∧
    store st' !! 1%positive = Some {| type := false; offset := 1 |} ∧
    store st' !! 2%positive = Some {| type := true; offset := 0 |} ∧
    store st' !! 3%positive = Some {| type := false; offset := 2 |}.
Proof.
  destruct (insert_names_offsets (-1) bool (λ b, b) negb
              (init_symbol_table example_start) example_items)
    as (st' & Hrun & Hwidth & Hitems).
  - reflexivity.
  - reflexivity.
  - simpl. split_and!; try done;
      intros k' v' Hin; apply list_elem_of_In in Hin; simpl in Hin;
      intuition (simplify_eq; vm_compute; discriminate).
  - apply NoDup_ListNoDup. repeat constructor; simpl; intuition discriminate.
  - intros p Hp. apply list_elem_of_In in Hp. simpl in Hp.
    intuition (subst; by eexists).
  - vm_compute. reflexivity.
  - exists st'. split; [exact Hrun|]. split; [exact Hwidth|].
    split; [|split].
    + exact (proj2 (Hitems 0%nat "x" 1%positive _ eq_refl eq_refl)).
    + exact (proj2 (Hitems 1%nat "f" 2%positive _ eq_refl eq_refl)).
    + exact (proj2 (Hitems 2%nat "y" 3%positive _ eq_refl eq_refl)).
Defined.

(** *** The hash and the comparison of names *)

Lemma strcmp_swap s1 s2 : strcmp s2 s1 = - strcmp s1 s2.
Proof.
  revert s2. induction s1 as [|c1 r1 IH]; intros [|c2 r2]; simpl; try lia.
  destruct (Z.eqb_spec c1 c2), (Z.eqb_spec c2 c1); try lia. apply IH.
Qed.

(** X12: [shift_hash] gives an index below the capacity; [key_strcmp] is 0
    exactly on two names with the same characters, and such names have the
    same [shift_hash]; [key_strcmp] is negative one way round exactly when
    it is positive the other way round.  So the two functions are as the
    hash table needs them. *)
Theorem shift_hash_key_strcmp k1 k2 s :
  0 < s →
  0 ≤ shift_hash k1 s < s ∧
  (key_strcmp k1 k2 = 0 ↔ c_str k1 = c_str k2) ∧
  (key_strcmp k1 k2 = 0 → shift_hash k1 s = shift_hash k2 s) ∧
  (key_strcmp k1 k2 < 0 ↔ 0 < key_strcmp k2 k1) ∧
  hash_cmp_ok shift_hash key_strcmp.
Proof.
  intros Hs.
  split; [by apply (hash_range _ _ sym_ok)|].
  split; [apply key_strcmp_eq|].
  split; [apply (hash_cmp _ _ sym_ok)|].
  split; [|apply sym_ok].
  unfold key_strcmp. rewrite (strcmp_swap (c_str k1) (c_str k2)). lia.
Qed.

Lemma shift_hash_key_strcmp_witness :
  0 ≤ shift_hash "count" 13 < 13 ∧
  (key_strcmp "count" "total" = 0 ↔ c_str "count" = c_str "total") ∧
  (key_strcmp "count" "total" = 0 → shift_hash "count" 13 = shift_hash "total" 13) ∧
  (key_strcmp "count" "total" < 0 ↔ 0 < key_strcmp "total" "count") ∧
  hash_cmp_ok shift_hash key_strcmp.
Proof. apply (shift_hash_key_strcmp "count" "total" 13). lia. Defined.

Lemma fold_left_sum_perm (l1 l2 : list Z) :
  l1 ≡ₚ l2 →
  ∀ h, fold_left (λ hash c, wrap_uint (hash + char_value c)) l1 h
       = fold_left (λ hash c, wrap_uint (hash + char_value c)) l2 h.
Proof.
  induction 1 as [|x l1 l2 _ IH|x y l|l1 l2 l3 _ IH1 _ IH2]; intros h; simpl.
  - done.
  - apply IH.
  - f_equal. unfold wrap_uint. rewrite !Zplus_mod_idemp_l. f_equal. lia.
  - by rewrite IH1.
Qed.

(** X13: the hash compiled with [DEBUG_SYMBOL_TABLE] gives an index below
    the capacity, and the same index for two names made of the same
    characters in any order. *)
Theorem shift_hash_debug_anagrams k1 k2 s :
  0 < s → c_str k1 ≡ₚ c_str k2 →
  0 ≤ shift_hash_debug k1 s < s ∧
  shift_hash_debug k1 s = shift_hash_debug k2 s.
Proof.
  intros Hs Hperm. unfold shift_hash_debug. split.
  - apply Z.mod_pos_bound. lia.
  - by rewrite (fold_left_sum_perm _ _ Hperm).
Qed.

Lemma shift_hash_debug_anagrams_witness :
  0 ≤ shift_hash_debug "on" 13 < 13 ∧
  shift_hash_debug "on" 13 = shift_hash_debug "no" 13.
Proof.
  apply (shift_hash_debug_anagrams "on" "no" 13); [lia|].
  vm_compute. apply perm_swap.
Defined.

(** *** The further properties at a concrete symbol table *)

Lemma example_global_table :
  ∃ t, table example_global = Some t ∧
       ht_wf shift_hash key_strcmp t ∧ size t ≤ 2 ^ 30.
Proof.
  eexists. split; [vm_compute; reflexivity|]. split; [|vm_compute; discriminate].
  apply (ht_insert_all_wf (-1) shift_hash key_strcmp sym_ok
           [("g", 1%positive)] (ht_init float_0_75));
    [apply ht_init_wf|vm_compute; reflexivity].
Qed.

Lemma release_symbol_table_owned_witness :
  ∃ t, table example_nested = Some t ∧
       (is_Some (release_symbol_table example_nested)
        ↔ owns_values t (store example_nested)) ∧
       (∀ m', release_symbol_table example_nested = Some m' →
              ∀ q, m' !! q = if decide (q ∈ value <$> ht_entries t) then None
                             else store example_nested !! q) ∧
       release_symbol_table (with_table example_nested None)
       = Some (store example_nested).
Proof.
  exists (default (ht_init float_0_75) (table example_nested)).
  split; [vm_compute; reflexivity|].
  apply (release_symbol_table_owned bool example_nested).
  - vm_compute. reflexivity.
  - apply (ht_insert_all_wf (-1) shift_hash key_strcmp sym_ok
             [("y", 3%positive)] (ht_init float_0_75));
      [apply ht_init_wf|vm_compute; reflexivity].
Defined.

Lemma find_name_result_witness :
  true = bool_decide (is_Some (Some 2%positive)) ∧
  (∀ p, Some 2%positive = Some p →
        ∃ id t e, Some "f" = Some id ∧
                  (table example_nested = Some t
                   ∨ saved_table example_nested = Some t) ∧
                  e ∈ ht_entries t ∧ key_strcmp id (key e) = 0 ∧ value e = p) ∧
  (∀ p, sym_search (table example_nested) (Some "f") = Some p →
        true = true ∧ Some 2%positive = Some p).
Proof.
  apply (find_name_result bool (λ b, b) example_nested (Some "f") true
           (Some 2%positive)).
  vm_compute. reflexivity.
Defined.

Lemma insert_name_then_find_witness :
  ∃ st', insert_name (-1) negb (Some "h") (Some 3%positive) example_global
         = Some (true, st') ∧
         find_name (λ b, b) (Some "h") st' = Some (true, Some 3%positive) ∧
         saved_table st' = saved_table example_global ∧
         ∀ id', key_strcmp id' "h" ≠ 0 →
                find_name (λ b, b) (Some id') st'
                = find_name (λ b, b) (Some id') example_global.
Proof.
  destruct example_global_table as (t & Ht & Hwf & Hsize).
  apply (insert_name_then_find (-1) bool (λ b, b) negb example_global t "h"
           3%positive {| type := false; offset := 0 |} Ht Hwf Hsize).
  - rewrite <- Ht. vm_compute. reflexivity.
  - vm_compute. reflexivity.
Defined.

Lemma open_subroutine_scope_witness :
  ∃ t', open_subroutine (-1) (Some "f") (Some 2%positive) example_global
        = Some (true, {| table := Some (ht_init float_0_75);
                         saved_table := Some t';
                         curr_offset := 1;
                         store := store example_global |}) ∧
        sym_search (Some t') (Some "f") = Some 2%positive ∧
        find_name (λ b, b) (Some "f")
          {| table := Some (ht_init float_0_75); saved_table := Some t';
             curr_offset := 1; store := store example_global |}
        = Some (true, Some 2%positive).
Proof.
  destruct example_global_table as (t & Ht & Hwf & Hsize).
  destruct (open_subroutine_scope (-1) bool (λ b, b) example_global t "f"
              2%positive) as [Hopen _]; try done.
  destruct Hopen as (t' & Hrun & _ & Hf & _ & Hfind).
  { rewrite <- Ht. vm_compute. reflexivity. }
  exists t'. split; [exact Hrun|]. split; [exact Hf|].
  apply (Hfind {| type := true; offset := 0 |}). vm_compute. reflexivity.
Defined.

Lemma subroutine_scope_round_trip_witness :
  ∃ st1 st2 st3 t',
    open_subroutine (-1) (Some "f") (Some 2%positive) example_global
    = Some (true, st1) ∧
    insert_names (-1) negb [("y", 3%positive)] st1 = Some ([true], st2) ∧
    close_subroutine st2 = Some st3 ∧
    table st3 = Some t' ∧ saved_table st3 = None ∧
    sym_search (Some t') (Some "f") = Some 2%positive ∧
    get_variables_width st3 = 0 ∧
    store st3 !! 3%positive = None ∧
    store st3 !! 1%positive = store example_global !! 1%positive.
Proof.
  destruct example_global_table as (t & Ht & Hwf & Hsize).
  destruct (subroutine_scope_round_trip (-1) bool negb example_global t "f"
              2%positive [("y", 3%positive)] Ht Hwf Hsize)
    as (st1 & st2 & st3 & t' & Hopen & Hins & Hclose & Ht' & Hsav' & Hf & _
        & Hwidth & Hstore).
  - rewrite <- Ht. vm_compute. reflexivity.
  - simpl. split; [|done]. intros k' v' Hin. by apply elem_of_nil in Hin.
  - apply NoDup_singleton.
  - intros q Hq. apply list_elem_of_singleton in Hq as ->. by eexists.
  - vm_compute. reflexivity.
  - exists st1, st2, st3, t'. by split_and!.
Defined.

End SymbolTableFacts.

(** ** The scanner *)

Module ScannerFacts.

Import SymbolTable Scanner.

Section Facts.

Variable MAX_ID_LEN : Z.
Variable usable_size : Z → Z.

Implicit Types (s : scanner) (c : ascii) (input rest : list ascii).

Lemma byte_of_not_EOF c : (byte_of c =? EOF) = false.
Proof. pose proof (SymbolTableFacts.byte_of_range c). unfold EOF. lia. Qed.

Lemma reads_next_char s c rest : reads s (c :: rest) → reads (next_char s) rest.
Proof.
  intros [_ Hsrc]. unfold next_char. rewrite Hsrc.
  destruct rest as [|c' rest]; simpl.
  - done.
  - by destruct (byte_of c' =? 10).
Qed.

Lemma reads_with_position s p input : reads s input → reads (with_position s p) input.
Proof. by destruct input. Qed.

Lemma reads_init input s0 : reads (init_scanner input s0) input.
Proof.
  unfold init_scanner, next_char. destruct input as [|c rest]; simpl; [done|].
  by destruct (byte_of c =? 10).
Qed.

Lemma reads_src_length s input :
  reads s input → length (src_file s) = pred (length input).
Proof. destruct input as [|c rest]; intros [_ ->]; done. Qed.

(** *** Whitespace *)

Lemma skip_whitespace_run ws :
  ∀ rest s is_it rounds,
    Forall (λ c, isspace (byte_of c) = true) ws →
    match rest with [] => True | c :: _ => isspace (byte_of c) = false end →
    reads s (ws ++ rest) → (length ws ≤ rounds)%nat →
    ∃ s' is_it', skip_whitespace rounds s is_it = Done (s', is_it') ∧
                 reads s' rest.
Proof.
  induction ws as [|c ws IH]; intros rest s is_it rounds Hws Hrest Hreads Hrounds.
  - simpl in Hreads. exists s, is_it. split; [|done].
    destruct rest as [|c rest]; destruct Hreads as [Hch _];
      destruct rounds; simpl; rewrite Hch; try rewrite Hrest; done.
  - apply Forall_cons in Hws as [Hc Hws].
    destruct rounds as [|rounds]; [simpl in Hrounds; lia|].
    pose proof Hreads as [Hch _]. simpl in Hrounds.
    pose proof (reads_next_char s c (ws ++ rest) Hreads) as Hnext.
    cbn [skip_whitespace]. rewrite Hch, Hc.
    destruct ((byte_of c =? 32) || (byte_of c =? 13) || (byte_of c =? 11)
              || (byte_of c =? 10) || (byte_of c =? 12)) eqn:Hfive.
    + destruct (ch (next_char s) =? EOF).
      * apply IH; [done|done| |lia]. by do 2 apply reads_with_position.
      * apply IH; [done|done|done|lia].
    + assert (Htab : (byte_of c =? 9) = true).
      { unfold isspace in Hc. lia. }
      rewrite Htab. apply IH; [done|done| |lia]. by apply reads_with_position.
Qed.

(** *** Numbers *)

Lemma decimal_step_le ds v :
  0 ≤ v → Forall (λ c, isdigit (byte_of c) = true) ds →
  v ≤ fold_left (λ v c, 10 * v + (byte_of c - 48)) ds v.
Proof.
  revert v. induction ds as [|c ds IH]; intros v Hv Hds; simpl; [lia|].
  apply Forall_cons in Hds as [Hc Hds]. unfold isdigit in Hc.
  etrans; [|apply IH; [lia|done]]. lia.
Qed.

Lemma process_number_loop_run ds :
  ∀ c rest s v rounds,
    isdigit (byte_of c) = true →
    Forall (λ c, isdigit (byte_of c) = true) ds →
    match rest with [] => True | c' :: _ => isdigit (byte_of c') = false end →
    reads s (c :: ds ++ rest) → (length ds ≤ rounds)%nat →
    0 ≤ v →
    fold_left (λ v c, 10 * v + (byte_of c - 48)) (c :: ds) v ≤ INT_MAX →
    ∃ s', process_number_loop rounds s v (wrap_int (byte_of c - 48))
          = Done (s', fold_left (λ v c, 10 * v + (byte_of c - 48)) (c :: ds) v) ∧
          reads s' rest.
Proof.
  induction ds as [|c' ds IH];
    intros c rest s v rounds Hc Hds Hrest Hreads Hrounds Hv Hmax.
  - simpl in *. unfold isdigit in Hc. unfold INT_MAX in Hmax.
    pose proof (reads_next_char s c rest Hreads) as Hnext.
    exists (next_char s). split; [|done].
    assert (Hstep : wrap_int (wrap_int (10 * v) + wrap_int (byte_of c - 48))
                    = 10 * v + (byte_of c - 48)).
    { rewrite (wrap_int_small (10 * v)), (wrap_int_small (byte_of c - 48)),
        wrap_int_small by lia. done. }
    assert (Hnd : isdigit (ch (next_char s)) = false).
    { destruct rest as [|c' rest]; destruct Hnext as [-> _]; done. }
    destruct rounds; simpl; rewrite Hstep, Hnd; simpl;
      destruct (Z.ltb_spec (10 * v + (byte_of c - 48)) 0);
      destruct (Z.gtb_spec (10 * v + (byte_of c - 48)) INT_MAX);
      unfold INT_MAX in *; first [lia | done].
  - apply Forall_cons in Hds as [Hc' Hds].
    destruct rounds as [|rounds]; [simpl in Hrounds; lia|].
    simpl in Hrounds.
    pose proof (reads_next_char s c _ Hreads) as Hnext.
    pose proof Hnext as [Hch' _].
    cbn [fold_left] in Hmax |- *.
    assert (Hv' : 0 ≤ 10 * v + (byte_of c - 48))
      by (unfold isdigit in Hc; lia).
    pose proof (decimal_step_le (c' :: ds) _ Hv' ltac:(by constructor)) as Hle.
    cbn [fold_left] in Hle.
    assert (Hstep : wrap_int (wrap_int (10 * v) + wrap_int (byte_of c - 48))
                    = 10 * v + (byte_of c - 48)).
    { unfold isdigit in Hc. unfold INT_MAX in Hmax.
      rewrite (wrap_int_small (10 * v)), (wrap_int_small (byte_of c - 48)),
        wrap_int_small by lia. done. }
    cbn [process_number_loop]. rewrite Hstep, Hch', Hc'. simpl negb. cbv iota.
    destruct (Z.ltb_spec (10 * v + (byte_of c - 48)) 0); [lia|].
    destruct (Z.gtb_spec (10 * v + (byte_of c - 48)) INT_MAX); [lia|].
    simpl orb. cbv iota.
    apply (IH c' rest (next_char s)); try done; lia.
Qed.

(** C8: for an input made of whitespace, the digits of a number of value at
    most [INT_MAX] and whitespace again, the first call of [get_token]
    returns a [TOK_NUM] token with that value and the next call returns the
    [TOK_EOF] token. *)
Theorem get_token_number ws1 ds ws2 token token' s0 :
  Forall (λ c, isspace (byte_of c) = true) ws1 →
  Forall (λ c, isspace (byte_of c) = true) ws2 →
  ds ≠ [] → Forall (λ c, isdigit (byte_of c) = true) ds →
  decimal_value ds ≤ INT_MAX →
  ∃ t1 s1 t2 s2,
    get_token MAX_ID_LEN usable_size token (init_scanner (ws1 ++ ds ++ ws2) s0)
    = Done (t1, s1) ∧
    type t1 = TOK_NUM ∧ value t1 = decimal_value ds ∧
    get_token MAX_ID_LEN usable_size token' s1 = Done (t2, s2) ∧
    type t2 = TOK_EOF ∧ ch s2 = EOF.
Proof.
  intros Hws1 Hws2 Hne Hds Hmax.
  destruct ds as [|c ds]; [done|]. clear Hne.
  pose proof Hds as Hds'. apply Forall_cons in Hds' as [Hc Hds'].
  pose proof (reads_init (ws1 ++ (c :: ds) ++ ws2) s0) as Hreads.
  assert (Hdig_not_space : isspace (byte_of c) = false).
  { unfold isdigit in Hc. unfold isspace. lia. }
  (* the first call *)
  unfold get_token at 1. cbn [get_token_rec].
  destruct (skip_whitespace_run ws1 ((c :: ds) ++ ws2) _ 0
              (S (length (src_file (init_scanner (ws1 ++ (c :: ds) ++ ws2) s0))))
              Hws1 Hdig_not_space Hreads)
    as (sa & is_it & -> & Hsa).
  { rewrite (reads_src_length _ _ Hreads), !length_app. simpl. lia. }
  set (sb := if is_it =? 0
             then with_position sa {| line := ln sa; col := cn sa |} else sa).
  assert (Hsb : reads sb ((c :: ds) ++ ws2)).
  { subst sb. destruct (is_it =? 0); [by apply reads_with_position|done]. }
  pose proof Hsb as [Hchb _].
  rewrite Hchb, byte_of_not_EOF. simpl negb. cbv iota.
  assert (Hnot_alpha : isalpha (byte_of c) || (byte_of c =? 95) = false).
  { unfold isdigit in Hc. unfold isalpha. lia. }
  rewrite Hnot_alpha, Hc.
  unfold process_number. rewrite Hchb.
  destruct (process_number_loop_run ds c ws2 sb 0 (length (src_file sb)))
    as (s1 & -> & Hs1); try done.
  { destruct ws2 as [|w ws2]; [done|].
    apply Forall_cons in Hws2 as [Hw _]. unfold isspace in Hw. unfold isdigit. lia. }
  { rewrite (reads_src_length _ _ Hsb), length_app. simpl. lia. }
  eexists _, s1. 
  (* the second call *)
  unfold get_token. cbn [get_token_rec].
  destruct (skip_whitespace_run ws2 [] s1 0 (S (length (src_file s1))))
    as (sc & is_it' & -> & Hsc); try done.
  { by rewrite app_nil_r. }
  { rewrite (reads_src_length _ _ Hs1). lia. }
  set (sd := if is_it' =? 0
             then with_position sc {| line := ln sc; col := cn sc |} else sc).
  assert (Hsd : reads sd []).
  { subst sd. destruct (is_it' =? 0); [by apply (reads_with_position _ _ [])|done]. }
  destruct Hsd as [Hchd _]. rewrite Hchd. simpl.
  eexists _, sd. split_and!; done.
Qed.

(** *** Reading on: the lines and the columns *)

Lemma byte_of_inj c c' : byte_of c = byte_of c' → c = c'.
Proof.
  unfold byte_of. intros H. apply N2Z.inj in H.
  by rewrite <- (ascii_N_embedding c), <- (ascii_N_embedding c'), H.
Qed.

Lemma reads_unique s input input' : reads s input → reads s input' → input = input'.
Proof.
  destruct input as [|c rest], input' as [|c' rest']; intros [Hch Hsrc] [Hch' Hsrc'].
  - done.
  - rewrite Hch in Hch'. symmetry in Hch'.
    pose proof (byte_of_not_EOF c'). lia.
  - rewrite Hch in Hch'. pose proof (byte_of_not_EOF c). lia.
  - rewrite Hch in Hch'. apply byte_of_inj in Hch' as ->. congruence.
Qed.

Lemma reads_next_char_end s : reads s [] → reads (next_char s) [].
Proof. intros [_ Hsrc]. unfold next_char. rewrite Hsrc. done. Qed.

Lemma reads_next_chars k : ∀ s input, reads s input → reads (next_chars k s) (drop k input).
Proof.
  induction k as [|k IH]; intros s input Hreads; [by rewrite drop_0|].
  destruct input as [|c rest]; simpl.
  - specialize (IH _ [] (reads_next_char_end _ Hreads)).
    by rewrite drop_nil in IH.
  - apply IH. by eapply reads_next_char.
Qed.

Lemma next_chars_succ k s : next_chars (S k) s = next_char (next_chars k s).
Proof. revert s. induction k as [|k IH]; intros s; [done|]. simpl. by rewrite <- IH. Qed.

Lemma next_chars_add k k' s : next_chars (k + k') s = next_chars k' (next_chars k s).
Proof. revert s. induction k as [|k IH]; intros s; [done|]. simpl. apply IH. Qed.

Lemma same_reading_refl s : same_reading s s.
Proof. by repeat split. Qed.

Lemma same_reading_trans s1 s2 s3 :
  same_reading s1 s2 → same_reading s2 s3 → same_reading s1 s3.
Proof.
  intros (? & ? & ? & ? & ?) (? & ? & ? & ? & ?). repeat split; congruence.
Qed.

Lemma same_reading_with_position s p : same_reading (with_position s p) s.
Proof. by repeat split. Qed.

Lemma same_reading_next_char s s' :
  same_reading s s' → same_reading (next_char s) (next_char s').
Proof.
  intros (Hsrc & Hch & Hcn & Hln & Hposit). unfold next_char.
  rewrite Hsrc, Hcn, Hln, Hposit.
  destruct (src_file s') as [|c rest]; simpl; [by repeat split|].
  destruct (byte_of c =? 10); by repeat split.
Qed.

Lemma same_reading_next_chars k s s' :
  same_reading s s' → same_reading (next_chars k s) (next_chars k s').
Proof.
  revert s s'. induction k as [|k IH]; intros s s' H; [done|].
  simpl. apply IH. by apply same_reading_next_char.
Qed.

Lemma same_reading_step s s' k :
  same_reading s' (next_chars k (next_char s)) →
  same_reading s' (next_chars (S k) s).
Proof. done. Qed.

Lemma same_reading_reads s s' input : same_reading s' s → reads s input → reads s' input.
Proof.
  intros (Hsrc & Hch & _). unfold reads. rewrite Hsrc, Hch. done.
Qed.

Lemma next_char_position s : position (next_char s) = position s.
Proof.
  unfold next_char. destruct (src_file s) as [|c rest]; simpl; [done|].
  by destruct (byte_of c =? 10).
Qed.

Lemma newlines_bounds l : 0 ≤ newlines l ≤ Z.of_nat (length l).
Proof.
  unfold newlines. split; [lia|]. apply inj_le, length_filter.
Qed.

Lemma newlines_snoc l c :
  newlines (l ++ [c]) = newlines l + (if byte_of c =? 10 then 1 else 0).
Proof.
  unfold newlines. rewrite filter_app, length_app, filter_cons, filter_nil.
  destruct (Z.eqb_spec (byte_of c) 10).
  - rewrite decide_True by done. simpl. lia.
  - rewrite decide_False by done. simpl. lia.
Qed.

Lemma column_snoc l c cn0 :
  column (l ++ [c]) cn0 = if byte_of c =? 10 then 0 else column l cn0 + 1.
Proof. revert cn0. induction l as [|c' l IH]; intros cn0; simpl; [done|apply IH]. Qed.

Lemma column_bounds l cn0 : 0 ≤ cn0 → 0 ≤ column l cn0 ≤ cn0 + Z.of_nat (length l).
Proof.
  revert cn0. induction l as [|c l IH]; intros cn0 Hcn0; simpl; [lia|].
  destruct (byte_of c =? 10).
  - specialize (IH 0 ltac:(lia)). lia.
  - specialize (IH (cn0 + 1) ltac:(lia)). lia.
Qed.

Lemma scans_reads s before ahead : scans s before ahead → reads s ahead.
Proof. by intros [? _]. Qed.

Lemma scans_next_char s before c c' rest :
  scans s before (c :: c' :: rest) →
  scans (next_char s) (before ++ [c]) (c' :: rest).
Proof.
  intros (Hreads & Hlen & Hln & Hcn).
  split; [by eapply reads_next_char|].
  split; [by rewrite <- app_assoc|].
  destruct Hreads as [_ Hsrc]. unfold next_char. rewrite Hsrc.
  unfold read_position in *. simpl in Hln, Hcn |- *.
  rewrite newlines_snoc, column_snoc.
  pose proof (newlines_bounds (before ++ [c])) as Hnb.
  pose proof (column_bounds (before ++ [c]) 0 ltac:(lia)) as Hcb.
  rewrite !length_app in Hlen, Hnb, Hcb. simpl in Hlen, Hnb, Hcb.
  destruct (byte_of c' =? 10); simpl.
  - split; [|done]. rewrite Hln, wrap_int_small by lia. lia.
  - split; [lia|]. rewrite Hcn. apply wrap_int_small. lia.
Qed.

Lemma scans_next_chars l :
  ∀ s before c rest,
    scans s before (l ++ c :: rest) →
    scans (next_chars (length l) s) (before ++ l) (c :: rest).
Proof.
  induction l as [|c' l IH]; intros s before c rest Hscans.
  - by rewrite app_nil_r.
  - simpl. replace (before ++ c' :: l) with ((before ++ [c']) ++ l)
      by (by rewrite <- app_assoc).
    apply IH. destruct l as [|c'' l]; by apply scans_next_char.
Qed.

Lemma scans_same_reading s s' before ahead :
  same_reading s' s → scans s before ahead → scans s' before ahead.
Proof.
  intros Hsame (Hreads & Hlen & Hpos).
  split; [by eapply same_reading_reads|]. split; [done|].
  destruct Hsame as (_ & _ & Hcn & Hln & _). rewrite Hcn, Hln. done.
Qed.

Lemma scans_init input s0 :
  Z.of_nat (length input) < 2 ^ 31 - 1 → scans (init_scanner input s0) [] input.
Proof.
  intros Hlen. split; [apply reads_init|]. split; [done|].
  destruct input as [|c rest]; [done|].
  unfold init_scanner, next_char, read_position, newlines. simpl.
  destruct (Z.eqb_spec (byte_of c) 10).
  - rewrite filter_cons, decide_True by done. done.
  - rewrite filter_cons, decide_False by done. done.
Qed.

(** A state reached by calls of [next_char], found with [ahead] before it:
    the calls have read what was between. *)
Lemma scans_after s s' before l ahead k :
  scans s before (l ++ ahead) →
  same_reading s' (next_chars k s) → reads s' ahead →
  scans s' (before ++ l) ahead.
Proof.
  intros Hscans Hsame Hreads.
  destruct ahead as [|c rest].
  { split; [done|]. split; [|done].
    destruct Hscans as (_ & Hlen & _). by rewrite !app_nil_r in *. }
  pose proof (reads_next_chars k s _ (scans_reads _ _ _ Hscans)) as Hk.
  pose proof (same_reading_reads _ _ _ Hsame Hk) as Hk'.
  pose proof (reads_unique _ _ _ Hreads Hk') as Heq.
  assert (k = length l) as ->.
  { apply (f_equal length) in Heq. rewrite length_drop, length_app in Heq.
    simpl in Heq. lia. }
  apply (scans_same_reading (next_chars (length l) s)); [done|].
  by apply scans_next_chars.
Qed.

(** *** The start of a token *)

Lemma skip_whitespace_ahead ws :
  ∀ c rest s is_it rounds,
    Forall (λ c, isspace (byte_of c) = true) ws →
    isspace (byte_of c) = false →
    reads s (ws ++ c :: rest) → (length ws ≤ rounds)%nat →
    ∃ s', skip_whitespace rounds s is_it = Done (s', is_it) ∧
          same_reading s' (next_chars (length ws) s).
Proof.
  induction ws as [|w ws IH]; intros c rest s is_it rounds Hws Hc Hreads Hrounds.
  - exists s. split; [|apply same_reading_refl].
    destruct Hreads as [Hch _]. destruct rounds; simpl; by rewrite Hch, Hc.
  - apply Forall_cons in Hws as [Hw Hws].
    destruct rounds as [|rounds]; [simpl in Hrounds; lia|].
    pose proof Hreads as [Hch _]. simpl in Hrounds.
    pose proof (reads_next_char s w (ws ++ c :: rest) Hreads) as Hnext.
    assert (Hnot_eof : (ch (next_char s) =? EOF) = false).
    { destruct ws as [|w' ws']; destruct Hnext as [-> _]; apply byte_of_not_EOF. }
    cbn [skip_whitespace]. rewrite Hch, Hw.
    destruct ((byte_of w =? 32) || (byte_of w =? 13) || (byte_of w =? 11)
              || (byte_of w =? 10) || (byte_of w =? 12)) eqn:Hfive.
    + rewrite Hnot_eof.
      destruct (IH c rest (next_char s) is_it rounds) as (s' & -> & Hsame);
        [done|done|done|lia|]. by exists s'.
    + assert (Htab : (byte_of w =? 9) = true).
      { unfold isspace in Hw. lia. }
      rewrite Htab.
      edestruct (IH c rest) as (s' & -> & Hsame);
        [done|done|apply reads_with_position; exact Hnext|lia|].
      exists s'. split; [done|]. simpl.
      eapply same_reading_trans; [exact Hsame|].
      apply same_reading_next_chars, same_reading_with_position.
Qed.

(** [get_token] on whitespace and a character that is not whitespace works
    as on the state [s1] that has the character as its lookahead, with
    [position] on it. *)
Lemma get_token_rec_start before ws c rest s :
  Forall (λ c, isspace (byte_of c) = true) ws →
  isspace (byte_of c) = false →
  scans s before (ws ++ c :: rest) →
  ∃ s1, scans s1 (before ++ ws) (c :: rest) ∧
        position s1 = read_position (before ++ ws ++ [c]) ∧
        position s1 = {| line := ln s1; col := cn s1 |} ∧
        ∀ d token, get_token_rec MAX_ID_LEN usable_size d token s
                   = get_token_rec MAX_ID_LEN usable_size d token s1.
Proof.
  intros Hws Hc Hscans.
  pose proof (scans_reads _ _ _ Hscans) as Hreads.
  destruct (skip_whitespace_ahead ws c rest s 0 (S (length (src_file s))) Hws Hc Hreads)
    as (sa & Hskip & Hsame).
  { rewrite (reads_src_length _ _ Hreads), length_app. simpl. lia. }
  pose proof (reads_next_chars (length ws) s _ Hreads) as Hra.
  rewrite drop_app_length in Hra.
  pose proof (same_reading_reads _ _ _ Hsame Hra) as Hsa.
  pose proof (scans_after s sa before ws (c :: rest) _ Hscans Hsame Hsa) as Hscans_a.
  set (s1 := with_position sa {| line := ln sa; col := cn sa |}).
  assert (Hscans1 : scans s1 (before ++ ws) (c :: rest)).
  { apply (scans_same_reading sa); [apply same_reading_with_position|done]. }
  exists s1. split; [done|]. split; [|split; [done|]].
  - destruct Hscans_a as (_ & _ & Hln & Hcn). simpl.
    rewrite Hln, Hcn, <- app_assoc. done.
  - assert (Hskip1 : ∀ r, skip_whitespace r s1 0 = Done (s1, 0)).
    { intros r. destruct Hscans1 as ([Hch _] & _).
      destruct r; simpl; simpl in Hch; by rewrite Hch, Hc. }
    intros d token. destruct d; cbn [get_token_rec]; rewrite Hskip, Hskip1; reflexivity.
Qed.

Lemma skip_whitespace_here s c rest rounds is_it :
  reads s (c :: rest) → isspace (byte_of c) = false →
  skip_whitespace rounds s is_it = Done (s, is_it).
Proof. intros [Hch _] Hc. destruct rounds; simpl; by rewrite Hch, Hc. Qed.

Lemma with_position_col s :
  position s = {| line := ln s; col := cn s |} →
  with_position s {| line := line (position s); col := cn s |} = s.
Proof. destruct s as [? ? ? ? ? [l c]]. simpl. by intros [= -> ->]. Qed.

(** *** Words *)

Lemma reserved_nonzero word ty :
  (word, ty) ∈ reserved → Forall (λ b, b ≠ 0) word.
Proof.
  intros Hin. apply list_elem_of_In in Hin. unfold reserved in Hin.
  cbn [In] in Hin.
  repeat (destruct Hin as [[= <- _]|Hin]; [by repeat constructor|]).
  done.
Qed.

Lemma reserved_search_sound rounds :
  ∀ lex lo hi ty,
    Forall (λ b, b ≠ 0) lex →
    reserved_search rounds lex lo hi = Some ty → (lex, ty) ∈ reserved.
Proof.
  induction rounds as [|rounds IH]; intros lex lo hi ty Hlex; simpl.
  - by destruct (lo <? hi).
  - destruct (lo <? hi); [|done].
    destruct (reserved !! _) as [[word ty']|] eqn:Hword; [|done].
    apply list_elem_of_lookup_2 in Hword.
    destruct (Z.eqb_spec (strcmp lex word) 0) as [Hcmp|_].
    + intros [= <-].
      apply SymbolTableFacts.strcmp_eq in Hcmp as ->;
        [done|done|by eapply reserved_nonzero].
    + destruct (strcmp lex word <? 0); by apply IH.
Qed.

Lemma reserved_search_complete word ty :
  (word, ty) ∈ reserved →
  reserved_search (length reserved) word 0 NUM_RESERVED_WORDS = Some ty.
Proof.
  intros Hin.
  assert (Hall : Forall (λ wt, reserved_search (length reserved) wt.1 0
                                 NUM_RESERVED_WORDS = Some wt.2) reserved).
  { repeat (constructor; [vm_compute; reflexivity|]). constructor. }
  rewrite Forall_forall in Hall. exact (Hall _ Hin).
Qed.

(** X14: the binary search of [process_word] returns a token type for a
    lexeme exactly when the lexeme is one of the 21 reserved words, and the
    type is that of the word. *)
Theorem reserved_search_exact lex ty :
  Forall (λ b, b ≠ 0) lex →
  reserved_search (length reserved) lex 0 NUM_RESERVED_WORDS = Some ty
  ↔ (lex, ty) ∈ reserved.
Proof.
  intros Hlex. split; [by apply reserved_search_sound|apply reserved_search_complete].
Qed.

Lemma word_char_not_EOF : word_char EOF = false.
Proof. done. Qed.

Lemma process_word_loop_run w :
  ∀ c rest s lex x rounds,
    Forall (λ c, word_char (byte_of c) = true) w →
    match rest with [] => True | c' :: _ => word_char (byte_of c') = false end →
    reads s (c :: w ++ rest) → (length w ≤ rounds)%nat →
    0 ≤ x → x + Z.of_nat (length (c :: w)) ≤ MAX_ID_LEN →
    x + Z.of_nat (length (c :: w)) < 2 ^ 31 →
    ∃ s', process_word_loop MAX_ID_LEN rounds s lex x
          = Done (s', lex ++ (byte_of <$> c :: w)) ∧
          same_reading s' (next_chars (S (length w)) s) ∧
          position s' = position s.
Proof.
  induction w as [|c' w IH];
    intros c rest s lex x rounds Hw Hrest Hreads Hrounds Hx Hmax Hint.
  - exists (next_char s). split; [|split; [apply same_reading_refl|apply next_char_position]].
    pose proof (reads_next_char s c rest Hreads) as Hnext.
    destruct Hreads as [Hch _]. simpl in Hmax.
    assert (Hend : word_char (ch (next_char s)) = false).
    { destruct rest as [|c' rest]; destruct Hnext as [-> _]; done. }
    unfold word_char in Hend.
    pose proof (SymbolTableFacts.byte_of_range c).
    destruct rounds; simpl; rewrite Hend;
      (destruct (Z.geb_spec x MAX_ID_LEN); [lia|]);
      by rewrite Hch, Z.mod_small by lia.
  - apply Forall_cons in Hw as [Hc' Hw].
    destruct rounds as [|rounds]; [simpl in Hrounds; lia|]. simpl in Hrounds.
    pose proof (reads_next_char s c _ Hreads) as Hnext.
    pose proof Hnext as [Hch' _]. destruct Hreads as [Hch _].
    cbn [length] in Hmax, Hint.
    cbn [process_word_loop].
    destruct (Z.geb_spec x MAX_ID_LEN); [lia|].
    fold (word_char (ch (next_char s))). rewrite Hch', Hc'.
    rewrite (wrap_int_small (x + 1)) by lia.
    destruct (IH c' rest (next_char s) (lex ++ [ch s mod 256]) (x + 1) rounds)
      as (s' & -> & Hsame & Hpos); try done; try (cbn [length]; lia).
    exists s'. split; [|split; [done|by rewrite Hpos, next_char_position]].
    pose proof (SymbolTableFacts.byte_of_range c).
    rewrite Hch, Z.mod_small by lia. rewrite <- app_assoc. done.
Qed.

Lemma process_word_loop_long w :
  ∀ c rest s lex x rounds,
    Forall (λ c, word_char (byte_of c) = true) w →
    reads s (c :: w ++ rest) → (length w ≤ rounds)%nat →
    0 ≤ x → MAX_ID_LEN < x + Z.of_nat (length (c :: w)) →
    x + Z.of_nat (length (c :: w)) < 2 ^ 31 →
    process_word_loop MAX_ID_LEN rounds s lex x
    = Fatal identifier_too_long (position s).
Proof.
  induction w as [|c' w IH]; intros c rest s lex x rounds Hw Hreads Hrounds Hx Hmax Hint.
  - simpl in Hmax. destruct rounds; simpl;
      (destruct (Z.geb_spec x MAX_ID_LEN); [done|lia]).
  - apply Forall_cons in Hw as [Hc' Hw].
    destruct rounds as [|rounds]; [simpl in Hrounds; lia|]. simpl in Hrounds.
    pose proof (reads_next_char s c _ Hreads) as Hnext.
    pose proof Hnext as [Hch' _].
    cbn [length] in Hmax, Hint.
    cbn [process_word_loop].
    destruct (Z.geb_spec x MAX_ID_LEN); [done|].
    fold (word_char (ch (next_char s))). rewrite Hch', Hc'.
    rewrite (wrap_int_small (x + 1)) by lia.
    rewrite (IH c' rest (next_char s)); try done; try (cbn [length]; lia).
    by rewrite next_char_position.
Qed.

Lemma word_start_not_space b : word_start b = true → isspace b = false.
Proof. unfold word_start, isalpha, isspace. lia. Qed.

(** X15: on whitespace and a word of at most [MAX_ID_LEN] letters, digits
    and underscores, the first of them a letter or an underscore,
    [get_token] returns a token whose lexeme is the word; its type is that
    of the reserved word when the word is one, and [TOK_ID] otherwise;
    [position] is the line and the column of the first character of the
    word, and the scanner is left on the character after the word. *)
Theorem get_token_word before ws c w rest token s :
  Forall (λ c, isspace (byte_of c) = true) ws →
  word_start (byte_of c) = true →
  Forall (λ c, word_char (byte_of c) = true) w →
  match rest with [] => True | c' :: _ => word_char (byte_of c') = false end →
  Z.of_nat (length (c :: w)) ≤ MAX_ID_LEN →
  scans s before (ws ++ c :: w ++ rest) →
  ∃ t s', get_token MAX_ID_LEN usable_size token s = Done (t, s') ∧
          lexeme t = byte_of <$> c :: w ∧
          (∀ ty, (lexeme t, ty) ∈ reserved → type t = ty) ∧
          ((∀ ty, (lexeme t, ty) ∉ reserved) → type t = TOK_ID) ∧
          position s' = read_position (before ++ ws ++ [c]) ∧
          scans s' (before ++ ws ++ c :: w) rest.
Proof.
  intros Hws Hc Hw Hrest Hmax Hscans.
  destruct (get_token_rec_start before ws c (w ++ rest) s Hws
              (word_start_not_space _ Hc) Hscans)
    as (s1 & Hscans1 & Hpos1 & Hpos1' & Heq).
  unfold get_token. rewrite Heq.
  pose proof (scans_reads _ _ _ Hscans1) as Hreads1.
  pose proof Hreads1 as [Hch1 _].
  assert (Hlen : Z.of_nat (length (c :: w)) < 2 ^ 31).
  { destruct Hscans1 as (_ & Hlen & _). rewrite !length_app in Hlen.
    cbn [length] in *. rewrite length_app in Hlen. lia. }
  cbn [get_token_rec].
  rewrite (skip_whitespace_here s1 c _ _ 0 Hreads1 (word_start_not_space _ Hc)).
  simpl Z.eqb. cbv iota.
  rewrite <- Hpos1'.
  replace (with_position s1 (position s1)) with s1 by (by destruct s1).
  rewrite Hch1, byte_of_not_EOF. simpl negb. cbv iota.
  fold (word_start (byte_of c)). rewrite Hc.
  unfold process_word.
  rewrite (with_position_col s1 Hpos1').
  destruct (process_word_loop_run w c rest s1 [] 0 (length (src_file s1)))
    as (s' & -> & Hsame & Hpos'); try done; try lia.
  { rewrite (reads_src_length _ _ Hreads1). simpl. rewrite length_app. lia. }
  assert (Hreads' : reads s' rest).
  { eapply same_reading_reads; [exact Hsame|].
    pose proof (reads_next_chars (S (length w)) s1 _ Hreads1) as Hr.
    change (c :: w ++ rest) with ((c :: w) ++ rest) in Hr.
    by rewrite (drop_app_length (c :: w)) in Hr. }
  assert (Hscans' : scans s' (before ++ ws ++ c :: w) rest).
  { rewrite app_assoc.
    apply (scans_after s1 s' (before ++ ws) (c :: w) rest (S (length w)));
      done. }
  assert (Hlex : Forall (λ b, b ≠ 0) (byte_of <$> c :: w)).
  { apply Forall_fmap, Forall_cons. split.
    - simpl. unfold word_start, isalpha in Hc. lia.
    - eapply Forall_impl; [exact Hw|]. simpl. intros a Ha.
      unfold word_char, isalpha in Ha. lia. }
  destruct (reserved_search (length reserved) ([] ++ (byte_of <$> c :: w)) 0
              NUM_RESERVED_WORDS) as [ty|] eqn:Hsearch.
  - apply (reserved_search_sound _ _ _ _ _ Hlex) in Hsearch as Hin.
    eexists _, s'. split; [reflexivity|]. simpl.
    split_and!; try done.
    + intros ty' Hin'. apply reserved_search_complete in Hin'.
      pose proof (eq_trans (eq_sym Hin') Hsearch) as Hty. by injection Hty.
    + intros Hno. by destruct (Hno ty).
    + by rewrite Hpos'.
  - eexists _, s'. split; [reflexivity|]. simpl.
    split_and!; try done.
    + intros ty' Hin'. apply reserved_search_complete in Hin'.
      pose proof (eq_trans (eq_sym Hin') Hsearch) as Hty. done.
    + by rewrite Hpos'.
Qed.

(** X16: on whitespace and more than [MAX_ID_LEN] letters, digits and
    underscores, the first of them a letter or an underscore, [get_token]
    reports "identifier too long" for the line and the column of the first
    of them. *)
Theorem get_token_identifier_too_long before ws c w rest token s :
  Forall (λ c, isspace (byte_of c) = true) ws →
  word_start (byte_of c) = true →
  Forall (λ c, word_char (byte_of c) = true) w →
  MAX_ID_LEN < Z.of_nat (length (c :: w)) →
  scans s before (ws ++ c :: w ++ rest) →
  get_token MAX_ID_LEN usable_size token s
  = Fatal identifier_too_long (read_position (before ++ ws ++ [c])).
Proof.
  intros Hws Hc Hw Hmax Hscans.
  destruct (get_token_rec_start before ws c (w ++ rest) s Hws
              (word_start_not_space _ Hc) Hscans)
    as (s1 & Hscans1 & Hpos1 & Hpos1' & Heq).
  unfold get_token. rewrite Heq.
  pose proof (scans_reads _ _ _ Hscans1) as Hreads1.
  pose proof Hreads1 as [Hch1 _].
  assert (Hlen : Z.of_nat (length (c :: w)) < 2 ^ 31).
  { destruct Hscans1 as (_ & Hlen & _). rewrite !length_app in Hlen.
    cbn [length] in *. rewrite length_app in Hlen. lia. }
  cbn [get_token_rec].
  rewrite (skip_whitespace_here s1 c _ _ 0 Hreads1 (word_start_not_space _ Hc)).
  simpl Z.eqb. cbv iota.
  rewrite <- Hpos1'.
  replace (with_position s1 (position s1)) with s1 by (by destruct s1).
  rewrite Hch1, byte_of_not_EOF. simpl negb. cbv iota.
  fold (word_start (byte_of c)). rewrite Hc.
  unfold process_word.
  rewrite (with_position_col s1 Hpos1').
  rewrite (process_word_loop_long w c rest s1 [] 0); try done; try lia.
  - by rewrite Hpos1.
  - rewrite (reads_src_length _ _ Hreads1). simpl. rewrite length_app. lia.
Qed.

(** *** Numbers that do not fit *)

Lemma wrap_int_range z : - 2 ^ 31 ≤ wrap_int z < 2 ^ 31.
Proof.
  unfold wrap_int. pose proof (Z.mod_pos_bound (z + 2 ^ 31) (2 ^ 32)). lia.
Qed.

Lemma wrap_int_add z b : wrap_int (wrap_int z + b) = wrap_int (z + b).
Proof.
  unfold wrap_int. f_equal.
  replace ((z + 2 ^ 31) mod 2 ^ 32 - 2 ^ 31 + b + 2 ^ 31)
    with ((z + 2 ^ 31) mod 2 ^ 32 + b) by lia.
  rewrite Zplus_mod_idemp_l. f_equal. lia.
Qed.

Lemma wrap_int_mul k z : wrap_int (k * wrap_int z) = wrap_int (k * z).
Proof.
  unfold wrap_int. f_equal.
  replace (k * ((z + 2 ^ 31) mod 2 ^ 32 - 2 ^ 31) + 2 ^ 31)
    with (k * ((z + 2 ^ 31) mod 2 ^ 32) + (2 ^ 31 - k * 2 ^ 31)) by lia.
  rewrite Zplus_mod, Zmult_mod_idemp_r, <- Zplus_mod. f_equal. lia.
Qed.

Lemma digit_not_space b : isdigit b = true → isspace b = false.
Proof. unfold isdigit, isspace. lia. Qed.

Lemma digit_not_word_start b : isdigit b = true → word_start b = false.
Proof. unfold isdigit, word_start, isalpha. lia. Qed.

Lemma isdigit_EOF : isdigit EOF = false.
Proof. done. Qed.

(** The loop of [process_number] keeps the value of the digits read so
    far, as an [int]. *)
Lemma process_number_loop_step s v c :
  isdigit (byte_of c) = true →
  wrap_int (wrap_int (10 * wrap_int v) + wrap_int (byte_of c - 48))
  = wrap_int (10 * v + (byte_of c - 48)).
Proof.
  intros Hc. unfold isdigit in Hc.
  rewrite (wrap_int_small (byte_of c - 48)) by lia.
  by rewrite wrap_int_mul, wrap_int_add.
Qed.

Lemma process_number_loop_wraps ds :
  ∀ c rest s v rounds,
    isdigit (byte_of c) = true →
    Forall (λ c, isdigit (byte_of c) = true) ds →
    match rest with [] => True | c' :: _ => isdigit (byte_of c') = false end →
    reads s (c :: ds ++ rest) → (length ds ≤ rounds)%nat →
    (∀ p, p ≠ [] → p `prefix_of` c :: ds →
          0 ≤ wrap_int (fold_left (λ v c, 10 * v + (byte_of c - 48)) p v)) →
    ∃ s', process_number_loop rounds s (wrap_int v) (wrap_int (byte_of c - 48))
          = Done (s', wrap_int (fold_left (λ v c, 10 * v + (byte_of c - 48))
                                          (c :: ds) v)) ∧
          same_reading s' (next_chars (S (length ds)) s) ∧
          position s' = position s.
Proof.
  induction ds as [|c' ds IH];
    intros c rest s v rounds Hc Hds Hrest Hreads Hrounds Hfits.
  - pose proof (reads_next_char s c rest Hreads) as Hnext.
    exists (next_char s).
    split; [|split; [apply same_reading_refl|apply next_char_position]].
    assert (Hnd : isdigit (ch (next_char s)) = false).
    { destruct rest as [|c' rest]; destruct Hnext as [-> _]; done. }
    pose proof (Hfits [c] ltac:(done) ltac:(done)) as H0. simpl in H0.
    pose proof (wrap_int_range (10 * v + (byte_of c - 48))) as Hr.
    destruct rounds; simpl; rewrite (process_number_loop_step s v c Hc), Hnd; simpl;
      destruct (Z.ltb_spec (wrap_int (10 * v + (byte_of c - 48))) 0);
      destruct (Z.gtb_spec (wrap_int (10 * v + (byte_of c - 48))) INT_MAX);
      unfold INT_MAX in *; first [lia | done].
  - apply Forall_cons in Hds as [Hc' Hds].
    destruct rounds as [|rounds]; [simpl in Hrounds; lia|]. simpl in Hrounds.
    pose proof (reads_next_char s c _ Hreads) as Hnext.
    pose proof Hnext as [Hch' _].
    pose proof (Hfits [c] ltac:(done) ltac:(by exists (c' :: ds))) as H0.
    simpl in H0.
    pose proof (wrap_int_range (10 * v + (byte_of c - 48))) as Hr.
    cbn [process_number_loop fold_left].
    rewrite (process_number_loop_step s v c Hc), Hch', Hc'. simpl negb. cbv iota.
    destruct (Z.ltb_spec (wrap_int (10 * v + (byte_of c - 48))) 0); [lia|].
    destruct (Z.gtb_spec (wrap_int (10 * v + (byte_of c - 48))) INT_MAX);
      [unfold INT_MAX in *; lia|].
    simpl orb. cbv iota.
    destruct (IH c' rest (next_char s) (10 * v + (byte_of c - 48)) rounds)
      as (s' & -> & Hsame & Hpos); try done; [lia| |].
    { intros p Hp Hpre. apply (Hfits (c :: p)); [done|]. by apply prefix_cons. }
    exists s'. split; [done|]. split; [done|]. by rewrite Hpos, next_char_position.
Qed.

Lemma process_number_loop_overflow ds :
  ∀ c rest s v rounds,
    isdigit (byte_of c) = true →
    Forall (λ c, isdigit (byte_of c) = true) ds →
    reads s (c :: ds ++ rest) → (length ds ≤ rounds)%nat →
    (∃ p, p ≠ [] ∧ p `prefix_of` c :: ds ∧
          wrap_int (fold_left (λ v c, 10 * v + (byte_of c - 48)) p v) < 0) →
    process_number_loop rounds s (wrap_int v) (wrap_int (byte_of c - 48))
    = Fatal number_too_large (position s).
Proof.
  induction ds as [|c' ds IH];
    intros c rest s v rounds Hc Hds Hreads Hrounds (p & Hp & Hpre & Hneg).
  - assert (p = [c]) as ->.
    { destruct Hpre as [k Hk]. destruct p as [|a p]; [done|].
      destruct p; [by injection Hk as ->|done]. }
    simpl in Hneg.
    destruct rounds; simpl; rewrite (process_number_loop_step s v c Hc);
      by destruct (Z.ltb_spec (wrap_int (10 * v + (byte_of c - 48))) 0); [|lia].
  - apply Forall_cons in Hds as [Hc' Hds].
    destruct rounds as [|rounds]; [simpl in Hrounds; lia|]. simpl in Hrounds.
    pose proof (reads_next_char s c _ Hreads) as Hnext.
    pose proof Hnext as [Hch' _].
    pose proof (wrap_int_range (10 * v + (byte_of c - 48))) as Hr.
    cbn [process_number_loop].
    rewrite (process_number_loop_step s v c Hc).
    destruct (Z.ltb_spec (wrap_int (10 * v + (byte_of c - 48))) 0); [done|].
    destruct (Z.gtb_spec (wrap_int (10 * v + (byte_of c - 48))) INT_MAX);
      [unfold INT_MAX in *; lia|].
    simpl orb. cbv iota. rewrite Hch', Hc'. simpl negb. cbv iota.
    rewrite (IH c' rest (next_char s) (10 * v + (byte_of c - 48)) rounds);
      try done; [by rewrite next_char_position|lia|].
    destruct p as [|a [|b p]]; [done| |].
    + destruct Hpre as [k Hk]. simplify_eq/=. lia.
    + destruct Hpre as [k Hk]. simplify_eq/=. exists (b :: p).
      split; [done|]. split; [by exists k|done].
Qed.

(** X17: on whitespace and a run of decimal digits whose value is above
    [INT_MAX] and below [2^32], [get_token] reports "number too large" for
    the line and the column of the first digit.  The [int] arithmetic of
    [process_number] is taken to wrap around: the test of the code fires
    on a value that has become negative. *)
Theorem get_token_number_too_large before ws c ds rest token s :
  Forall (λ c, isspace (byte_of c) = true) ws →
  isdigit (byte_of c) = true →
  Forall (λ c, isdigit (byte_of c) = true) ds →
  INT_MAX < decimal_value (c :: ds) < 2 ^ 32 →
  scans s before (ws ++ c :: ds ++ rest) →
  get_token MAX_ID_LEN usable_size token s
  = Fatal number_too_large (read_position (before ++ ws ++ [c])).
Proof.
  intros Hws Hc Hds Hval Hscans.
  destruct (get_token_rec_start before ws c (ds ++ rest) s Hws
              (digit_not_space _ Hc) Hscans)
    as (s1 & Hscans1 & Hpos1 & Hpos1' & Heq).
  unfold get_token. rewrite Heq.
  pose proof (scans_reads _ _ _ Hscans1) as Hreads1.
  pose proof Hreads1 as [Hch1 _].
  cbn [get_token_rec].
  rewrite (skip_whitespace_here s1 c _ _ 0 Hreads1 (digit_not_space _ Hc)).
  simpl Z.eqb. cbv iota.
  rewrite <- Hpos1'.
  replace (with_position s1 (position s1)) with s1 by (by destruct s1).
  rewrite Hch1, byte_of_not_EOF. simpl negb. cbv iota.
  fold (word_start (byte_of c)). rewrite (digit_not_word_start _ Hc), Hc.
  unfold process_number. rewrite Hch1.
  pose proof (process_number_loop_overflow ds c rest s1 0 (length (src_file s1))
                Hc Hds Hreads1) as Hloop.
  change (wrap_int 0) with 0 in Hloop. rewrite Hloop; [by rewrite Hpos1| |].
  - rewrite (reads_src_length _ _ Hreads1). simpl. rewrite length_app. lia.
  - exists (c :: ds). split; [done|]. split; [done|].
    fold (decimal_value (c :: ds)). unfold INT_MAX in Hval. unfold wrap_int.
    replace (decimal_value (c :: ds) + 2 ^ 31)
      with (decimal_value (c :: ds) - 2 ^ 31 + 1 * 2 ^ 32) by lia.
    rewrite Z_mod_plus_full, Z.mod_small; lia.
Qed.

(** X18: on whitespace and a run of decimal digits, [get_token] returns a
    [TOK_NUM] token when no value that [process_number] computes on the way,
    taken as an [int] that wraps around, is negative; the value of the token
    is the value of the digits as such an [int], which is their value when
    it is at most [INT_MAX]; [position] is the line and the column of the
    first digit and the scanner is left on the character after the
    digits. *)
Theorem get_token_number_wraps before ws c ds rest token s :
  Forall (λ c, isspace (byte_of c) = true) ws →
  isdigit (byte_of c) = true →
  Forall (λ c, isdigit (byte_of c) = true) ds →
  match rest with [] => True | c' :: _ => isdigit (byte_of c') = false end →
  (∀ p, p ≠ [] → p `prefix_of` c :: ds → 0 ≤ wrap_int (decimal_value p)) →
  scans s before (ws ++ c :: ds ++ rest) →
  ∃ t s', get_token MAX_ID_LEN usable_size token s = Done (t, s') ∧
          type t = TOK_NUM ∧
          value t = wrap_int (decimal_value (c :: ds)) ∧
          (decimal_value (c :: ds) ≤ INT_MAX →
           value t = decimal_value (c :: ds)) ∧
          position s' = read_position (before ++ ws ++ [c]) ∧
          scans s' (before ++ ws ++ c :: ds) rest.
Proof.
  intros Hws Hc Hds Hrest Hfits Hscans.
  destruct (get_token_rec_start before ws c (ds ++ rest) s Hws
              (digit_not_space _ Hc) Hscans)
    as (s1 & Hscans1 & Hpos1 & Hpos1' & Heq).
  unfold get_token. rewrite Heq.
  pose proof (scans_reads _ _ _ Hscans1) as Hreads1.
  pose proof Hreads1 as [Hch1 _].
  cbn [get_token_rec].
  rewrite (skip_whitespace_here s1 c _ _ 0 Hreads1 (digit_not_space _ Hc)).
  simpl Z.eqb. cbv iota.
  rewrite <- Hpos1'.
  replace (with_position s1 (position s1)) with s1 by (by destruct s1).
  rewrite Hch1, byte_of_not_EOF. simpl negb. cbv iota.
  fold (word_start (byte_of c)). rewrite (digit_not_word_start _ Hc), Hc.
  unfold process_number. rewrite Hch1.
  destruct (process_number_loop_wraps ds c rest s1 0 (length (src_file s1))
              Hc Hds Hrest Hreads1) as (s' & Hloop & Hsame & Hpos'); [|done|].
  { rewrite (reads_src_length _ _ Hreads1). simpl. rewrite length_app. lia. }
  change (wrap_int 0) with 0 in Hloop. rewrite Hloop.
  assert (Hreads' : reads s' rest).
  { eapply same_reading_reads; [exact Hsame|].
    pose proof (reads_next_chars (S (length ds)) s1 _ Hreads1) as Hr.
    change (c :: ds ++ rest) with ((c :: ds) ++ rest) in Hr.
    by rewrite (drop_app_length (c :: ds)) in Hr. }
  eexists _, s'. split; [reflexivity|]. cbn [type value].
  split; [done|]. split; [done|]. split; [|split].
  - intros Hmax. apply wrap_int_small.
    pose proof (decimal_step_le (c :: ds) 0 ltac:(lia) ltac:(by constructor)) as Hle.
    fold (decimal_value (c :: ds)) in Hle. unfold INT_MAX in Hmax. lia.
  - by rewrite Hpos'.
  - rewrite app_assoc.
    by apply (scans_after s1 s' (before ++ ws) (c :: ds) rest (S (length ds))).
Qed.

(** *** Punctuation and operators *)

Ltac token_start Hws Hscans c rest' :=
  let s1 := fresh "s1" in
  destruct (get_token_rec_start _ _ c rest' _ Hws ltac:(done) Hscans)
    as (s1 & Hscans1 & Hpos1 & Hpos1' & Heq);
  unfold get_token; rewrite Heq;
  pose proof (scans_reads _ _ _ Hscans1) as Hreads1;
  pose proof Hreads1 as [Hch1 _];
  cbn [get_token_rec];
  rewrite (skip_whitespace_here s1 c _ _ 0 Hreads1 ltac:(done));
  simpl Z.eqb; cbv iota; rewrite <- Hpos1';
  replace (with_position s1 (position s1)) with s1 by (by destruct s1);
  rewrite Hch1.

Lemma scans_next s before c rest :
  scans s before (c :: rest) → scans (next_char s) (before ++ [c]) rest.
Proof.
  intros Hscans.
  apply (scans_after s (next_char s) before [c] rest 1 Hscans);
    [apply same_reading_refl|].
  eapply reads_next_char, scans_reads, Hscans.
Qed.

Lemma scans_next2 s before c c' rest :
  scans s before (c :: c' :: rest) →
  scans (next_char (next_char s)) (before ++ [c; c']) rest.
Proof.
  intros Hscans. apply scans_next, scans_next in Hscans.
  by rewrite <- app_assoc in Hscans.
Qed.

(** One character that is a token whatever follows. *)
Ltac operator_one Hws Hscans :=
  match type of Hscans with
  | scans _ _ (_ ++ ?c :: ?rest) =>
      token_start Hws Hscans c rest;
      simpl;
      eexists; split; [reflexivity|];
      split; [by rewrite next_char_position|];
      rewrite app_assoc; by apply scans_next
  end.

(** Two characters that are a token. *)
Ltac operator_two Hws Hscans :=
  match type of Hscans with
  | scans _ _ (_ ++ ?c :: ?c' :: ?rest) =>
      token_start Hws Hscans c (c' :: rest);
      let Hch2 := fresh "Hch2" in
      lazymatch goal with
      | Hr : reads _ (_ :: _) |- _ =>
          pose proof (reads_next_char _ _ _ Hr) as [Hch2 _]
      end;
      simpl; rewrite Hch2; simpl;
      eexists; split; [reflexivity|];
      split; [by rewrite !next_char_position|];
      rewrite app_assoc; by apply scans_next2
  end.

(** One character that is a token unless [second] follows. *)
Ltac operator_alone Hws Hscans Hmunch second ty' str' :=
  match type of Hscans with
  | scans _ _ (_ ++ ?c :: ?rest) =>
      token_start Hws Hscans c rest;
      let Hnext := fresh "Hnext" in
      let Hno := fresh "Hno" in
      let Hc2 := fresh "Hc2" in
      lazymatch goal with
      | Hr : reads ?s1 (_ :: _) |- _ =>
          pose proof (reads_next_char _ _ _ Hr) as Hnext;
          simpl;
          assert (Hno : (ch (next_char s1) =? byte_of second) = false);
          [ destruct rest as [|c2 rest2]; destruct Hnext as [-> _];
            [done|];
            destruct (Z.eqb_spec (byte_of c2) (byte_of second)) as [Hc2|]; [|done];
            apply byte_of_inj in Hc2 as ->;
            destruct (Hmunch ty' str'); by repeat constructor
          | let k := eval vm_compute in (byte_of second) in
            change (byte_of second) with k in Hno;
            rewrite Hno;
            eexists; split; [reflexivity|];
            split; [by rewrite next_char_position|];
            rewrite app_assoc; by apply scans_next ]
      end
  end.

(** X19: on whitespace and one of the punctuation marks or operators of
    the language, [get_token] returns a token with the type of the mark,
    and with the string the code gives it, which is "+" for [*];
    [position] is the line and the column of the mark and the scanner is
    left on the character after it.  A mark of one character is taken when
    it does not form a mark of two characters with the character that
    follows. *)
Theorem get_token_operator before ws op ty str rest token s :
  (op, ty, str) ∈ operators →
  Forall (λ c, isspace (byte_of c) = true) ws →
  match rest with
  | [] => True
  | c :: _ => ∀ ty' str',
                (String.append op (String c EmptyString), ty', str') ∉ operators
  end →
  scans s before (ws ++ list_ascii_of_string op ++ rest) →
  ∃ s', get_token MAX_ID_LEN usable_size token s
        = Done (set_string (set_type token ty) (chars str), s') ∧
        position s' = read_position (before ++ ws ++ take 1 (list_ascii_of_string op)) ∧
        scans s' (before ++ ws ++ list_ascii_of_string op) rest.
Proof.
  intros Hin Hws Hmunch Hscans.
  apply list_elem_of_In in Hin. unfold operators in Hin. cbn [In] in Hin.
  repeat (destruct Hin as [Hin|Hin];
    [ injection Hin as <- <- <-;
      cbn [list_ascii_of_string app take] in Hscans |- *;
      first [ operator_two Hws Hscans
            | operator_alone Hws Hscans Hmunch "="%char TOK_GE ">="%string
            | operator_alone Hws Hscans Hmunch "="%char TOK_LE "<="%string
            | operator_alone Hws Hscans Hmunch "="%char TOK_NE "/="%string
            | operator_alone Hws Hscans Hmunch ">"%char TOK_ARROW "->"%string
            | operator_one Hws Hscans ]
    | ]).
  done.
Qed.

Lemma punctuation_start_false b k :
  b ∉ punctuation_start → k ∈ punctuation_start → (b =? k) = false.
Proof. intros Hb Hk. destruct (Z.eqb_spec b k) as [->|]; done. Qed.

(** X20: on whitespace and a character that begins no token (not a letter,
    an underscore, a digit, a double quote, a brace that opens a comment or
    a punctuation mark), or a dot that no dot follows, [get_token] reports
    "illegal character" with the code of the character, for its line and
    its column. *)
Theorem get_token_illegal_character before ws c rest token s :
  Forall (λ c, isspace (byte_of c) = true) ws →
  isspace (byte_of c) = false → word_start (byte_of c) = false →
  isdigit (byte_of c) = false →
  byte_of c ∉ punctuation_start
  ∨ byte_of c = 46
    ∧ match rest with [] => True | c' :: _ => byte_of c' ≠ 46 end →
  scans s before (ws ++ c :: rest) →
  get_token MAX_ID_LEN usable_size token s
  = Fatal (illegal_character (byte_of c)) (read_position (before ++ ws ++ [c])).
Proof.
  intros Hws Hspace Hword Hdigit Hc Hscans.
  token_start Hws Hscans c rest.
  rewrite byte_of_not_EOF. simpl negb. cbv iota.
  fold (word_start (byte_of c)). rewrite Hword, Hdigit.
  destruct Hc as [Hc|[Hdot Hrest]].
  - rewrite !(punctuation_start_false (byte_of c) _ Hc)
      by (unfold punctuation_start; repeat constructor).
    by rewrite Hpos1.
  - rewrite Hdot. simpl.
    pose proof (reads_next_char _ _ _ Hreads1) as Hnext.
    assert (Hno : (ch (next_char s1) =? 46) = false).
    { destruct rest as [|c' rest']; destruct Hnext as [-> _]; [done|lia]. }
    by rewrite Hno, next_char_position, Hpos1.
Qed.

(** *** Strings *)

Lemma write_byte_Some b j (x : Z) :
  0 ≤ j < Z.of_nat (length (bytes b)) →
  write_byte b j x
  = Some {| asked := asked b; bytes := <[Z.to_nat j := Some x]> (bytes b) |}.
Proof.
  intros Hj. unfold write_byte.
  destruct (Z.leb_spec 0 j); [|lia].
  destruct (Z.ltb_spec j (Z.of_nat (length (bytes b)))); [done|lia].
Qed.

Lemma write_byte_None b j (x : Z) :
  Z.of_nat (length (bytes b)) ≤ j → write_byte b j x = None.
Proof.
  intros Hj. unfold write_byte.
  destruct (Z.ltb_spec j (Z.of_nat (length (bytes b)))); [lia|].
  by rewrite andb_false_r.
Qed.

(** The [for] loop of [process_string] that clears the first [n] bytes of a
    block. *)
Lemma clear_bytes (n : nat) :
  ∀ a l, (n ≤ length l)%nat →
    fold_left (λ b j, b ≫= λ b, write_byte b j 0) (seqZ 0 (Z.of_nat n))
              (Some {| asked := a; bytes := l |})
    = Some {| asked := a; bytes := replicate n (Some 0) ++ drop n l |}.
Proof.
  induction n as [|n IH]; intros a l Hn.
  - by rewrite drop_0.
  - rewrite Nat2Z.inj_succ, <- Z.add_1_r, seqZ_app by lia.
    rewrite fold_left_app, IH by lia. change (seqZ (0 + Z.of_nat n) 1) with [0 + Z.of_nat n].
    cbn [fold_left mbind option_bind]. rewrite Z.add_0_l.
    rewrite write_byte_Some.
    + f_equal. cbn [asked bytes]. f_equal. rewrite Nat2Z.id.
      rewrite insert_app_r_alt by (rewrite length_replicate; lia).
      rewrite length_replicate, Nat.sub_diag.
      destruct (drop n l) as [|x l'] eqn:Hdrop.
      { apply (f_equal length) in Hdrop. rewrite length_drop in Hdrop.
        simpl in Hdrop. lia. }
      cbn [insert list_insert].
      replace (drop (S n) l) with l'.
      * rewrite replicate_S_end, <- app_assoc. done.
      * rewrite <- (Nat.add_1_l n), Nat.add_comm, <- drop_drop, Hdrop. done.
    + cbn [bytes]. rewrite length_app, length_replicate, length_drop. lia.
Qed.

Lemma clear_bytes_then_one (n : nat) a l :
  (n < length l)%nat →
  fold_left (λ b j, b ≫= λ b, write_byte b j 0) (seqZ 0 (Z.of_nat n))
            (Some {| asked := a; bytes := l |})
    ≫= (λ b, write_byte b (Z.of_nat n) 0)
  = Some {| asked := a; bytes := replicate (S n) (Some 0) ++ drop (S n) l |}.
Proof.
  intros Hn. pose proof (clear_bytes (S n) a l ltac:(lia)) as Hclear.
  rewrite Nat2Z.inj_succ, <- Z.add_1_r, seqZ_app in Hclear by lia.
  rewrite fold_left_app in Hclear.
  change (seqZ (0 + Z.of_nat n) 1) with [0 + Z.of_nat n] in Hclear.
  cbn [fold_left] in Hclear. by rewrite Z.add_0_l in Hclear.
Qed.

(** [cleared_string] with an allocator that gives at least one byte more
    than the [MAX_INIT_STR_LEN] asked for, and with one that does not: the
    write at the index [MAX_INIT_STR_LEN] is then outside the block. *)
Lemma cleared_string_Some :
  MAX_INIT_STR_LEN < usable_size MAX_INIT_STR_LEN →
  ∃ others,
    cleared_string usable_size
    = Some {| asked := MAX_INIT_STR_LEN;
              bytes := replicate (S (Z.to_nat MAX_INIT_STR_LEN)) (Some 0)
                       ++ others |}.
Proof.
  intros Hslack. unfold cleared_string, malloc.
  pose proof (clear_bytes_then_one (Z.to_nat MAX_INIT_STR_LEN) MAX_INIT_STR_LEN
                (replicate (Z.to_nat (usable_size MAX_INIT_STR_LEN)) None))
    as Hclear.
  rewrite Z2Nat.id in Hclear by done.
  rewrite Hclear; [by eexists|].
  rewrite length_replicate. assert (0 ≤ MAX_INIT_STR_LEN) by done. lia.
Qed.

Lemma write_bytes_length (l : list Z) :
  ∀ a b, fold_left (λ b j, b ≫= λ b, write_byte b j 0) l (Some a) = Some b →
         length (bytes b) = length (bytes a).
Proof.
  induction l as [|j l IH]; intros a b; cbn [fold_left mbind option_bind].
  - by intros [= <-].
  - unfold write_byte at 2.
    destruct ((0 <=? j) && (j <? Z.of_nat (length (bytes a)))).
    + intros Hb. apply IH in Hb. cbn [bytes] in Hb. by rewrite length_insert in Hb.
    + intros Hb. exfalso. clear -Hb. induction l as [|j' l IH]; [done|].
      by apply IH.
Qed.

Lemma cleared_string_None :
  usable_size MAX_INIT_STR_LEN ≤ MAX_INIT_STR_LEN →
  cleared_string usable_size = None.
Proof.
  intros Hexact. unfold cleared_string.
  destruct (fold_left _ _ _) as [b|] eqn:Hfold; [|done].
  cbn [mbind option_bind]. apply write_byte_None.
  apply write_bytes_length in Hfold. rewrite Hfold. unfold malloc. cbn [bytes].
  rewrite length_replicate. assert (0 ≤ MAX_INIT_STR_LEN) by done. lia.
Qed.

Lemma c_string_written (written : list Z) (others : list (option Z)) :
  Forall (λ b, b ≠ 0) written →
  c_string ((Some <$> written) ++ Some 0 :: others) = Some written.
Proof.
  induction 1 as [|b written Hb _ IH]; [done|].
  cbn [fmap list_fmap app c_string].
  destruct (Z.eqb_spec b 0); [done|].
  change (c_string (list_fmap Z (option Z) Some written ++ Some 0 :: others))
    with (c_string ((Some <$> written) ++ Some 0 :: others)).
  by rewrite IH.
Qed.

Lemma string_body_nonzero body :
  string_body body → Forall (λ b, b ≠ 0) (byte_of <$> body).
Proof.
  induction 1 as [|c body Hc H34 H92 _ IH|c body Hc _ IH]; [constructor| |].
  - rewrite fmap_cons. constructor; [lia|done].
  - rewrite !fmap_cons. constructor; [done|]. constructor; [|done].
    intros H0. rewrite H0 in Hc. apply list_elem_of_In in Hc. simpl in Hc.
    by repeat destruct Hc as [?|Hc].
Qed.

(** A write at the index [i] while the buffer holds. *)
Lemma string_buffer_write v written (x : Z) :
  string_buffer v written → Z.of_nat (length written) < MAX_INIT_STR_LEN →
  ∃ b, write_byte (updated_string v) (i v) x = Some b ∧
       ∀ tc tl, string_buffer
                  {| i := i v + 1; nstring := nstring v; updated_string := b;
                     temp_col_number := tc; temp_line_number := tl |}
                  (written ++ [x]).
Proof.
  intros (Hi & Hn & zeros & others & Hbytes & Hlen) Hlt.
  destruct zeros as [|zeros]; [lia|].
  rewrite write_byte_Some.
  - eexists. split; [reflexivity|]. intros tc tl.
    split; [|split; [done|]]; cbn [i nstring updated_string bytes].
    + rewrite length_app. simpl. lia.
    + exists zeros, others. split; [|rewrite length_app; simpl; lia].
      rewrite Hbytes, Hi, Nat2Z.id.
      rewrite insert_app_r_alt by (rewrite length_fmap; lia).
      rewrite length_fmap, Nat.sub_diag. cbn [replicate app insert list_insert].
      rewrite fmap_app, <- app_assoc. done.
  - rewrite Hbytes, Hi, !length_app, length_fmap, length_replicate. lia.
Qed.
(** One round of the loop of [process_string] on a character of the body
    of a string, and on an escape, while the buffer holds. *)
Lemma process_string_loop_char c tail s v rounds ip written :
  32 ≤ byte_of c ≤ 127 → byte_of c ≠ 34 → byte_of c ≠ 92 →
  reads s (c :: tail) →
  string_buffer v written → Z.of_nat (length written) < MAX_INIT_STR_LEN →
  ∃ v', string_buffer v' (written ++ [byte_of c]) ∧
        temp_col_number v' = Some (cn s) ∧ temp_line_number v' = Some (ln s) ∧
        process_string_loop usable_size (S rounds) ip s v
        = if ch (next_char s) =? EOF then Fatal string_not_closed ip
          else process_string_loop usable_size rounds ip
                 (with_position (next_char s)
                    {| line := ln (next_char s); col := cn (next_char s) |}) v'.
Proof.
  intros Hc H34 H92 [Hch _] Hbuf Hlt.
  destruct (string_buffer_write v written (byte_of c) Hbuf Hlt) as (b & Hw & Hbuf').
  exists {| i := i v + 1; nstring := nstring v; updated_string := b;
            temp_col_number := Some (cn s); temp_line_number := Some (ln s) |}.
  split; [apply Hbuf'|]. split; [done|]. split; [done|].
  destruct Hbuf as (Hi & Hn' & _).
  assert (Hcap : (i v =? nstring v) = false) by lia.
  cbn [process_string_loop]. rewrite Hch.
  assert (Hq : (byte_of c =? 34) = false) by lia.
  assert (Hb : (byte_of c =? 92) = false) by lia.
  assert (Hp : (negb (isascii (byte_of c)) || (byte_of c <? 32))
               && negb (byte_of c =? 10) && negb (byte_of c =? -1) = false).
  { unfold isascii. lia. }
  assert (Hn : (byte_of c =? 10) = false) by lia.
  rewrite Hq, Hp, Hn, Hb. simpl negb. cbv iota beta.
  rewrite Hcap. cbv iota. rewrite Hch, Z.mod_small by lia. by rewrite Hw.
Qed.

Lemma process_string_loop_escape c tail s v rounds ip written :
  byte_of c ∈ [110; 116; 34; 92] →
  reads s (ascii_of_nat 92 :: c :: tail) →
  string_buffer v written → Z.of_nat (length written) + 1 < MAX_INIT_STR_LEN →
  ∃ s2 v', same_reading s2 (next_char s) ∧
           string_buffer v' (written ++ [92; byte_of c]) ∧
           temp_col_number v' = Some (cn (next_char s)) ∧
           temp_line_number v' = Some (ln (next_char s)) ∧
           process_string_loop usable_size (S rounds) ip s v
           = if ch (next_char s2) =? EOF then Fatal string_not_closed ip
             else process_string_loop usable_size rounds ip
                    (with_position (next_char s2)
                       {| line := ln (next_char s2); col := cn (next_char s2) |}) v'.
Proof.
  intros Hc Hreads Hbuf Hlt.
  pose proof Hreads as [Hch _].
  pose proof (reads_next_char s _ _ Hreads) as [Hch2 _].
  destruct (string_buffer_write v written 92 Hbuf ltac:(lia)) as (b1 & Hw1 & Hbuf1).
  specialize (Hbuf1 (temp_col_number v) (temp_line_number v)).
  destruct (string_buffer_write _ (written ++ [92]) (byte_of c) Hbuf1)
    as (b2 & Hw2 & Hbuf2).
  { rewrite length_app. simpl. lia. }
  cbn [i nstring updated_string] in Hw2, Hbuf2.
  pose proof (SymbolTableFacts.byte_of_range c) as Hrange.
  assert (Hesc : ∃ s2,
    same_reading s2 (next_char s) ∧ ch s2 = byte_of c ∧
    ∀ v1 : string_vars,
      (if (ch (next_char s) =? 110) || (ch (next_char s) =? 116)
       then Done (next_char s, v1)
       else if ch (next_char s) =? 34 then Done (with_ch (next_char s) 34, v1)
       else if ch (next_char s) =? 92 then Done (with_ch (next_char s) 92, v1)
       else Fatal (illegal_escape_code (ch (next_char s)))
              {| line := ln (next_char s);
                 col := wrap_int (cn (next_char s) - 1) |})
      = Done (s2, v1)).
  { rewrite Hch2.
    apply elem_of_cons in Hc as [Hc|Hc]; [|apply elem_of_cons in Hc as [Hc|Hc];
      [|apply elem_of_cons in Hc as [Hc|Hc];
        [|apply elem_of_cons in Hc as [Hc|Hc]; [|by apply elem_of_nil in Hc]]]];
      rewrite Hc; simpl.
    - exists (next_char s). split; [apply same_reading_refl|]. split; [congruence|done].
    - exists (next_char s). split; [apply same_reading_refl|]. split; [congruence|done].
    - exists (with_ch (next_char s) 34).
      split; [repeat split; simpl; congruence|]. by split.
    - exists (with_ch (next_char s) 92).
      split; [repeat split; simpl; congruence|]. by split. }
  destruct Hesc as (s2 & Hsame & Hch3 & Hesc).
  exists s2, {| i := i v + 1 + 1; nstring := nstring v; updated_string := b2;
                temp_col_number := Some (cn s2); temp_line_number := Some (ln s2) |}.
  split; [exact Hsame|]. split.
  { rewrite <- app_assoc in Hbuf2. apply Hbuf2. }
  destruct Hsame as (Hsrc2 & Hch2' & Hcn2 & Hln2 & Hposit2).
  split; [cbn [temp_col_number]; by rewrite Hcn2|].
  split; [cbn [temp_line_number]; by rewrite Hln2|].
  destruct Hbuf as (Hi & Hn' & _).
  assert (Hcap : (i v + 1 =? nstring v) = false) by lia.
  cbn [process_string_loop]. rewrite Hch.
  change (byte_of (ascii_of_nat 92)) with 92. simpl.
  rewrite Hw1, Hesc. cbn [i nstring updated_string].
  rewrite Hcap. cbv iota. cbn [i nstring updated_string].
  rewrite Hch3, Z.mod_small by lia. by rewrite Hw2.
Qed.

(** The loop of [process_string] over a body that something follows. *)
Lemma process_string_loop_over body :
  string_body body →
  ∀ c tail s v rounds ip written,
    reads s (body ++ c :: tail) → (length body ≤ rounds)%nat →
    string_buffer v written →
    Z.of_nat (length written + length body) < MAX_INIT_STR_LEN →
    ∃ s' v' rounds',
      (rounds ≤ rounds' + length body)%nat ∧
      same_reading s' (next_chars (length body) s) ∧
      (body ≠ [] → position s' = {| line := ln s'; col := cn s' |}) ∧
      (body = [] → s' = s) ∧
      string_buffer v' (written ++ (byte_of <$> body)) ∧
      temp_col_number v'
      = match body with
        | [] => temp_col_number v
        | _ => Some (cn (next_chars (length body - 1) s))
        end ∧
      temp_line_number v'
      = match body with
        | [] => temp_line_number v
        | _ => Some (ln (next_chars (length body - 1) s))
        end ∧
      process_string_loop usable_size rounds ip s v
      = process_string_loop usable_size rounds' ip s' v'.
Proof.
  induction 1 as [|a body Ha H34 H92 _ IH|a body Ha _ IH];
    intros c tail s v rounds ip written Hreads Hrounds Hbuf Hlen.
  - exists s, v, rounds. rewrite app_nil_r.
    split_and!; try done; try (simpl; lia); apply same_reading_refl.
  - destruct rounds as [|rounds]; [simpl in Hrounds; lia|]. simpl in Hrounds.
    rewrite length_cons in Hlen.
    pose proof (reads_next_char s a _ Hreads) as Hnext.
    destruct (process_string_loop_char a _ s v rounds ip written Ha H34 H92 Hreads Hbuf)
      as (v1 & Hbuf1 & Htc1 & Htl1 & ->); [lia|].
    assert (Hnot_eof : (ch (next_char s) =? EOF) = false).
    { destruct body as [|a' body]; destruct Hnext as [-> _];
        apply byte_of_not_EOF. }
    rewrite Hnot_eof.
    set (s1 := with_position (next_char s) _).
    destruct (IH c tail s1 v1 rounds ip (written ++ [byte_of a]))
      as (s' & v' & r' & Hr' & Hsame & Hpos & Hnil & Hbuf' & Htc & Htl & ->);
      [by apply reads_with_position|lia|done|rewrite length_app; simpl; lia|].
    assert (Hs1 : ∀ k, same_reading (next_chars k s1) (next_chars (S k) s)).
    { intros k. cbn [next_chars].
      apply same_reading_next_chars, same_reading_with_position. }
    exists s', v', r'. split_and!; try done.
    + simpl. lia.
    + simpl. eapply same_reading_trans; [exact Hsame|]. apply Hs1.
    + intros _. destruct body as [|a' body]; [|by apply Hpos].
      by rewrite (Hnil eq_refl).
    + by rewrite fmap_cons, cons_middle, app_assoc.
    + rewrite Htc. destruct body as [|a' body]; [done|].
      destruct (Hs1 (length (a' :: body) - 1)%nat) as (_ & _ & -> & _).
      f_equal. f_equal. f_equal. simpl. lia.
    + rewrite Htl. destruct body as [|a' body]; [done|].
      destruct (Hs1 (length (a' :: body) - 1)%nat) as (_ & _ & _ & -> & _).
      f_equal. f_equal. f_equal. simpl. lia.
  - destruct rounds as [|rounds]; [simpl in Hrounds; lia|]. simpl in Hrounds.
    rewrite !length_cons in Hlen.
    destruct (process_string_loop_escape a _ s v rounds ip written Ha Hreads Hbuf)
      as (s2 & v1 & Hsame2 & Hbuf1 & Htc1 & Htl1 & ->); [lia|].
    pose proof (reads_next_char s _ _ Hreads) as Hnext.
    pose proof (same_reading_reads _ _ _ Hsame2 Hnext) as Hreads2.
    pose proof (reads_next_char s2 a _ Hreads2) as Hnext2.
    assert (Hnot_eof : (ch (next_char s2) =? EOF) = false).
    { destruct body as [|a' body]; destruct Hnext2 as [-> _];
        apply byte_of_not_EOF. }
    rewrite Hnot_eof.
    set (s3 := with_position (next_char s2) _).
    destruct (IH c tail s3 v1 rounds ip (written ++ [92; byte_of a]))
      as (s' & v' & r' & Hr' & Hsame & Hpos & Hnil & Hbuf' & Htc & Htl & ->);
      [by apply reads_with_position|lia|done|rewrite length_app; simpl; lia|].
    assert (Hs3 : ∀ k, same_reading (next_chars k s3) (next_chars (S (S k)) s)).
    { intros k. cbn [next_chars]. apply same_reading_next_chars.
      eapply same_reading_trans; [apply same_reading_with_position|].
      by apply same_reading_next_char. }
    exists s', v', r'. split_and!; try done.
    + simpl. lia.
    + cbn [length]. eapply same_reading_trans; [exact Hsame|]. apply Hs3.
    + intros _. destruct body as [|a' body]; [|by apply Hpos].
      by rewrite (Hnil eq_refl).
    + rewrite !fmap_cons. change (byte_of (ascii_of_nat 92)) with 92.
      by rewrite <- app_assoc in Hbuf'.
    + rewrite Htc. destruct body as [|a' body]; [done|].
      destruct (Hs3 (length (a' :: body) - 1)%nat) as (_ & _ & -> & _).
      f_equal. f_equal. f_equal. simpl. lia.
    + rewrite Htl. destruct body as [|a' body]; [done|].
      destruct (Hs3 (length (a' :: body) - 1)%nat) as (_ & _ & _ & -> & _).
      f_equal. f_equal. f_equal. simpl. lia.
Qed.


(** [process_string] begins its loop with an empty buffer, when the
    allocator gives at least one byte more than was asked for. *)
Lemma process_string_start token s :
  MAX_INIT_STR_LEN < usable_size MAX_INIT_STR_LEN →
  ∃ v, string_buffer v [] ∧
       temp_col_number v = None ∧ temp_line_number v = None ∧
       process_string usable_size token s
       = match process_string_loop usable_size (S (length (src_file s)))
                 (position s) s v with
         | Done (s, v) =>
             match c_string (bytes (updated_string v)) with
             | Some str =>
                 Done ({| type := TOK_STR; value := value token;
                          string := str; lexeme := lexeme token |},
                       next_char s)
             | None => Undefined
             end
         | Fatal e pos => Fatal e pos
         | Undefined => Undefined
         | Unfinished => Unfinished
         end.
Proof.
  intros Hslack. destruct (cleared_string_Some Hslack) as (others & Hclear).
  eexists. split; [|split; [|split];
    [| |unfold process_string; rewrite Hclear; reflexivity]; done].
  split; [done|]. split; [done|]. cbn [updated_string bytes].
  exists (S (Z.to_nat MAX_INIT_STR_LEN)), others. split; [done|].
  assert (0 ≤ MAX_INIT_STR_LEN) by done. simpl length. lia.
Qed.

Lemma double_quote_start :
  isspace (byte_of double_quote) = false ∧
  word_start (byte_of double_quote) = false ∧
  isdigit (byte_of double_quote) = false.
Proof. done. Qed.


(** The same at the very start of an input, with no bound on its length. *)
Lemma get_token_string_begin rest token s :
  reads s (double_quote :: rest) →
  ∃ s2 oldpos,
    reads s2 rest ∧
    get_token MAX_ID_LEN usable_size token s
    = match process_string usable_size token s2 with
      | Done (token, s') => Done (token, with_position s' oldpos)
      | other => other
      end.
Proof.
  intros Hreads. pose proof Hreads as [Hch _].
  unfold get_token. cbn [get_token_rec].
  rewrite (skip_whitespace_here s _ _ _ 0 Hreads ltac:(done)).
  simpl Z.eqb. cbv iota.
  set (s2 := with_position s _).
  assert (Hs2 : reads s2 (double_quote :: rest)) by (by apply reads_with_position).
  pose proof Hs2 as [Hch2 _]. rewrite Hch2, Hch.
  change (byte_of double_quote) with 34. cbn -[process_string next_char].
  eexists _, _. split; [|reflexivity].
  eapply reads_next_char. apply reads_with_position. exact Hs2.
Qed.

(** C2 (amended): for an input that is a double quote, a body of fewer
    than [MAX_INIT_STR_LEN] characters, printable ones and the escapes
    backslash-n, backslash-t, backslash-quote and backslash-backslash, and a
    double quote, [get_token] returns one [TOK_STR] token whose payload is
    the body as it is written, each escape with its backslash, and leaves
    the scanner on what follows the closing quote.  The body fits the bytes
    first asked of the allocator, which gives at least one byte more: the
    code writes a NUL one byte after them. *)
Theorem get_token_string body rest token s0 :
  MAX_INIT_STR_LEN < usable_size MAX_INIT_STR_LEN →
  string_body body → Z.of_nat (length body) < MAX_INIT_STR_LEN →
  ∃ t s',
    get_token MAX_ID_LEN usable_size token
      (init_scanner (double_quote :: body ++ double_quote :: rest) s0)
    = Done (t, s') ∧
    type t = TOK_STR ∧ string t = byte_of <$> body ∧ reads s' rest.
Proof.
  intros Hslack Hbody Hlen.
  pose proof (reads_init (double_quote :: body ++ double_quote :: rest) s0) as Hreads.
  destruct (get_token_string_begin _ token _ Hreads) as (s3 & oldpos & Hs3 & ->).
  destruct (process_string_start token s3 Hslack) as (v0 & Hbuf0 & _ & _ & ->).
  destruct (process_string_loop_over body Hbody double_quote rest s3 v0
              (S (length (src_file s3))) (position s3) [] Hs3)
    as (s4 & v4 & r4 & _ & Hsame4 & _ & _ & Hbuf4 & _ & _ & ->);
    [|done|simpl; lia|].
  { rewrite (reads_src_length _ _ Hs3), length_app. simpl. lia. }
  assert (Hs4 : reads s4 (double_quote :: rest)).
  { eapply same_reading_reads; [exact Hsame4|].
    pose proof (reads_next_chars (length body) _ _ Hs3) as Hr.
    by rewrite drop_app_length in Hr. }
  pose proof Hs4 as [Hch4 _].
  assert (Hdone : process_string_loop usable_size r4 (position s3) s4 v4
                  = Done (s4, v4)).
  { destruct r4; cbn [process_string_loop]; rewrite Hch4; done. }
  rewrite Hdone.
  destruct Hbuf4 as (_ & _ & zeros & others & -> & Hzeros).
  destruct zeros as [|zeros].
  { rewrite app_nil_l, length_fmap in Hzeros. lia. }
  cbn [replicate app]. rewrite (c_string_written _ _ (string_body_nonzero _ Hbody)).
  eexists _, _. split; [reflexivity|]. cbn [type string].
  split; [done|]. split; [done|].
  apply reads_with_position. by eapply reads_next_char.
Qed.

(** *** Strings that are not well formed *)




(** *** Comments *)

Local Abbreviation comment_loop depth start_pos :=
  (fix loop (rounds : nat) (s : scanner) : outcome scanner :=
     match rounds with
     | O => Unfinished
     | S rounds =>
         if ch s =? EOF then Fatal comment_not_closed start_pos
         else if ch s =? 123 then
           match skip_comment depth s with
           | Done s => loop rounds (next_char s)
           | other => other
           end
         else if ch s =? 125 then Done s
         else loop rounds (next_char s)
     end).

Lemma skip_comment_unfold depth s :
  skip_comment (S depth) s
  = comment_loop depth {| line := ln s; col := cn s |}
      (S (S (length (src_file (next_char s))))) (next_char s).
Proof. reflexivity. Qed.

Lemma next_chars_nested a b s :
  next_chars (S (a + S b)) s
  = next_chars b (next_char (next_chars a (next_char s))).
Proof.
  replace (S (a + S b)) with (S a + S b)%nat by lia.
  by rewrite next_chars_add.
Qed.

(** The loop of [skip_comment] over characters and closed comments that
    something follows. *)
Lemma comment_loop_over body :
  comment_body body →
  ∀ c tail s rounds depth start_pos,
    reads s (body ++ c :: tail) →
    (length body ≤ rounds)%nat → (length body ≤ depth)%nat →
    ∃ s' rounds',
      (rounds ≤ rounds' + length body)%nat ∧
      same_reading s' (next_chars (length body) s) ∧
      comment_loop depth start_pos rounds s
      = comment_loop depth start_pos rounds' s'.
Proof.
  induction 1 as [|a body Ha1 Ha2 _ IH|inner body _ IHinner _ IHbody];
    intros c tail s rounds depth start_pos Hreads Hrounds Hdepth.
  - exists s, rounds. split; [simpl; lia|]. split; [apply same_reading_refl|done].
  - destruct rounds as [|rounds]; [simpl in Hrounds; lia|]. simpl in Hrounds.
    pose proof (reads_next_char s a _ Hreads) as Hnext.
    destruct Hreads as [Hch _].
    destruct (IH c tail (next_char s) rounds depth start_pos)
      as (s' & r' & Hr' & Hsame & Heq); [done|lia|simpl in Hdepth; lia|].
    exists s', r'. split; [simpl; lia|]. split; [done|].
    rewrite <- Heq. rewrite Hch, byte_of_not_EOF.
    destruct (Z.eqb_spec (byte_of a) 123); [done|].
    destruct (Z.eqb_spec (byte_of a) 125); [done|]. done.
  - destruct rounds as [|rounds]; [simpl in Hrounds; lia|].
    destruct depth as [|depth]; [simpl in Hdepth; lia|].
    simpl in Hreads. rewrite <- app_assoc in Hreads. simpl in Hreads.
    rewrite length_cons, length_app, length_cons in Hrounds, Hdepth.
    pose proof (reads_next_char s _ _ Hreads) as Hnext.
    destruct (IHinner (ascii_of_nat 125) (body ++ c :: tail) (next_char s)
                (S (S (length (src_file (next_char s))))) depth
                {| line := ln s; col := cn s |})
      as (s2 & r2 & Hr2 & Hsame2 & Heq2); [done| |lia|].
    { rewrite (reads_src_length _ _ Hnext), length_app. simpl. lia. }
    assert (Hreads2 : reads s2 (ascii_of_nat 125 :: body ++ c :: tail)).
    { eapply same_reading_reads; [exact Hsame2|].
      pose proof (reads_next_chars (length inner) _ _ Hnext) as Hr.
      by rewrite drop_app_length in Hr. }
    assert (Hskip : skip_comment (S depth) s = Done s2).
    { rewrite skip_comment_unfold, Heq2.
      destruct r2 as [|r2].
      { rewrite (reads_src_length _ _ Hnext), length_app in Hr2.
        simpl in Hr2. lia. }
      destruct Hreads2 as [-> _]. done. }
    pose proof (reads_next_char s2 _ _ Hreads2) as Hnext2.
    destruct (IHbody c tail (next_char s2) rounds (S depth) start_pos)
      as (s' & r' & Hr' & Hsame & Heq); [done|lia|lia|].
    exists s', r'. split; [rewrite length_cons, length_app, length_cons; lia|].
    split.
    + rewrite length_cons, length_app, length_cons, next_chars_nested.
      eapply same_reading_trans; [exact Hsame|].
      by apply same_reading_next_chars, same_reading_next_char.
    + rewrite <- Heq. destruct Hreads as [Hch _]. rewrite Hch, Hskip. done.
Qed.

Lemma skip_comment_run body rest s depth :
  comment_body body →
  reads s (ascii_of_nat 123 :: body ++ ascii_of_nat 125 :: rest) →
  (length body < depth)%nat →
  ∃ s', skip_comment depth s = Done s' ∧
        same_reading s' (next_chars (S (length body)) s).
Proof.
  intros Hbody Hreads Hdepth.
  destruct depth as [|depth]; [lia|].
  pose proof (reads_next_char s _ _ Hreads) as Hnext.
  destruct (comment_loop_over body Hbody (ascii_of_nat 125) rest (next_char s)
              (S (S (length (src_file (next_char s))))) depth
              {| line := ln s; col := cn s |})
    as (s' & r' & Hr' & Hsame & Heq); [done| |lia|].
  { rewrite (reads_src_length _ _ Hnext), length_app. simpl. lia. }
  assert (Hreads' : reads s' (ascii_of_nat 125 :: rest)).
  { eapply same_reading_reads; [exact Hsame|].
    pose proof (reads_next_chars (length body) _ _ Hnext) as Hr.
    by rewrite drop_app_length in Hr. }
  exists s'. split; [|done].
  rewrite skip_comment_unfold, Heq.
  destruct r' as [|r'].
  { rewrite (reads_src_length _ _ Hnext), length_app in Hr'. simpl in Hr'. lia. }
  destruct Hreads' as [-> _]. done.
Qed.

(** The states that [skip_whitespace] and [skip_comment] return have no
    more of the file before them than the states they are called on. *)
Lemma next_char_length s : (length (src_file (next_char s)) ≤ length (src_file s))%nat.
Proof.
  unfold next_char. destruct (src_file s) as [|c rest]; simpl; [lia|].
  destruct (byte_of c =? 10); simpl; lia.
Qed.

Lemma skip_whitespace_length rounds :
  ∀ s is_it s' is_it',
    skip_whitespace rounds s is_it = Done (s', is_it') →
    (length (src_file s') ≤ length (src_file s))%nat.
Proof.
  induction rounds as [|rounds IH]; intros s is_it s' is_it'; simpl.
  - destruct (isspace (ch s)); [done|]. by intros [= <- _].
  - destruct (isspace (ch s)); [|by intros [= <- _]].
    pose proof (next_char_length s).
    repeat case_match; intros Hs; apply IH in Hs; simpl in Hs; lia.
Qed.

Lemma comment_loop_length depth start_pos :
  (∀ s s', skip_comment depth s = Done s' →
           (length (src_file s') < length (src_file s))%nat) →
  ∀ rounds s s',
    comment_loop depth start_pos rounds s = Done s' →
    (length (src_file s') ≤ length (src_file s))%nat.
Proof.
  intros Hrec. induction rounds as [|rounds IH]; intros s s'; [done|].
  destruct (ch s =? EOF); [done|].
  destruct (ch s =? 123).
  - destruct (skip_comment depth s) as [s2| | |] eqn:Hs2; [|done|done|done].
    intros Hs'. apply IH in Hs'. apply Hrec in Hs2.
    pose proof (next_char_length s2). lia.
  - destruct (ch s =? 125); [by intros [= <-]|].
    intros Hs'. apply IH in Hs'. pose proof (next_char_length s). lia.
Qed.

Lemma comment_loop_EOF depth start_pos rounds s :
  ch s = EOF →
  comment_loop depth start_pos (S rounds) s = Fatal comment_not_closed start_pos.
Proof. intros Hch. cbn. by rewrite Hch. Qed.

Lemma skip_comment_length depth :
  ∀ s s', skip_comment depth s = Done s' →
          (length (src_file s') < length (src_file s))%nat.
Proof.
  induction depth as [|depth IH]; intros s s' Hs'; [done|].
  pose proof (comment_loop_length depth {| line := ln s; col := cn s |} IH
                (S (S (length (src_file (next_char s))))) (next_char s) s' Hs') as Hle.
  destruct (src_file s) as [|c rest] eqn:Hsrc.
  - assert (Hch : ch (next_char s) = EOF) by (unfold next_char; by rewrite Hsrc).
    pose proof (comment_loop_EOF depth {| line := ln s; col := cn s |}
                  (S (length (src_file (next_char s)))) (next_char s) Hch) as Hf.
    pose proof (eq_trans (eq_sym Hf) Hs'). done.
  - assert (Hlen : length (src_file (next_char s)) = length rest).
    { unfold next_char. rewrite Hsrc. by destruct (byte_of c =? 10). }
    simpl. lia.
Qed.

(** [get_token] does not depend on the bound of its calls to itself, once
    the bound is above the length of what is left of the file. *)
Lemma get_token_rec_depth d :
  ∀ d' token s,
    (length (src_file s) < d)%nat → (length (src_file s) < d')%nat →
    get_token_rec MAX_ID_LEN usable_size d token s
    = get_token_rec MAX_ID_LEN usable_size d' token s.
Proof.
  induction d as [|d IH]; intros d' token s Hd Hd'; [lia|].
  destruct d' as [|d']; [lia|].
  cbn [get_token_rec].
  destruct (skip_whitespace _ s 0) as [[sa is_it]| | |] eqn:Hskip; [|done|done|done].
  apply skip_whitespace_length in Hskip.
  set (sb := if is_it =? 0 then _ else sa).
  assert (Hsb : (length (src_file sb) ≤ length (src_file s))%nat).
  { subst sb. by destruct (is_it =? 0). }
  clearbody sb.
  destruct (negb (ch sb =? EOF)); [|done].
  destruct (isalpha (ch sb) || (ch sb =? 95)); [done|].
  destruct (isdigit (ch sb)); [done|].
  destruct (ch sb =? 34); [done|].
  destruct (ch sb =? 123); [|done].
  destruct (skip_comment _ sb) as [sc| | |] eqn:Hsc; [|done|done|done].
  apply skip_comment_length in Hsc.
  pose proof (next_char_length sc).
  apply IH; lia.
Qed.

(** *** The rounds granted to the loops suffice *)

Lemma next_char_cases s :
  (src_file s = [] ∧ ch (next_char s) = EOF ∧ src_file (next_char s) = []) ∨
  (∃ c rest, src_file s = c :: rest ∧ ch (next_char s) = byte_of c ∧
             src_file (next_char s) = rest).
Proof.
  unfold next_char. destruct (src_file s) as [|c rest].
  - left. done.
  - right. exists c, rest. by destruct (byte_of c =? 10).
Qed.

Lemma skip_whitespace_finishes rounds :
  ∀ s is_it,
    ch s = EOF ∨ (length (src_file s) < rounds)%nat →
    skip_whitespace rounds s is_it ≠ Unfinished.
Proof.
  induction rounds as [|rounds IH]; intros s is_it Hfuel; simpl.
  - destruct Hfuel as [->|?]; [done|lia].
  - destruct (isspace (ch s)) eqn:Hsp; [|done].
    assert (Hlen : (length (src_file s) < S rounds)%nat).
    { destruct Hfuel as [Heof|?]; [|done]. by rewrite Heof in Hsp. }
    assert (Hnext : ch (next_char s) = EOF
                    ∨ (length (src_file (next_char s)) < rounds)%nat).
    { destruct (next_char_cases s) as [(_ & ? & _)|(c & rest & Hsrc & _ & ->)];
        [by left|right]. rewrite Hsrc in Hlen. simpl in Hlen. lia. }
    destruct (_ || _) eqn:Hfirst.
    + destruct (ch (next_char s) =? EOF); by apply IH.
    + destruct (ch s =? 9) eqn:Htab; [by apply IH|].
      unfold isspace in Hsp. lia.
Qed.

Lemma process_number_loop_finishes rounds :
  ∀ s value d,
    (length (src_file s) ≤ rounds)%nat →
    process_number_loop rounds s value d ≠ Unfinished.
Proof.
  induction rounds as [|rounds IH]; intros s value d Hfuel; simpl;
    (destruct (_ || _); [done|]);
    destruct (next_char_cases s) as [(_ & Hch & _)|(c & rest & Hsrc & _ & Hrest)].
  - by rewrite Hch.
  - rewrite Hsrc in Hfuel. simpl in Hfuel. lia.
  - by rewrite Hch.
  - destruct (negb _); [done|]. apply IH.
    rewrite Hrest. rewrite Hsrc in Hfuel. simpl in Hfuel. lia.
Qed.

Lemma process_number_finishes token s : process_number token s ≠ Unfinished.
Proof.
  unfold process_number.
  pose proof (process_number_loop_finishes (length (src_file s)) s 0
                (wrap_int (ch s - 48)) ltac:(lia)).
  by destruct (process_number_loop _ _ _ _) as [[? ?]| | |].
Qed.

Lemma process_word_loop_finishes rounds :
  ∀ s lexeme x,
    (length (src_file s) ≤ rounds)%nat →
    process_word_loop MAX_ID_LEN rounds s lexeme x ≠ Unfinished.
Proof.
  induction rounds as [|rounds IH]; intros s lexeme x Hfuel; simpl;
    (destruct (x >=? MAX_ID_LEN); [done|]);
    destruct (next_char_cases s) as [(_ & Hch & _)|(c & rest & Hsrc & _ & Hrest)].
  - by rewrite Hch.
  - rewrite Hsrc in Hfuel. simpl in Hfuel. lia.
  - by rewrite Hch.
  - destruct (_ || _); [|done]. apply IH.
    rewrite Hrest. rewrite Hsrc in Hfuel. simpl in Hfuel. lia.
Qed.

Lemma process_word_finishes token s :
  process_word MAX_ID_LEN token s ≠ Unfinished.
Proof.
  unfold process_word.
  set (s1 := with_position s _).
  pose proof (process_word_loop_finishes (length (src_file s1)) s1 [] 0
                ltac:(lia)).
  destruct (process_word_loop _ _ _ _ _) as [[? ?]| | |]; try done.
  by destruct (reserved_search _ _ _ _).
Qed.

Lemma process_string_loop_finishes rounds :
  ∀ ip s v,
    (length (src_file s) < rounds)%nat →
    process_string_loop usable_size rounds ip s v ≠ Unfinished.
Proof.
  induction rounds as [|rounds IH]; intros ip s v Hfuel; [lia|].
  cbn [process_string_loop].
  destruct (negb (ch s =? 34)); [|done].
  destruct (_ && _); [done|].
  destruct (ch s =? 10); [by repeat case_match|].
  assert (Hstep : ∀ s1 v1,
            (length (src_file s1) ≤ length (src_file s))%nat →
            match write_byte (updated_string v1) (i v1) (ch s1 `mod` 256) with
            | Some b =>
                if ch (next_char s1) =? EOF
                then Fatal string_not_closed ip
                else process_string_loop usable_size rounds ip
                       (with_position (next_char s1)
                          {| line := ln (next_char s1); col := cn (next_char s1) |})
                       {| i := i v1 + 1; nstring := nstring v1;
                          updated_string := b;
                          temp_col_number := Some (cn s1);
                          temp_line_number := Some (ln s1) |}
            | None => Undefined
            end ≠ Unfinished).
  { intros s1 v1 Hlen. destruct (write_byte _ _ _); [|done].
    destruct (Z.eqb_spec (ch (next_char s1)) EOF) as [|Hne]; [done|].
    apply IH. simpl.
    destruct (next_char_cases s1) as [(_ & ? & _)|(c & rest & Hsrc & _ & ->)];
      [done|].
    rewrite Hsrc in Hlen. simpl in Hlen. lia. }
  destruct (ch s =? 92).
  - destruct (write_byte (updated_string v) (i v) 92); [|done].
    pose proof (next_char_length s) as Hlen.
    destruct (_ || _); [apply Hstep; done|].
    destruct (ch (next_char s) =? 34); [apply Hstep; done|].
    destruct (ch (next_char s) =? 92); [apply Hstep; done|done].
  - apply Hstep. lia.
Qed.

Lemma process_string_finishes token s :
  process_string usable_size token s ≠ Unfinished.
Proof.
  unfold process_string. destruct (cleared_string usable_size); [|done].
  match goal with
  | |- context [process_string_loop _ ?r ?ip ?s ?v] =>
      pose proof (process_string_loop_finishes r ip s v ltac:(lia));
      destruct (process_string_loop usable_size r ip s v) as [[? ?]| | |]
  end; try done.
  by destruct (c_string _).
Qed.

Lemma comment_loop_finishes depth start_pos :
  (∀ s, (length (src_file s) < depth)%nat → skip_comment depth s ≠ Unfinished) →
  ∀ rounds s,
    ch s = EOF ∨ (length (src_file s) < depth)%nat →
    (length (src_file s) + 2 ≤ rounds)%nat ∨ (ch s = EOF ∧ (1 ≤ rounds)%nat) →
    comment_loop depth start_pos rounds s ≠ Unfinished.
Proof.
  intros Hrec. induction rounds as [|rounds IH]; intros s Hdepth Hfuel; [lia|].
  destruct (Z.eqb_spec (ch s) EOF) as [|Hne]; [done|].
  destruct Hdepth as [?|Hdepth]; [done|].
  destruct Hfuel as [Hfuel|[? _]]; [|done].
  assert (Hnext : ∀ s', (length (src_file s') ≤ length (src_file s))%nat →
                        comment_loop depth start_pos rounds (next_char s')
                        ≠ Unfinished).
  { intros s' Hle.
    destruct (next_char_cases s') as [(_ & Hch & Hsrc)|(c & rest & Hsrc & _ & Hrest)].
    - apply IH; [by left|]. right. split; [done|lia].
    - rewrite Hsrc in Hle. simpl in Hle.
      apply IH; [right|left]; rewrite Hrest; lia. }
  destruct (ch s =? 123).
  - pose proof (Hrec s Hdepth) as Hin.
    destruct (skip_comment depth s) as [s2| | |] eqn:Hs2; [|done|done|done].
    apply skip_comment_length in Hs2. apply Hnext. lia.
  - destruct (ch s =? 125); [done|]. by apply Hnext.
Qed.

Lemma skip_comment_finishes depth :
  ∀ s, (length (src_file s) < depth)%nat → skip_comment depth s ≠ Unfinished.
Proof.
  induction depth as [|depth IH]; intros s Hdepth; [lia|].
  rewrite skip_comment_unfold.
  refine (comment_loop_finishes depth {| line := ln s; col := cn s |} IH
            (S (S (length (src_file (next_char s))))) (next_char s) _ _);
    [|left; lia].
  destruct (next_char_cases s) as [(_ & ? & _)|(c & rest & Hsrc & _ & ->)];
    [by left|right].
  rewrite Hsrc in Hdepth. simpl in Hdepth. lia.
Qed.

Lemma get_token_rec_finishes d :
  ∀ token s,
    (length (src_file s) < d)%nat →
    get_token_rec MAX_ID_LEN usable_size d token s ≠ Unfinished.
Proof.
  induction d as [|d IH]; intros token s Hd; [lia|].
  cbn [get_token_rec].
  pose proof (skip_whitespace_finishes (S (length (src_file s))) s 0
                ltac:(right; lia)) as Hws.
  destruct (skip_whitespace _ s 0) as [[sa is_it]| | |] eqn:Hskip;
    [|done|done|done].
  apply skip_whitespace_length in Hskip.
  set (sb := if is_it =? 0 then _ else sa).
  assert (Hsb : (length (src_file sb) ≤ length (src_file s))%nat).
  { subst sb. by destruct (is_it =? 0). }
  clearbody sb.
  destruct (negb (ch sb =? EOF)); [|done].
  destruct (isalpha (ch sb) || (ch sb =? 95)); [apply process_word_finishes|].
  destruct (isdigit (ch sb)); [apply process_number_finishes|].
  destruct (ch sb =? 34).
  { match goal with
    | |- context [process_string _ ?t ?s1] =>
        pose proof (process_string_finishes t s1);
        by destruct (process_string usable_size t s1) as [[? ?]| | |]
    end. }
  destruct (ch sb =? 123).
  { pose proof (skip_comment_finishes (S (length (src_file sb))) sb ltac:(lia)).
    destruct (skip_comment _ sb) as [sc| | |] eqn:Hsc; [|done|done|done].
    apply skip_comment_length in Hsc. pose proof (next_char_length sc).
    apply IH. lia. }
  unfold punctuation. by repeat case_match.
Qed.

(** [get_token] comes to a token, to an error or to a step that C leaves
    undefined, whatever the state of the scanner. *)
Lemma get_token_finishes token s :
  get_token MAX_ID_LEN usable_size token s ≠ Unfinished.
Proof. unfold get_token. apply get_token_rec_finishes. lia. Qed.

(** X24: [get_token] on whitespace and a comment, which may hold closed
    comments, works as on the state that has the character after the
    closing brace as its lookahead: the comment is skipped, and what
    [get_token] comes to is what it comes to on the text that follows the
    comment, which is a token, an error or a step that C leaves undefined:
    the rounds granted to the loops of the model suffice on both sides. *)
Theorem get_token_comment before ws body rest token s :
  Forall (λ c, isspace (byte_of c) = true) ws →
  comment_body body →
  scans s before (ws ++ ascii_of_nat 123 :: body ++ ascii_of_nat 125 :: rest) →
  ∃ s2, scans s2 (before ++ ws ++ ascii_of_nat 123 :: body ++ [ascii_of_nat 125])
              rest ∧
        get_token MAX_ID_LEN usable_size token s
        = get_token MAX_ID_LEN usable_size token s2 ∧
        get_token MAX_ID_LEN usable_size token s ≠ Unfinished.
Proof.
  intros Hws Hbody Hscans.
  destruct (get_token_rec_start before ws (ascii_of_nat 123)
              (body ++ ascii_of_nat 125 :: rest) s Hws ltac:(done) Hscans)
    as (s1 & Hscans1 & Hpos1 & Hpos1' & Heq).
  pose proof (scans_reads _ _ _ Hscans1) as Hreads1.
  pose proof Hreads1 as [Hch1 _].
  destruct (skip_comment_run body rest s1 (S (length (src_file s1))) Hbody Hreads1)
    as (s' & Hskip & Hsame).
  { rewrite (reads_src_length _ _ Hreads1). simpl. rewrite length_app. lia. }
  assert (Hreads' : reads s' (ascii_of_nat 125 :: rest)).
  { eapply same_reading_reads; [exact Hsame|].
    pose proof (reads_next_chars (S (length body)) _ _ Hreads1) as Hr.
    change (ascii_of_nat 123 :: body ++ ascii_of_nat 125 :: rest)
      with ((ascii_of_nat 123 :: body) ++ ascii_of_nat 125 :: rest) in Hr.
    by rewrite (drop_app_length (ascii_of_nat 123 :: body)) in Hr. }
  assert (Hscans' : scans s' (before ++ ws ++ ascii_of_nat 123 :: body)
                      (ascii_of_nat 125 :: rest)).
  { rewrite app_assoc.
    by apply (scans_after s1 s' (before ++ ws) (ascii_of_nat 123 :: body)
                (ascii_of_nat 125 :: rest) (S (length body))). }
  exists (next_char s'). split.
  { replace (before ++ ws ++ ascii_of_nat 123 :: body ++ [ascii_of_nat 125])
      with ((before ++ ws ++ ascii_of_nat 123 :: body) ++ [ascii_of_nat 125])
      by (by rewrite <- !app_assoc).
    by apply scans_next. }
  assert (Hlen1 : (length (src_file s1) ≤ length (src_file s))%nat).
  { rewrite (reads_src_length _ _ Hreads1),
      (reads_src_length _ _ (scans_reads _ _ _ Hscans)), !length_app.
    simpl. lia. }
  assert (Hlen' : (length (src_file (next_char s')) < length (src_file s1))%nat).
  { pose proof (next_char_length s').
    rewrite (reads_src_length _ _ Hreads1), (reads_src_length _ _ Hreads') in *.
    simpl. rewrite length_app. simpl. simpl in H. lia. }
  split; [|apply get_token_finishes].
  unfold get_token. rewrite Heq.
  transitivity (get_token_rec MAX_ID_LEN usable_size (length (src_file s)) token
                  (next_char s'));
    [|apply get_token_rec_depth; lia].
  cbn [get_token_rec].
  rewrite (skip_whitespace_here s1 _ _ _ 0 Hreads1 ltac:(done)).
  simpl Z.eqb. cbv iota. rewrite <- Hpos1'.
  replace (with_position s1 (position s1)) with s1 by (by destruct s1).
  rewrite Hch1. change (byte_of (ascii_of_nat 123)) with 123.
  cbn -[skip_comment get_token_rec next_char]. by rewrite Hskip.
Qed.

(** *** Lines and columns, counted *)

Lemma column_app l1 l2 cn0 : column (l1 ++ l2) cn0 = column l2 (column l1 cn0).
Proof. revert cn0. induction l1 as [|c l1 IH]; intros cn0; simpl; [done|apply IH]. Qed.

Lemma column_line l cn0 :
  Forall (λ c, byte_of c ≠ 10) l → column l cn0 = cn0 + Z.of_nat (length l).
Proof.
  revert cn0. induction l as [|c l IH]; intros cn0 Hl; simpl; [lia|].
  apply Forall_cons in Hl as [Hc Hl].
  destruct (Z.eqb_spec (byte_of c) 10); [done|]. rewrite IH by done. lia.
Qed.

Lemma newlines_app l1 l2 : newlines (l1 ++ l2) = newlines l1 + newlines l2.
Proof. unfold newlines. rewrite filter_app, length_app. lia. Qed.

Lemma newlines_line l : Forall (λ c, byte_of c ≠ 10) l → newlines l = 0.
Proof.
  intros Hl. unfold newlines.
  induction Hl as [|c l Hc _ IH]; [done|].
  by rewrite filter_cons, decide_False.
Qed.

(** X25: after [init_scanner] and the calls of [next_char] that make a
    character of the file the lookahead, [ch] is the character, [ln] is 1
    plus the number of newlines before it and [cn] is 1 plus the number of
    characters between it and the last newline before it, or the start of
    the file; a tab counts as one character, and a newline that is the
    lookahead is at column 0 of the line it opens. *)
Theorem next_char_line_column lines l c rest s0 :
  lines = [] ∨ (∃ lines', lines = lines' ++ [ascii_of_nat 10]) →
  Forall (λ c, byte_of c ≠ 10) l →
  Z.of_nat (length (lines ++ l ++ c :: rest)) < 2 ^ 31 - 1 →
  let s := next_chars (length (lines ++ l))
                      (init_scanner (lines ++ l ++ c :: rest) s0) in
  ch s = byte_of c ∧
  (byte_of c ≠ 10 →
   ln s = 1 + newlines lines ∧ cn s = 1 + Z.of_nat (length l)) ∧
  (byte_of c = 10 → ln s = 2 + newlines lines ∧ cn s = 0).
Proof.
  intros Hlines Hl Hlen s. subst s.
  rewrite (app_assoc lines l (c :: rest)) in *.
  pose proof (scans_init ((lines ++ l) ++ c :: rest) s0 Hlen) as Hscans.
  apply scans_next_chars in Hscans.
  destruct Hscans as ([Hch _] & _ & Hln & Hcn).
  unfold read_position in Hln, Hcn. simpl in Hln, Hcn.
  rewrite !newlines_app, (newlines_line l Hl) in Hln.
  rewrite !column_app in Hcn.
  assert (Hcol : column lines 0 = 0).
  { destruct Hlines as [->|[lines' ->]]; [done|]. by rewrite column_snoc. }
  rewrite Hcol, (column_line l 0 Hl) in Hcn.
  split; [done|]. unfold newlines in Hln at 2. simpl in Hcn, Hln.
  destruct (Z.eqb_spec (byte_of c) 10) as [Hc|Hc].
  - rewrite filter_cons, decide_True in Hln by done. simpl in Hln.
    split; [done|]. intros _. lia.
  - rewrite filter_cons, decide_False in Hln by done. simpl in Hln.
    split; [|done]. intros _. lia.
Qed.

End Facts.

(** *** The claims at concrete inputs *)

(** C2, as stated, fails: on the input of the scenario the payload of the
    string token has five characters, the backslash among them, not the
    four of the claim. *)
Lemma scenario_payload_keeps_backslash :
  ∃ t s',
    get_token 32 glibc_usable_size empty_token
      (init_scanner example_string_input scanner_start)
    = Done (t, s') ∧
    type t = TOK_STR ∧
    string t = [97; 98; 92; 34; 99] ∧ string t ≠ [97; 98; 34; 99] ∧
    ch s' = EOF.
Proof.
  eexists _, _. split; [vm_compute; reflexivity|]. simpl.
  split_and!; done.
Qed.

Lemma get_token_string_witness :
  ∃ t s',
    get_token 32 glibc_usable_size empty_token
      (init_scanner example_string_input scanner_start)
    = Done (t, s') ∧
    type t = TOK_STR ∧ string t = [97; 98; 92; 34; 99] ∧ reads s' [].
Proof.
  apply (get_token_string 32 glibc_usable_size
           ["a"%char; "b"%char; ascii_of_nat 92; double_quote; "c"%char] []
           empty_token scanner_start).
  - reflexivity.
  - apply body_char; [change (byte_of "a") with 97; lia|done|done|].
    apply body_char; [change (byte_of "b") with 98; lia|done|done|].
    apply body_escape; [change (byte_of double_quote) with 34; set_solver|].
    apply body_char; [change (byte_of "c") with 99; lia|done|done|].
    apply body_end.
  - reflexivity.
Defined.

Lemma get_token_number_witness :
  ∃ t1 s1 t2 s2,
    get_token 32 glibc_usable_size empty_token
      (init_scanner ([" "%char; ascii_of_nat 9] ++ ["4"%char; "2"%char]
                     ++ [ascii_of_nat 10]) scanner_start)
    = Done (t1, s1) ∧
    type t1 = TOK_NUM ∧ value t1 = 42 ∧
    get_token 32 glibc_usable_size empty_token s1 = Done (t2, s2) ∧
    type t2 = TOK_EOF ∧ ch s2 = EOF.
Proof.
  apply (get_token_number 32 glibc_usable_size [" "%char; ascii_of_nat 9]
           ["4"%char; "2"%char] [ascii_of_nat 10] empty_token empty_token
           scanner_start).
  - repeat constructor.
  - repeat constructor.
  - discriminate.
  - repeat constructor.
  - vm_compute. discriminate.
Defined.

(** *** The further properties at concrete inputs *)

Lemma reserved_search_exact_witness :
  reserved_search (length reserved) (chars "while") 0 NUM_RESERVED_WORDS
  = Some TOK_WHILE
  ↔ (chars "while", TOK_WHILE) ∈ reserved.
Proof.
  apply (reserved_search_exact (chars "while") TOK_WHILE).
  repeat constructor; done.
Defined.

Lemma get_token_word_witness :
  ∃ t s', get_token 32 glibc_usable_size empty_token
            (init_scanner [" "%char; "e"%char; "n"%char; "d"%char; ";"%char]
                          scanner_start)
          = Done (t, s') ∧
          lexeme t = [101; 110; 100] ∧
          (∀ ty, (lexeme t, ty) ∈ reserved → type t = ty) ∧
          ((∀ ty, (lexeme t, ty) ∉ reserved) → type t = TOK_ID) ∧
          position s' = {| line := 1; col := 2 |} ∧
          scans s' [" "%char; "e"%char; "n"%char; "d"%char] [";"%char].
Proof.
  apply (get_token_word 32 glibc_usable_size [] [" "%char] "e"%char ["n"%char; "d"%char]
           [";"%char] empty_token).
  - repeat constructor.
  - reflexivity.
  - repeat constructor.
  - reflexivity.
  - simpl. lia.
  - apply scans_init. simpl. lia.
Defined.

Lemma get_token_identifier_too_long_witness :
  get_token 2 glibc_usable_size empty_token
    (init_scanner ["a"%char; "b"%char; "c"%char; " "%char] scanner_start)
  = Fatal identifier_too_long {| line := 1; col := 1 |}.
Proof.
  apply (get_token_identifier_too_long 2 glibc_usable_size [] [] "a"%char
           ["b"%char; "c"%char] [" "%char] empty_token).
  - constructor.
  - reflexivity.
  - repeat constructor.
  - simpl. lia.
  - apply scans_init. simpl. lia.
Defined.

Lemma get_token_number_too_large_witness :
  get_token 32 glibc_usable_size empty_token
    (init_scanner (list_ascii_of_string "2147483648") scanner_start)
  = Fatal number_too_large {| line := 1; col := 1 |}.
Proof.
  apply (get_token_number_too_large 32 glibc_usable_size [] [] "2"%char
           (list_ascii_of_string "147483648") [] empty_token).
  - constructor.
  - reflexivity.
  - repeat constructor.
  - vm_compute. split; reflexivity.
  - apply scans_init. simpl. lia.
Defined.

Lemma take_prefix {A} (p l : list A) : p `prefix_of` l → p = take (length p) l.
Proof. intros [k ->]. by rewrite take_app_length. Qed.

Lemma get_token_number_wraps_witness :
  ∃ t s', get_token 32 glibc_usable_size empty_token
            (init_scanner (list_ascii_of_string "4294967296") scanner_start)
          = Done (t, s') ∧
          type t = TOK_NUM ∧ value t = 0 ∧
          (decimal_value (list_ascii_of_string "4294967296") ≤ INT_MAX →
           value t = decimal_value (list_ascii_of_string "4294967296")) ∧
          position s' = {| line := 1; col := 1 |} ∧
          scans s' (list_ascii_of_string "4294967296") [].
Proof.
  apply (get_token_number_wraps 32 glibc_usable_size [] [] "4"%char
           (list_ascii_of_string "294967296") [] empty_token).
  - constructor.
  - reflexivity.
  - repeat constructor.
  - done.
  - intros p Hne Hpre. rewrite (take_prefix _ _ Hpre).
    apply prefix_length in Hpre. simpl in Hpre.
    destruct p as [|a p]; [done|]. simpl length in *.
    do 10 (destruct p as [|? p]; [vm_compute; discriminate|simpl length in * ]).
    lia.
  - apply scans_init. simpl. lia.
Defined.

Lemma get_token_operator_witness :
  ∃ s', get_token 32 glibc_usable_size empty_token
          (init_scanner [" "%char; ">"%char; "1"%char] scanner_start)
        = Done (set_string (set_type empty_token TOK_GT) (chars ">"), s') ∧
        position s' = {| line := 1; col := 2 |} ∧
        scans s' [" "%char; ">"%char] ["1"%char].
Proof.
  apply (get_token_operator 32 glibc_usable_size [] [" "%char] ">" TOK_GT ">" ["1"%char]
           empty_token).
  - repeat constructor.
  - repeat constructor.
  - intros ty' str' Hin. apply list_elem_of_In in Hin. simpl in Hin.
    repeat (destruct Hin as [Hin|Hin]; [discriminate Hin|]). done.
  - apply scans_init. simpl. lia.
Defined.

Lemma get_token_illegal_character_witness :
  get_token 32 glibc_usable_size empty_token
    (init_scanner [ascii_of_nat 10; "!"%char] scanner_start)
  = Fatal (illegal_character 33) {| line := 2; col := 1 |}.
Proof.
  apply (get_token_illegal_character 32 glibc_usable_size [] [ascii_of_nat 10] "!"%char []
           empty_token).
  - repeat constructor.
  - reflexivity.
  - reflexivity.
  - reflexivity.
  - left. intros Hin. apply list_elem_of_In in Hin. simpl in Hin.
    repeat (destruct Hin as [Hin|Hin]; [discriminate Hin|]). done.
  - apply scans_init. simpl. lia.
Defined.




Lemma get_token_comment_witness :
  ∃ s2, scans s2 (list_ascii_of_string "{a{b}c}") ["7"%char] ∧
        get_token 32 glibc_usable_size empty_token
          (init_scanner (list_ascii_of_string "{a{b}c}7") scanner_start)
        = get_token 32 glibc_usable_size empty_token s2 ∧
        get_token 32 glibc_usable_size empty_token
          (init_scanner (list_ascii_of_string "{a{b}c}7") scanner_start)
        ≠ Unfinished.
Proof.
  apply (get_token_comment 32 glibc_usable_size [] []
           (list_ascii_of_string "a{b}c") ["7"%char] empty_token).
  - constructor.
  - apply comment_char; [done|done|].
    apply (comment_nested ["b"%char] ["c"%char]).
    + apply comment_char; [done|done|]. apply comment_end.
    + apply comment_char; [done|done|]. apply comment_end.
  - apply scans_init. simpl. lia.
Defined.

Lemma next_char_line_column_witness :
  let s := next_chars 4
             (init_scanner ["a"%char; ascii_of_nat 10; "b"%char; "c"%char;
                            " "%char; "d"%char] scanner_start) in
  ch s = 32 ∧
  (32 ≠ 10 → ln s = 2 ∧ cn s = 3) ∧
  (32 = 10 → ln s = 3 ∧ cn s = 0).
Proof.
  apply (next_char_line_column ["a"%char; ascii_of_nat 10] ["b"%char; "c"%char]
           " "%char ["d"%char] scanner_start).
  - right. by exists ["a"%char].
  - repeat constructor; done.
  - simpl. lia.
Defined.

End ScannerFacts.
